(** * Verification of gh-issues-pr-export: export_issues_prs.py and cleanup_img_ext.py

    Shallow embedding of the Python scripts.  A Python [str] is modelled as a
    list of code points in the range 0..255 ([list ascii]); bytes likewise.
    The three regular expressions of the scripts are run on a small
    backtracking matcher that follows Python's [re] semantics (ordered
    alternation, greedy and lazy repetition, groups, back-references, [\b]). *)

From Stdlib Require Import Ascii String ZArith DecimalNat.
From stdpp Require Import base list gmap strings sorting.

Open Scope list_scope.
Set Warnings "-register-all".

Abbreviation str := (list ascii).

Definition s2l (s : string) : str := list_ascii_of_string s.

(** ** Character classes (Python [str] semantics on code points 0..255) *)

Definition code (c : ascii) : nat := nat_of_ascii c.

Definition is_ascii_digit (c : ascii) : bool := (48 <=? code c) && (code c <=? 57).
Definition is_ascii_upper (c : ascii) : bool := (65 <=? code c) && (code c <=? 90).
Definition is_ascii_lower (c : ascii) : bool := (97 <=? code c) && (code c <=? 122).
Definition is_ascii_alpha (c : ascii) : bool := is_ascii_upper c || is_ascii_lower c.
Definition is_ascii_alnum (c : ascii) : bool := is_ascii_alpha c || is_ascii_digit c.

(** [str.isalnum] on the Latin-1 range: ASCII letters and digits, and the
    Latin-1 letters and numeric characters. *)
Definition is_alnum_py (c : ascii) : bool :=
  let n := code c in
  is_ascii_alnum c || (n =? 170) || (n =? 178) || (n =? 179) || (n =? 181)
  || (n =? 185) || (n =? 186) || ((188 <=? n) && (n <=? 190))
  || ((192 <=? n) && (n <=? 214)) || ((216 <=? n) && (n <=? 246))
  || (248 <=? n).

(** Python's [\w]. *)
Definition is_word (c : ascii) : bool := is_alnum_py c || (code c =? 95).

(** Python's [\s] ([str.isspace]). *)
Definition is_space_py (c : ascii) : bool :=
  let n := code c in
  ((9 <=? n) && (n <=? 13)) || ((28 <=? n) && (n <=? 32)) || (n =? 133) || (n =? 160).

(** Python's [\d]: decimal digits. *)
Definition is_digit_py (c : ascii) : bool := is_ascii_digit c.

(** [str.lower] on one code point. *)
Definition lower_char (c : ascii) : ascii :=
  let n := code c in
  if is_ascii_upper c || ((192 <=? n) && (n <=? 222) && negb (n =? 215))
  then ascii_of_nat (n + 32) else c.

Definition lower (s : str) : str := map lower_char s.

Definition ceq (a b : ascii) : bool := if ascii_dec a b then true else false.
Definition ceq_ci (a b : ascii) : bool := ceq (lower_char a) (lower_char b).

Fixpoint str_eqb (a b : str) : bool :=
  match a, b with
  | [], [] => true
  | x :: a', y :: b' => ceq x y && str_eqb a' b'
  | _, _ => false
  end.

Fixpoint startswith (s p : str) : bool :=
  match p, s with
  | [], _ => true
  | y :: p', x :: s' => ceq x y && startswith s' p'
  | _, _ => false
  end.

Definition endswith (s p : str) : bool := startswith (rev s) (rev p).

Definition contains_char (c : ascii) (s : str) : bool := existsb (ceq c) s.

(** [s.find(c)]: first index of [c], if any. *)
Fixpoint find_char (c : ascii) (s : str) : option nat :=
  match s with
  | [] => None
  | x :: s' => if ceq x c then Some 0 else option_map S (find_char c s')
  end.

(** [s.find(p)] for a substring. *)
Fixpoint find_sub (p s : str) : option nat :=
  if startswith s p then Some 0 else
  match s with
  | [] => None
  | _ :: s' => option_map S (find_sub p s')
  end.

(** [s.replace(old, new, 1)] *)
Definition replace_first (old new s : str) : str :=
  match find_sub old s with
  | Some i => take i s ++ new ++ drop (i + length old) s
  | None => s
  end.

(** [s.replace(old, new)] for a non-empty [old] (all occurrences,
    left to right, non-overlapping). *)
Fixpoint replace_all_aux (fuel : nat) (old new s : str) : str :=
  match fuel with
  | 0 => s
  | S f =>
    match s with
    | [] => []
    | x :: s' =>
      if startswith s old then new ++ replace_all_aux f old new (drop (length old) s)
      else x :: replace_all_aux f old new s'
    end
  end.
Definition replace_all (old new s : str) : str :=
  match old with
  | [] => s
  | _ => replace_all_aux (S (length s)) old new s
  end.

(** [s.rfind(c)] *)
Definition rfind_char (c : ascii) (s : str) : option nat :=
  match find_char c (rev s) with
  | Some j => Some (length s - 1 - j)
  | None => None
  end.

(** ** A backtracking matcher for Python regular expressions *)

Inductive rx :=
| RClass (p : ascii -> bool)     (* one character satisfying [p] *)
| RSeq (a b : rx)
| RAlt (a b : rx)                (* ordered alternation [a|b] *)
| RStar (greedy : bool) (a : rx) (* [a*] (greedy) or [a*?] (lazy) *)
| RGroup (n : nat) (a : rx)      (* capturing group number [n] *)
| RBackref (n : nat)             (* [(?P=name)] *)
| RBound                         (* [\b] *)
| REmpty.

Fixpoint rx_size (r : rx) : nat :=
  match r with
  | RSeq a b | RAlt a b => S (rx_size a + rx_size b)
  | RStar _ a | RGroup _ a => S (rx_size a)
  | _ => 1
  end.

(** Captures: group number |-> span [(start, end)], most recent first. *)
Abbreviation caps := (list (nat * (nat * nat))).

Fixpoint cap_get (c : caps) (n : nat) : option (nat * nat) :=
  match c with
  | [] => None
  | (m, sp) :: c' => if m =? n then Some sp else cap_get c' n
  end.

Definition slice (inp : str) (i j : nat) : str := take (j - i) (drop i inp).

(** Segments of the input produced by [finditer]/[sub]: a single
    unmatched character, or a match [[i, j)] with its captures. *)
Inductive seg := SLit (i : nat) | SMatch (i j : nat) (c : caps).

Section Matcher.
Variable inp : str.

Definition at_word (i : nat) : bool :=
  match inp !! i with Some c => is_word c | None => false end.

Definition word_boundary (i : nat) : bool :=
  let before := match i with 0 => false | S i' => at_word i' end in
  xorb before (at_word i).

(** [mt fuel r i c k]: match [r] at position [i] with captures [c], then
    run the continuation [k] on the end position; the first success in
    Python's backtracking order is returned. *)
Fixpoint mt (fuel : nat) (r : rx) (i : nat) (c : caps)
         (k : nat -> caps -> option (nat * caps)) : option (nat * caps) :=
  match fuel with
  | 0 => None
  | S f =>
    match r with
    | RClass p =>
      match inp !! i with
      | Some ch => if p ch then k (S i) c else None
      | None => None
      end
    | RSeq a b => mt f a i c (fun j c' => mt f b j c' k)
    | RAlt a b =>
      match mt f a i c k with
      | Some res => Some res
      | None => mt f b i c k
      end
    | RStar true a =>
      match mt f a i c (fun j c' => if j =? i then None else mt f (RStar true a) j c' k) with
      | Some res => Some res
      | None => k i c
      end
    | RStar false a =>
      match k i c with
      | Some res => Some res
      | None => mt f a i c (fun j c' => if j =? i then None else mt f (RStar false a) j c' k)
      end
    | RGroup n a => mt f a i c (fun j c' => k j ((n, (i, j)) :: c'))
    | RBackref n =>
      match cap_get c n with
      | Some (s, e) =>
        let g := slice inp s e in
        if str_eqb (slice inp i (i + length g)) g then k (i + length g) c else None
      | None => None
      end
    | RBound => if word_boundary i then k i c else None
    | REmpty => k i c
    end
  end.

Definition match_at (r : rx) (i : nat) : option (nat * caps) :=
  mt (rx_size r * (length inp + 2) + 10) r i [] (fun j c => Some (j, c)).

(** Left-to-right scan for non-overlapping matches (both patterns of the
    scripts only match non-empty strings). *)
Fixpoint scan_from (fuel : nat) (r : rx) (i : nat) : list seg :=
  match fuel with
  | 0 => []
  | S f =>
    if length inp <=? i then [] else
    match match_at r i with
    | Some (j, c) => if i <? j then SMatch i j c :: scan_from f r j
                     else SLit i :: scan_from f r (S i)
    | None => SLit i :: scan_from f r (S i)
    end
  end.

Definition scan (r : rx) : list seg := scan_from (S (length inp)) r 0.

Definition seg_text (s : seg) : str :=
  match s with
  | SLit i => slice inp i (S i)
  | SMatch i j _ => slice inp i j
  end.

Definition group (c : caps) (n : nat) : option str :=
  match cap_get c n with
  | Some (s, e) => Some (slice inp s e)
  | None => None
  end.
End Matcher.

(** Combinators for writing patterns. *)
Definition rchar (ch : ascii) : rx := RClass (ceq ch).
Definition rchar_ci (ch : ascii) : rx := RClass (ceq_ci ch).
Fixpoint rlit (s : str) : rx :=
  match s with [] => REmpty | [c] => rchar c | c :: s' => RSeq (rchar c) (rlit s') end.
Fixpoint rlit_ci (s : str) : rx :=
  match s with [] => REmpty | [c] => rchar_ci c | c :: s' => RSeq (rchar_ci c) (rlit_ci s') end.
Fixpoint rseq (l : list rx) : rx :=
  match l with [] => REmpty | [r] => r | r :: l' => RSeq r (rseq l') end.
Definition rplus (r : rx) : rx := RSeq r (RStar true r).
Definition ropt (r : rx) : rx := RAlt r REmpty.
Definition rany : rx := RClass (fun _ => true).
Definition not_in (l : str) (c : ascii) : bool := negb (existsb (ceq c) l).
Definition in_ci (l : str) (c : ascii) : bool := existsb (ceq_ci c) l.

Definition dquote : ascii := ascii_of_nat 34.
Definition squote : ascii := ascii_of_nat 39.
Definition quotes : str := [dquote; squote].
Definition not_space_nor (l : str) (c : ascii) : bool := negb (is_space_py c) && not_in l c.

(** ** The patterns of export_issues_prs.py and cleanup_img_ext.py *)

(** [IMG_PATTERN] (flags [re.IGNORECASE | re.DOTALL]); groups:
    1 = md_url, 2 = html_q, 3 = html_url, 4 = html_url_unq. *)
Definition IMG_PATTERN : rx :=
  RAlt
    (rseq [ rlit (s2l "![");
            RStar true (RClass (not_in (s2l "]")));
            rlit (s2l "](");
            RStar true (RClass is_space_py);
            RGroup 1 (rplus (RClass (not_space_nor (s2l ")"))));
            ropt (rseq [ rplus (RClass is_space_py);
                         RClass (fun c => negb (not_in quotes c));
                         RStar true (RClass (not_in quotes));
                         RClass (fun c => negb (not_in quotes c)) ]);
            RStar true (RClass is_space_py);
            rchar ")"%char ])
    (rseq [ rlit_ci (s2l "<img");
            RBound;
            RStar false (RClass (not_in (s2l ">")));
            RBound;
            rlit_ci (s2l "src=");
            RAlt (rseq [ RGroup 2 (RClass (fun c => negb (not_in quotes c)));
                         RGroup 3 (RStar false rany);
                         RBackref 2 ])
                 (RGroup 4 (rplus (RClass (not_space_nor (s2l ">")))));
            RStar false (RClass (not_in (s2l ">")));
            rchar ">"%char ]).

Definition md_url := 1.
Definition html_url := 3.
Definition html_url_unq := 4.

Definition owner_repo_char (c : ascii) : bool :=
  is_word c || ceq c "."%char || ceq c "-"%char.

Definition sd_suffix : rx := ropt (RClass (in_ci (s2l "sd"))).

(** [ISSUE_FIX_PATTERN] (flag [(?i)]); groups: 1 = owner, 2 = repo, 3 = num. *)
Definition ISSUE_FIX_PATTERN : rx :=
  rseq [ RBound;
         RAlt (RSeq (rlit_ci (s2l "fixe")) sd_suffix)
              (RAlt (RSeq (rlit_ci (s2l "close")) sd_suffix)
                    (RSeq (rlit_ci (s2l "resolve")) sd_suffix));
         rplus (RClass is_space_py);
         ropt (rseq [ RGroup 1 (rplus (RClass owner_repo_char));
                      rchar "/"%char;
                      RGroup 2 (rplus (RClass owner_repo_char)) ]);
         rchar "#"%char;
         RGroup 3 (rplus (RClass is_digit_py)) ].

Definition fix_owner := 1.
Definition fix_repo := 2.
Definition fix_num := 3.

(** cleanup_img_ext.py: the .img reference pattern
    [(?P<path>(?:\.\./|\./)?[^\s<quotes><>]+\.img)] (no flags), where
    <quotes> stands for the double and single quote characters. *)
Definition IMG_REF_PATTERN : rx :=
  RGroup 1 (rseq [ ropt (RAlt (rlit (s2l "../")) (rlit (s2l "./")));
                   rplus (RClass (not_space_nor (dquote :: squote :: s2l "<>")));
                   rlit (s2l ".img") ]).

(** [pattern.finditer(text)] as the list of (start, end, captures). *)
Definition finditer (r : rx) (text : str) : list seg :=
  List.filter (fun s => match s with SMatch _ _ _ => true | _ => false end) (scan text r).

(** ** urllib.parse.urlsplit *)

Record SplitResult := mkSplit {
  sr_scheme : str; sr_netloc : str; sr_path : str; sr_query : str; sr_fragment : str }.

Fixpoint lstrip (p : ascii -> bool) (s : str) : str :=
  match s with
  | c :: s' => if p c then lstrip p s' else s
  | [] => []
  end.

Definition scheme_char (c : ascii) : bool :=
  is_ascii_alnum c || ceq c "+"%char || ceq c "-"%char || ceq c "."%char.

(** [str.split(c, 1)] when [c] occurs. *)
Definition split_at_char (c : ascii) (s : str) : str * str :=
  match find_char c s with
  | Some i => (take i s, drop (S i) s)
  | None => (s, [])
  end.

Definition min_opt (a : nat) (b : option nat) : nat :=
  match b with Some x => Nat.min a x | None => a end.

(** [s.split(sep)] for a one-character [sep]. *)
Fixpoint split_char_acc (sep : ascii) (cur : str) (s : str) : list str :=
  match s with
  | [] => [rev cur]
  | c :: s' => if ceq c sep then rev cur :: split_char_acc sep [] s' else split_char_acc sep (c :: cur) s'
  end.
Definition split_char (sep : ascii) (s : str) : list str := split_char_acc sep [] s.

Fixpoint digits_value_acc (acc : nat) (s : str) : nat :=
  match s with
  | [] => acc
  | c :: s' => digits_value_acc (acc * 10 + (code c - 48)) s'
  end.

(** [int(s)] on a string of decimal digits. *)
Definition py_int (s : str) : nat := digits_value_acc 0 s.

(** ** The checks of the ipaddress module *)

Definition is_hex_digit (c : ascii) : bool :=
  is_ascii_digit c || ((97 <=? code c) && (code c <=? 102)) || ((65 <=? code c) && (code c <=? 70)).

(** [IPv4Address._parse_octet] *)
Definition ipv4_octet_ok (s : str) : bool :=
  negb (length s =? 0) && forallb is_ascii_digit s && (length s <=? 3)
  && negb (negb (str_eqb s (s2l "0")) && ceq (hd "x"%char s) "0"%char)
  && (py_int s <=? 255).

(** [IPv4Address(s)] does not raise. *)
Definition ipv4_ok (s : str) : bool :=
  negb (length s =? 0) && negb (contains_char "/"%char s) &&
  let octets := split_char "."%char s in
  (length octets =? 4) && forallb ipv4_octet_ok octets.

(** [IPv6Address._parse_hextet] *)
Definition hextet_ok (s : str) : bool :=
  negb (length s =? 0) && forallb is_hex_digit s && (length s <=? 4).

(** The checks of [IPv6Address._ip_int_from_string] once the parts are
    known ([::] is an empty inner part). *)
Definition ipv6_parts_ok (parts : list str) : bool :=
  let n := length parts in
  let empty (s : str) := length s =? 0 in
  let first_empty := empty (hd [] parts) in
  let last_empty := empty (List.last parts []) in
  match List.filter (fun i => empty (nth i parts [])) (seq 1 (n - 2)) with
  | [] =>
    (n =? 8) && negb first_empty && negb last_empty && forallb hextet_ok parts
  | [k] =>
    let hi := if first_empty then k - 1 else k in
    let lo := if last_empty then n - k - 2 else n - k - 1 in
    (negb first_empty || (hi =? 0)) && (negb last_empty || (lo =? 0)) && (hi + lo <=? 7)
    && forallb hextet_ok (take hi parts) && forallb hextet_ok (drop (n - lo) parts)
  | _ => false
  end.

(** [IPv6Address(s)] does not raise. *)
Definition ipv6_ok (s : str) : bool :=
  negb (contains_char "/"%char s) &&
  let '(addr, scope_ok) :=
    match find_char "%"%char s with
    | Some i => (take i s, let sc := drop (S i) s in negb (length sc =? 0) && negb (contains_char "%"%char sc))
    | None => (s, true)
    end in
  scope_ok && negb (length addr =? 0) &&
  let parts := split_char ":"%char addr in
  (3 <=? length parts) &&
  let lastp := List.last parts [] in
  let '(ok4, parts) :=
    if contains_char "."%char lastp
    then (ipv4_ok lastp, removelast parts ++ [s2l "0"; s2l "0"])
    else (true, parts) in
  ok4 && (length parts <=? 9) && ipv6_parts_ok parts.

(** [_check_bracketed_host(hostname)] does not raise: an IPvFuture
    address [v<hex>.<any>], or an IPv6 address (an IPv4 one is refused). *)
Definition bracketed_host_ok (h : str) : bool :=
  match h with
  | c :: rest =>
    if ceq c "v"%char then
      let t0 := lstrip is_hex_digit rest in
      (length t0 <? length rest) &&
      match t0 with
      | d :: t => ceq d "."%char && negb (length t =? 0) && negb (contains_char "010"%char t)
      | [] => false
      end
    else ipv6_ok h
  | [] => ipv6_ok h
  end.

(** [urlsplit(url)]; [None] is the [ValueError] raised for unbalanced
    brackets in the network location, or (CPython 3.11.4 and later) for a
    bracketed host that is neither an IPv6 nor an IPvFuture address. *)
Definition urlsplit (url0 : str) : option SplitResult :=
  let url1 := lstrip (fun c => code c <=? 32) url0 in
  let url1 := List.filter (fun c => negb (ceq c "009"%char || ceq c "013"%char || ceq c "010"%char)) url1 in
  let '(scheme, url2) :=
    match find_char ":"%char url1, url1 with
    | Some i, c0 :: _ =>
      if (0 <? i) && is_ascii_alpha c0 && forallb scheme_char (take i url1)
      then (lower (take i url1), drop (S i) url1) else ([], url1)
    | _, _ => ([], url1)
    end in
  let '(netloc, url3) :=
    if startswith url2 (s2l "//") then
      let rest := drop 2 url2 in
      let delim := min_opt (min_opt (min_opt (length rest) (find_char "/"%char rest))
                                    (find_char "?"%char rest)) (find_char "#"%char rest) in
      (take delim rest, drop delim rest)
    else ([], url2) in
  if xorb (contains_char "["%char netloc) (contains_char "]"%char netloc) then None else
  if contains_char "["%char netloc && contains_char "]"%char netloc
     && negb (bracketed_host_ok (split_at_char "]"%char (split_at_char "["%char netloc).2).1)
  then None else
  let '(url4, fragment) := split_at_char "#"%char url3 in
  let '(path, query) := split_at_char "?"%char url4 in
  Some (mkSplit scheme netloc path query fragment).

(** ** os.path helpers *)

(** [os.path.basename] *)
Definition basename (p : str) : str :=
  match rfind_char "/"%char p with
  | Some i => drop (S i) p
  | None => p
  end.

(** [os.path.splitext] (posixpath) on a string without separators. *)
Definition splitext (p : str) : str * str :=
  match rfind_char "."%char p with
  | Some d =>
    if existsb (fun c => negb (ceq c "."%char)) (take d p)
    then (take d p, drop d p) else (p, [])
  | None => (p, [])
  end.

(** [sanitize_name]: [re.sub(r"[^A-Za-z0-9._-]+", "_", name)], then
    [strip("_")], then ["image"] if empty. *)
Definition safe_char (c : ascii) : bool :=
  is_ascii_alnum c || ceq c "."%char || ceq c "_"%char || ceq c "-"%char.

Fixpoint collapse_unsafe (in_run : bool) (s : str) : str :=
  match s with
  | [] => []
  | c :: s' =>
    if safe_char c then c :: collapse_unsafe false s'
    else if in_run then collapse_unsafe true s'
    else "_"%char :: collapse_unsafe true s'
  end.

Definition strip_underscore (s : str) : str :=
  let is_us := fun c => ceq c "_"%char in
  rev (lstrip is_us (rev (lstrip is_us s))).

Definition sanitize_name (name : str) : str :=
  match strip_underscore (collapse_unsafe false name) with
  | [] => s2l "image"
  | cleaned => cleaned
  end.

(** Decimal digits of a natural number ([str(n)]). *)
Fixpoint uint_chars (d : Decimal.uint) : str :=
  match d with
  | Decimal.Nil => []
  | Decimal.D0 d => "0"%char :: uint_chars d
  | Decimal.D1 d => "1"%char :: uint_chars d
  | Decimal.D2 d => "2"%char :: uint_chars d
  | Decimal.D3 d => "3"%char :: uint_chars d
  | Decimal.D4 d => "4"%char :: uint_chars d
  | Decimal.D5 d => "5"%char :: uint_chars d
  | Decimal.D6 d => "6"%char :: uint_chars d
  | Decimal.D7 d => "7"%char :: uint_chars d
  | Decimal.D8 d => "8"%char :: uint_chars d
  | Decimal.D9 d => "9"%char :: uint_chars d
  end.

Definition str_of_nat (n : nat) : str := uint_chars (Nat.to_uint n).

(** [f"{index:03d}"]: zero-padded to a minimum width of 3. *)
Definition format_03d (n : nat) : str :=
  let d := str_of_nat n in
  repeat "0"%char (3 - length d) ++ d.

(** [filename_from_url(url, index)]; [None] when [urlsplit] raises. *)
Definition filename_from_url (url : str) (index : nat) : option str :=
  match urlsplit url with
  | None => None
  | Some parsed =>
    let base := basename (sr_path parsed) in
    let base := match base with [] => s2l "image" | _ => base end in
    let '(name, ext) := splitext base in
    let name := take 40 (sanitize_name name) in
    let ext := lower ext in
    let ext := if (length ext =? 0) || (10 <? length ext) then s2l ".img" else ext in
    Some (format_03d index ++ s2l "_" ++ name ++ ext)
  end.

(** ** Magic-byte sniffing *)

Definition bstr (l : list nat) : str := map ascii_of_nat l.

Definition PNG_SIG : str := bstr [137; 80; 78; 71; 13; 10; 26; 10].
Definition JPEG_SIG : str := bstr [255; 216; 255].

(** The body of [detect_ext_from_file] (export_issues_prs.py) after
    [data = path.read_bytes()[:12]]. *)
Definition sniff_export (data : str) : option str :=
  if startswith data PNG_SIG then Some (s2l ".png")
  else if startswith data JPEG_SIG then Some (s2l ".jpg")
  else if startswith data (s2l "GIF87a") || startswith data (s2l "GIF89a") then Some (s2l ".gif")
  else if (12 <=? length data) && str_eqb (slice data 0 4) (s2l "RIFF")
          && str_eqb (slice data 8 12) (s2l "WEBP") then Some (s2l ".webp")
  else None.

(** The same body in [detect_ext] (cleanup_img_ext.py). *)
Definition sniff_cleanup (data : str) : option str :=
  if startswith data PNG_SIG then Some (s2l ".png")
  else if startswith data JPEG_SIG then Some (s2l ".jpg")
  else if startswith data (s2l "GIF87a") || startswith data (s2l "GIF89a") then Some (s2l ".gif")
  else if (12 <=? length data) && str_eqb (slice data 0 4) (s2l "RIFF")
          && str_eqb (slice data 8 12) (s2l "WEBP") then Some (s2l ".webp")
  else None.

(** ** Files *)

(** A path is its list of segments (absolute, normalised); a file system
    is the list of regular files with their contents, in directory order. *)
Abbreviation path := (list str).
Abbreviation fsys := (list (path * str)).

Definition path_eqb (p q : path) : bool := bool_decide (p = q).

Definition fs_read (fs : fsys) (p : path) : option str :=
  option_map snd (List.find (fun e => path_eqb (fst e) p) fs).

Definition fs_exists (fs : fsys) (p : path) : bool :=
  match fs_read fs p with Some _ => true | None => false end.

(** Writing a file: overwrite in place, or create it. *)
Definition fs_write (fs : fsys) (p : path) (data : str) : fsys :=
  if fs_exists fs p
  then map (fun e => if path_eqb (fst e) p then (p, data) else e) fs
  else fs ++ [(p, data)].

Definition is_under (root p : path) : bool :=
  (length root <? length p) && bool_decide (take (length root) p = root).

(** A directory exists when some file lies under it. *)
Definition dir_exists (fs : fsys) (d : path) : bool := existsb (fun e => is_under d (fst e)) fs.

(** [Path.exists()] *)
Definition path_exists (fs : fsys) (p : path) : bool := fs_exists fs p || dir_exists fs p.

(** [d.mkdir(parents=True, exist_ok=True)] raises when the
    directory or one of its ancestors is an existing file. *)
Definition mkdir_blocked (fs : fsys) (d : path) : bool :=
  existsb (fun k => fs_exists fs (take k d)) (seq 1 (length d)).

(** [Path.rename] (POSIX: an existing target is replaced). *)
Definition fs_rename (fs : fsys) (src dst : path) : fsys :=
  match fs_read fs src with
  | None => fs
  | Some data =>
    let fs' := List.filter (fun e => negb (path_eqb (fst e) dst)) fs in
    map (fun e => if path_eqb (fst e) src then (dst, data) else e) fs'
  end.

Definition detect_ext_from_file (fs : fsys) (p : path) : option str :=
  match fs_read fs p with
  | None => None            (* read_bytes raised *)
  | Some bytes => sniff_export (take 12 bytes)
  end.

Definition detect_ext (fs : fsys) (p : path) : option str :=
  match fs_read fs p with
  | None => None
  | Some bytes => sniff_cleanup (take 12 bytes)
  end.

(** [PurePath.suffix] and [PurePath.with_suffix] on the last segment. *)
Definition name_suffix_index (name : str) : option nat :=
  match rfind_char "."%char name with
  | Some i => if (0 <? i) && (i <? length name - 1) then Some i else None
  | None => None
  end.

Definition name_suffix (name : str) : str :=
  match name_suffix_index name with Some i => drop i name | None => [] end.

Definition name_with_suffix (name suffix : str) : str :=
  match name_suffix_index name with
  | Some i => take i name ++ suffix
  | None => name ++ suffix
  end.

Definition path_name (p : path) : str := default [] (last p).

Definition path_suffix (p : path) : str := name_suffix (path_name p).

Definition with_suffix (p : path) (suffix : str) : path :=
  match p with
  | [] => []
  | _ => removelast p ++ [name_with_suffix (path_name p) suffix]
  end.

Fixpoint common_prefix_len (a b : path) : nat :=
  match a, b with
  | x :: a', y :: b' => if str_eqb x y then S (common_prefix_len a' b') else 0
  | _, _ => 0
  end.

Fixpoint join_slash (l : list str) : str :=
  match l with
  | [] => []
  | [x] => x
  | x :: l' => x ++ s2l "/" ++ join_slash l'
  end.

(** [os.path.relpath(p, start).replace(os.sep, "/")] on POSIX. *)
Definition relpath (p start : path) : str :=
  let i := common_prefix_len start p in
  match repeat (s2l "..") (length start - i) ++ drop i p with
  | [] => s2l "."
  | rel => join_slash rel
  end.

(** ** ImageStats, ImageTracker and the effects of get_local *)

Record ImageStats := mkStats { attempted : nat; downloaded : nat; failed : nat }.

Record ImageTracker := mkTracker {
  assets_dir : path;
  md_dir : path;
  token : option str;
  has_missing_cb : bool;
  counter : nat;
  url_to_rel : gmap str str }.

(** The world seen by [get_local]: the files, the tracker, the shared
    stats, the calls made to [missing_cb] (url, rel), and a log of the URLs
    handed to [download_image] (an observation, not program state). *)
Record St := mkSt {
  st_fs : fsys;
  st_tracker : ImageTracker;
  st_stats : ImageStats;
  st_missing_calls : list (str * str);
  st_download_log : list str }.

(** The network and the gh client: [net url token] is the body returned
    by [urlopen] ([None] when it raises: connection error, HTTP error
    status); [gh_api endpoint] is the file written by
    [gh api ... -o path] ([None] when the command fails). *)
Record Env := mkEnv { net : str -> option str -> option str; gh_api : str -> option str }.

Inductive exn := ValueError.

Definition M (A : Type) : Type := St -> (exn + A) * St.
Definition ret {A} (a : A) : M A := fun s => (inr a, s).
Definition bind {A B} (m : M A) (k : A -> M B) : M B :=
  fun s => match m s with
           | (inl e, s') => (inl e, s')
           | (inr a, s') => k a s'
           end.
Definition get : M St := fun s => (inr s, s).
Definition modify (f : St -> St) : M unit := fun s => (inr tt, f s).
Definition raise {A} (e : exn) : M A := fun s => (inl e, s).
Definition of_option {A} (o : option A) : M A :=
  match o with Some a => ret a | None => raise ValueError end.

Notation "x <-- m ;; k" := (bind m (fun x => k)) (at level 95, m at next level, right associativity).
Notation "m ;;; k" := (bind m (fun _ => k)) (at level 95, right associativity).

Definition set_fs (fs : fsys) (s : St) : St :=
  mkSt fs (st_tracker s) (st_stats s) (st_missing_calls s) (st_download_log s).
Definition set_tracker (t : ImageTracker) (s : St) : St :=
  mkSt (st_fs s) t (st_stats s) (st_missing_calls s) (st_download_log s).
Definition set_stats (x : ImageStats) (s : St) : St :=
  mkSt (st_fs s) (st_tracker s) x (st_missing_calls s) (st_download_log s).

Definition bump_counter (t : ImageTracker) : ImageTracker :=
  mkTracker (assets_dir t) (md_dir t) (token t) (has_missing_cb t) (S (counter t)) (url_to_rel t).
Definition remember (url rel : str) (t : ImageTracker) : ImageTracker :=
  mkTracker (assets_dir t) (md_dir t) (token t) (has_missing_cb t) (counter t) (<[url := rel]> (url_to_rel t)).

Definition inc_attempted (x : ImageStats) : ImageStats := mkStats (S (attempted x)) (downloaded x) (failed x).
Definition inc_downloaded (x : ImageStats) : ImageStats := mkStats (attempted x) (S (downloaded x)) (failed x).
Definition inc_failed (x : ImageStats) : ImageStats := mkStats (attempted x) (downloaded x) (S (failed x)).

Definition user_attachments_prefix : str := s2l "/user-attachments/assets/".

(** [_candidate_urls(url)] *)
Definition candidate_urls (url : str) : M (list str) :=
  parsed <-- of_option (urlsplit url) ;;
  if str_eqb (lower (sr_netloc parsed)) (s2l "github.com")
     && startswith (sr_path parsed) user_attachments_prefix then
    if negb (bool_decide (is_Some (find_sub (s2l "download=1") (sr_query parsed)))) then
      ret [url; url ++ (match sr_query parsed with [] => s2l "?" | _ => s2l "&" end) ++ s2l "download=1"]
    else ret [url]
  else ret [url].

(** [_is_user_attachment(url)] *)
Definition is_user_attachment (url : str) : M bool :=
  parsed <-- of_option (urlsplit url) ;;
  ret (str_eqb (lower (sr_netloc parsed)) (s2l "github.com")
       && startswith (sr_path parsed) user_attachments_prefix).

(** [_download_with_gh(url, path)]; [ensure_dir(path.parent)] comes first
    and returns [False] when it raises. *)
Definition download_with_gh (env : Env) (url : str) (p : path) : M bool :=
  s <-- get ;;
  if mkdir_blocked (st_fs s) (removelast p) then ret false else
  match urlsplit url with
  | None => ret false          (* raised inside the try block *)
  | Some parsed =>
    let endpoint := sr_path parsed ++
      (match sr_query parsed with [] => [] | q => s2l "?" ++ q end) in
    let endpoint :=
      if startswith endpoint user_attachments_prefix
         && negb (bool_decide (is_Some (find_sub (s2l "download=1") endpoint)))
      then endpoint ++ (if contains_char "?"%char endpoint then s2l "&" else s2l "?") ++ s2l "download=1"
      else endpoint in
    match gh_api env endpoint with
    | None => ret false
    | Some out =>
      modify (fun s => set_fs (fs_write (st_fs s) p out) s) ;;;
      ret (negb (length out =? 0))
    end
  end.

(** The loop over the candidate URLs: the first one [urlopen] answers is
    written to [p]. Inside the [try], [ensure_dir(path.parent)] raises when
    an ancestor is a file, and [path.open("wb")] raises on a directory: the
    loop then goes on with the next candidate. *)
Fixpoint try_candidates (env : Env) (tok : option str) (p : path) (cands : list str) : M bool :=
  match cands with
  | [] => ret false
  | c :: cands' =>
    match net env c tok with
    | Some body =>
      s <-- get ;;
      if mkdir_blocked (st_fs s) (removelast p) || dir_exists (st_fs s) p
      then try_candidates env tok p cands'
      else modify (fun s => set_fs (fs_write (st_fs s) p body) s) ;;; ret true
    | None => try_candidates env tok p cands'
    end
  end.

Definition log_download (url : str) (s : St) : St :=
  mkSt (st_fs s) (st_tracker s) (st_stats s) (st_missing_calls s) (st_download_log s ++ [url]).

(** [download_image(url, path, token)] *)
Definition download_image (env : Env) (url : str) (p : path) (tok : option str) : M bool :=
  modify (log_download url) ;;;
  s <-- get ;;
  if path_exists (st_fs s) p then ret true else
  cands <-- candidate_urls url ;;
  ok <-- try_candidates env tok p cands ;;
  if ok then ret true else
  ua <-- is_user_attachment url ;;
  if ua then download_with_gh env url p else ret false.

(** [ImageTracker.get_local(url)] *)
Definition get_local (env : Env) (url : str) : M str :=
  s <-- get ;;
  match url_to_rel (st_tracker s) !! url with
  | Some rel => ret rel
  | None =>
    modify (fun s => set_stats (inc_attempted (st_stats s)) (set_tracker (bump_counter (st_tracker s)) s)) ;;;
    s <-- get ;;
    let t := st_tracker s in
    filename <-- of_option (filename_from_url url (counter t)) ;;
    let abs_path := assets_dir t ++ [filename] in
    ok <-- download_image env url abs_path (token t) ;;
    if negb ok then
      modify (fun s => set_stats (inc_failed (st_stats s)) s) ;;;
      let rel := relpath abs_path (md_dir t) in
      modify (fun s => set_tracker (remember url rel (st_tracker s)) s) ;;;
      (if has_missing_cb t
       then modify (fun s => mkSt (st_fs s) (st_tracker s) (st_stats s)
                                  (st_missing_calls s ++ [(url, rel)]) (st_download_log s))
       else ret tt) ;;;
      ret rel
    else
      s <-- get ;;
      let abs_path' :=
        if str_eqb (lower (path_suffix abs_path)) (s2l ".img") then
          match detect_ext_from_file (st_fs s) abs_path with
          | Some real_ext =>
            let new_path := with_suffix abs_path real_ext in
            (* [rename] onto a directory raises: the [.img] name is kept *)
            if dir_exists (st_fs s) new_path then None else Some new_path
          | None => None
          end
        else None in
      (match abs_path' with
       | Some new_path => modify (fun s => set_fs (fs_rename (st_fs s) abs_path new_path) s)
       | None => ret tt
       end) ;;;
      let final_path := default abs_path abs_path' in
      modify (fun s => set_stats (inc_downloaded (st_stats s)) s) ;;;
      let rel := relpath final_path (md_dir t) in
      modify (fun s => set_tracker (remember url rel (st_tracker s)) s) ;;;
      ret rel
  end.

(** A sequence of [get_local] calls on one tracker, in order. *)
Fixpoint get_locals (env : Env) (urls : list str) : M (list str) :=
  match urls with
  | [] => ret []
  | u :: us => r <-- get_local env u ;; rs <-- get_locals env us ;; ret (r :: rs)
  end.

(** ** replace_images *)

(** Python's [a or b] on optional strings ([None] and [""] are falsy). *)
Definition py_or (a b : option str) : option str :=
  match a with Some (_ :: _) => a | _ => b end.

(** [match.group("md_url") or match.group("html_url") or match.group("html_url_unq")] *)
Definition match_url (text : str) (c : caps) : option str :=
  py_or (group text c md_url) (py_or (group text c html_url) (group text c html_url_unq)).

(** The URL that [repl] hands to [tracker.get_local], if any. *)
Definition rewritable_url (text : str) (c : caps) : option str :=
  match match_url text c with
  | Some (u0 :: u') =>
    let url := u0 :: u' in
    if startswith url (s2l "data:") then None
    else if negb (startswith url (s2l "http://")) && negb (startswith url (s2l "https://")) then None
    else Some url
  | _ => None
  end.

(** [repl(match)] extended to the unmatched characters that [re.sub]
    copies through. *)
Definition repl (env : Env) (text : str) (sg : seg) : M str :=
  match sg with
  | SLit i => ret (slice text i (S i))
  | SMatch i j c =>
    let whole := slice text i j in
    match match_url text c with
    | Some (u0 :: u') =>
      let url := u0 :: u' in
      if startswith url (s2l "data:") then ret whole
      else if negb (startswith url (s2l "http://")) && negb (startswith url (s2l "https://")) then ret whole
      else local <-- get_local env url ;; ret (replace_first url local whole)
    | _ => ret whole
    end
  end.

Fixpoint sub_segs (env : Env) (text : str) (segs : list seg) : M str :=
  match segs with
  | [] => ret []
  | sg :: segs' => a <-- repl env text sg ;; b <-- sub_segs env text segs' ;; ret (a ++ b)
  end.

(** [replace_images(text, tracker)] *)
Definition replace_images (env : Env) (text : str) : M str :=
  match text with
  | [] => ret []
  | _ => sub_segs env text (scan text IMG_PATTERN)
  end.

(** ** parse_iso and sort_comments *)

(** A parsed timestamp: a finite value or [float("inf")]. *)
Inductive ts := Fin (z : Z) | Inf.

Definition ts_le (a b : ts) : Prop :=
  match a, b with
  | Fin x, Fin y => (x <= y)%Z
  | _, Inf => True
  | Inf, Fin _ => False
  end.

Definition ts_ltb (a b : ts) : bool :=
  match a, b with
  | Fin x, Fin y => (x <? y)%Z
  | Fin _, Inf => true
  | Inf, _ => false
  end.

Definition ts_eqb (a b : ts) : bool :=
  match a, b with
  | Fin x, Fin y => (x =? y)%Z
  | Inf, Inf => true
  | _, _ => false
  end.

Record Comment := mkComment {
  c_created_at : option str;   (* c.get("created_at") *)
  c_createdAt : option str;    (* c.get("createdAt") *)
  c_body : option str }.

(** [parse_iso(dt)][1]; [fromiso x] is [datetime.fromisoformat(x).timestamp()],
    [None] when [fromisoformat] raises. *)
Definition parse_iso (fromiso : str -> option Z) (dt : str) : ts :=
  match dt with
  | [] => Inf
  | _ =>
    let d := if endswith dt (s2l "Z") then fromiso (replace_all (s2l "Z") (s2l "+00:00") dt)
             else fromiso dt in
    match d with Some z => Fin z | None => Inf end
  end.

Definition created_key (c : Comment) : str :=
  default [] (py_or (c_created_at c) (py_or (c_createdAt c) (Some []))).

Definition comment_ts (fromiso : str -> option Z) (c : Comment) : ts :=
  parse_iso fromiso (created_key c).

(** The sort key [(ts, idx)], compared as Python compares tuples. *)
Definition key_le (a b : ts * nat * Comment) : Prop :=
  let '(ta, ia, _) := a in let '(tb, ib, _) := b in
  ts_ltb ta tb = true \/ (ts_eqb ta tb = true /\ ia <= ib).

Global Instance key_le_dec : RelDecision key_le.
Proof.
  intros [[ta ia] ca] [[tb ib] cb]; unfold key_le; apply _.
Defined.

Fixpoint index_from {A} (n : nat) (l : list A) : list (nat * A) :=
  match l with [] => [] | x :: l' => (n, x) :: index_from (S n) l' end.

(** [sort_comments(comments)].  The keys [(ts, idx)] are pairwise distinct,
    so every correct sorting algorithm gives the result of [list.sort];
    stdpp's merge sort is used. *)
Definition sort_comments (fromiso : str -> option Z) (comments : list Comment) : list Comment :=
  let indexed := map (fun '(idx, c) => (comment_ts fromiso c, idx, c)) (index_from 0 comments) in
  map (fun '(_, _, c) => c) (merge_sort key_le indexed).

(** ** find_related_issues *)

Definition related_step (text : str) (issue_numbers : list nat) (owner repo : str)
  (acc : list nat) (sg : seg) : list nat :=
  match sg with
  | SLit _ => acc
  | SMatch _ _ c =>
    let num := py_int (default [] (group text c fix_num)) in
    let skip :=
      match group text c fix_owner, group text c fix_repo with
      | Some ((_ :: _) as m_owner), Some ((_ :: _) as m_repo) =>
        negb (str_eqb (lower m_owner) (lower owner)) || negb (str_eqb (lower m_repo) (lower repo))
      | _, _ => false
      end in
    if skip then acc
    else if bool_decide (num ∈ issue_numbers) then acc ++ [num] else acc
  end.

(** [find_related_issues(pr_body, issue_numbers, owner, repo)]: the set
    [related] and then [sorted(related)]. *)
Definition find_related_issues (pr_body : str) (issue_numbers : list nat) (owner repo : str) : list nat :=
  match pr_body with
  | [] => []
  | _ =>
    let related := foldl (related_step pr_body issue_numbers owner repo) []
                         (finditer ISSUE_FIX_PATTERN pr_body) in
    merge_sort (≤) (remove_dups related)
  end.

(** ** process_repo and main *)

Inductive json :=
| JArr (items : list json)
| JObj (fields : list (str * json))
| JStr (s : str)
| JNum (z : Z)
| JBool (b : bool)
| JNull.

(** A raw input file that exists: JSON that [json.load] accepts, or a file
    it rejects (invalid JSON, unreadable). *)
Inductive rawfile := RInvalid | RJson (j : json).

(** What the operator sees on stderr/stdout. *)
Inductive event :=
| EError (repo : str)          (* an "ERROR: ..." line about [repo] *)
| EInvalidRepo (repo : str)    (* "ERROR: Invalid repo format: ..." *)
| EExport (repo : str) (ev : str).

(** How a call ends: returning, or with an exception that nothing catches. *)
Inductive outcome := Returned | Raised.

Inductive run_end := Exit (code : nat) | Uncaught.

Definition slugify_repo (repo : str) : str := replace_all (s2l "/") (s2l "_") repo.

Definition is_list (j : json) : bool := match j with JArr _ => true | _ => false end.

Section Repo.
(** [raw p]: the file at path [p] under the raw root, if it exists. *)
Variable raw : path -> option rawfile.
(** The rest of [process_repo] after its input checks (rendering of every
    issue and PR), given the repo and the two parsed arrays. *)
Variable export_items : str -> list json -> list json -> list event * outcome.

(** [load_json(path)] *)
Definition load_json (f : rawfile) : option json :=
  match f with RJson j => Some j | RInvalid => None end.

(** [process_repo(repo, raw_root, out_root, token)] *)
Definition process_repo (repo : str) : list event * outcome :=
  let slug := slugify_repo repo in
  let issues_path := [slug; s2l "issues.json"] in
  let prs_path := [slug; s2l "prs.json"] in
  match raw issues_path, raw prs_path with
  | Some fi, Some fp =>
    match load_json fi with
    | None => ([], Raised)                 (* JSONDecodeError propagates *)
    | Some issues_raw =>
      match load_json fp with
      | None => ([], Raised)
      | Some prs_raw =>
        match issues_raw, prs_raw with
        | JArr issues, JArr prs => export_items repo issues prs
        | JArr _, _ => ([EError repo], Returned)   (* prs.json is not a list *)
        | _, _ => ([EError repo], Returned)        (* issues.json is not a list *)
        end
      end
    end
  | _, _ => ([EError repo], Returned)      (* missing raw files *)
  end.

(** The loop of [main()] over [args.repo]. *)
Fixpoint main_loop (repos : list str) : list event * run_end :=
  match repos with
  | [] => ([], Exit 0)
  | repo :: repos' =>
    if negb (contains_char "/"%char repo) then ([EInvalidRepo repo], Exit 1)
    else
      match process_repo repo with
      | (ev, Raised) => (ev, Uncaught)
      | (ev, Returned) => let '(ev', e) := main_loop repos' in (ev ++ ev', e)
      end
  end.
End Repo.

(** ** cleanup_img_ext.py *)


(** [root.rglob(pattern)] restricted to files whose name ends with [sfx]. *)
Definition rglob_files (fs : fsys) (root : path) (sfx : str) : list path :=
  List.filter (fun p => endswith (path_name p) sfx) (List.filter (is_under root) (map fst fs)).

(** [Path.resolve()] of [dir / rel]: segments normalised, no symlinks. *)
Fixpoint normalize_acc (acc : list str) (segs : list str) : list str :=
  match segs with
  | [] => rev acc
  | x :: segs' =>
    if str_eqb x [] || str_eqb x (s2l ".") then normalize_acc acc segs'
    else if str_eqb x (s2l "..") then normalize_acc (tail acc) segs'
    else normalize_acc (x :: acc) segs'
  end.

(** [s.split("/")] *)
Fixpoint split_slash_acc (cur : str) (s : str) : list str :=
  match s with
  | [] => [rev cur]
  | c :: s' => if ceq c "/"%char then rev cur :: split_slash_acc [] s' else split_slash_acc (c :: cur) s'
  end.
Definition split_slash (s : str) : list str := split_slash_acc [] s.

(** [(dir / rel).resolve()]: an absolute [rel] replaces [dir]. *)
Definition resolve_in (dir : path) (rel : str) : path :=
  if startswith rel (s2l "/") then normalize_acc [] (split_slash rel)
  else normalize_acc (rev dir) (split_slash rel).

(** [str(Path(rel).with_name(name))]: pathlib drops empty and [.]
    segments when it parses [rel]. *)
Definition rel_with_name (rel name : str) : str :=
  let segs := List.filter (fun x => negb (str_eqb x [] || str_eqb x (s2l "."))) (split_slash rel) in
  join_slash (removelast segs ++ [name]).

Definition ext_candidates : list str := map s2l [".png"; ".jpg"; ".jpeg"; ".gif"; ".webp"]%string.

Definition in_candidates (e : str) : bool := existsb (str_eqb e) ext_candidates.

(** Phase 1: rename each sniffable [.img] file; returns the new files and
    the [rewrites] dict (old relative path, new relative path). *)
Fixpoint rename_imgs (root : path) (imgs : list path) (fs : fsys) (rewrites : list (str * str))
  : fsys * list (str * str) :=
  match imgs with
  | [] => (fs, rewrites)
  | img :: imgs' =>
    match detect_ext fs img with
    | None => rename_imgs root imgs' fs rewrites
    | Some ext =>
      let new_path := with_suffix img ext in
      let fs' := fs_rename fs img new_path in
      rename_imgs root imgs' fs' (rewrites ++ [(relpath img root, relpath new_path root)])
    end
  end.

Definition apply_rewrites (rewrites : list (str * str)) (text : str) : str :=
  foldl (fun u '(old_rel, new_rel) =>
           let u := replace_all old_rel new_rel u in
           let u := replace_all (s2l "../" ++ old_rel) (s2l "../" ++ new_rel) u in
           replace_all (s2l "./" ++ old_rel) (s2l "./" ++ new_rel) u) text rewrites.

(** [pattern.findall(updated)] (the pattern has one group). *)
Definition findall_refs (text : str) : list str :=
  map (fun sg => match sg with SMatch _ _ c => default [] (group text c 1) | SLit _ => [] end)
      (finditer IMG_REF_PATTERN text).

(** The numeric-prefix fallback over [dir_path.iterdir()]. *)
Definition prefix_fallback (fs : fsys) (cand_base : path) (rel_path updated : str) : str :=
  let prefix := (split_at_char "_"%char (path_name cand_base)).1 ++ s2l "_" in
  let dir := removelast cand_base in
  let children := List.filter (fun p => bool_decide (removelast p = dir) && bool_decide (p <> [])) (map fst fs) in
  match List.find (fun f => startswith (path_name f) prefix && in_candidates (lower (path_suffix f))) children with
  | Some f => replace_all rel_path (rel_with_name rel_path (path_name f)) updated
  | None => updated
  end.

(** One [rel_path] of the [matches] loop. *)
Definition fix_ref (fs : fsys) (md : path) (updated rel_path : str) : str :=
  let cand_base := resolve_in (removelast md) rel_path in
  match List.find (fun e => path_exists fs (with_suffix cand_base e)) ext_candidates with
  | Some e => replace_all rel_path (take (length rel_path - 4) rel_path ++ e) updated
  | None => prefix_fallback fs cand_base rel_path updated
  end.

(** Whether [fix_ref] finds a file for [rel_path]: a sibling of the
    resolved path with one of the candidate extensions, or a file of the
    numeric-prefix fallback. *)
Definition ref_resolves (fs : fsys) (md : path) (rel_path : str) : bool :=
  let cand_base := resolve_in (removelast md) rel_path in
  let prefix := (split_at_char "_"%char (path_name cand_base)).1 ++ s2l "_" in
  let dir := removelast cand_base in
  let children := List.filter (fun p => bool_decide (removelast p = dir) && bool_decide (p <> [])) (map fst fs) in
  existsb (fun e => path_exists fs (with_suffix cand_base e)) ext_candidates
  || existsb (fun f => startswith (path_name f) prefix && in_candidates (lower (path_suffix f))) children.

Section Cleanup.
(** Iteration order of [set(...)] over a list of strings (it depends on
    string hashing, not on the program). *)
Variable set_order : list str -> list str.

Fixpoint update_mds (rewrites : list (str * str)) (mds : list path) (fs : fsys) : fsys :=
  match mds with
  | [] => fs
  | md :: mds' =>
    let text := default [] (fs_read fs md) in
    let updated := apply_rewrites rewrites text in
    let matches := set_order (findall_refs updated) in
    let updated := foldl (fix_ref fs md) updated matches in
    let fs' := if str_eqb updated text then fs else fs_write fs md updated in
    update_mds rewrites mds' fs'
  end.

(** [main()] of cleanup_img_ext.py on the export root [root]; returns
    the files afterwards. *)
Definition cleanup_main (root : path) (fs : fsys) : fsys :=
  if negb (path_exists fs root) then fs else
  let '(fs1, rewrites) := rename_imgs root (rglob_files fs root (s2l ".img")) fs [] in
  update_mds rewrites (rglob_files fs1 root (s2l ".md")) fs1.
End Cleanup.

(** ** Sample inputs *)

(** The tracker [write_issue_md] builds for issue 1 of repo o/r, and a
    fresh [ImageStats]. *)
Definition sample_tracker : ImageTracker :=
  mkTracker (map s2l ["export"; "o_r"; "assets"; "issues"; "1"]%string)
            (map s2l ["export"; "o_r"; "issues"]%string) None true 0 empty.

Definition sample_st : St := mkSt [] sample_tracker (mkStats 0 0 0) [] [].

Definition sample_url : str := s2l "https://example.com/user-attachments/assets/abc".

(** No network: every [urlopen] raises and [gh] fails. *)
Definition env_offline : Env := mkEnv (fun _ _ => None) (fun _ => None).

(** A server answering 200 with an empty body. *)
Definition env_empty_body : Env := mkEnv (fun _ _ => Some []) (fun _ => None).

(** Raw root with no files, and an export step that renders and returns. *)
Definition raw_empty : path -> option rawfile := fun _ => None.
Definition export_ok : str -> list json -> list json -> list event * outcome :=
  fun repo _ _ => ([EExport repo (s2l "done")], Returned).

(** An export tree where 001_abc was already renamed to .png but
    ISSUE-1.md still points at the .img name. *)
Definition stale_md_text : str :=
  s2l "<img src=" ++ [dquote] ++ s2l "../assets/issues/1/001_abc.img" ++ [dquote] ++ s2l ">".
Definition stale_md_path : path := map s2l ["export"; "o_r"; "issues"; "ISSUE-1.md"]%string.
Definition stale_fs : fsys :=
  [(map s2l ["export"; "o_r"; "assets"; "issues"; "1"; "001_abc.png"]%string, PNG_SIG);
   (stale_md_path, stale_md_text)].

(** A [fromisoformat] that reads plain digit strings, and three comments:
    one per key, one with an unparseable [createdAt]. *)
Definition sample_fromiso (s : str) : option Z :=
  match s with
  | [] => None
  | _ => if forallb is_ascii_digit s then Some (Z.of_nat (py_int s)) else None
  end.
Definition sample_comments : list Comment :=
  [mkComment (Some (s2l "5")) None None; mkComment None (Some (s2l "soon")) None;
   mkComment None (Some (s2l "3")) None].

(** ** Observations used in the statements *)

(** [m] changes nothing but the files. *)
Definition fs_only {A} (m : M A) : Prop := forall s, exists fs', snd (m s) = set_fs fs' s.

(** Projections of a run's final state. *)
Definition stats_of {A} (r : (exn + A) * St) : ImageStats := st_stats (snd r).
Definition map_of {A} (r : (exn + A) * St) : gmap str str := url_to_rel (st_tracker (snd r)).
Definition log_of {A} (r : (exn + A) * St) : list str := st_download_log (snd r).

(** The number of download attempts recorded for [u]. *)
Definition count_url (u : str) (l : list str) : nat := length (List.filter (str_eqb u) l).

(** The four formats as their magic bytes define them. *)
Definition png_magic (data : str) : Prop := bstr [0x89; 0x50; 0x4E; 0x47; 0x0D; 0x0A; 0x1A; 0x0A] `prefix_of` data.
Definition jpeg_magic (data : str) : Prop := bstr [0xFF; 0xD8; 0xFF] `prefix_of` data.
Definition gif_magic (data : str) : Prop := s2l "GIF87a" `prefix_of` data \/ s2l "GIF89a" `prefix_of` data.
Definition webp_magic (data : str) : Prop := take 4 data = s2l "RIFF" /\ take 4 (drop 8 data) = s2l "WEBP".

(** A repo whose raw issues.json or prs.json is absent, or parses to a
    value that is not an array. *)
Definition inputs_missing_or_not_array (raw : path -> option rawfile) (repo : str) : Prop :=
  let slug := slugify_repo repo in
  raw [slug; s2l "issues.json"] = None \/ raw [slug; s2l "prs.json"] = None \/
  exists ji jp, raw [slug; s2l "issues.json"] = Some (RJson ji) /\
                raw [slug; s2l "prs.json"] = Some (RJson jp) /\
                (is_list ji = false \/ is_list jp = false).

(** The reports of processing [repos] one after the other. *)
Definition events_of (raw : path -> option rawfile) export_items (repos : list str) : list event :=
  concat (map (fun r => fst (process_repo raw export_items r)) repos).

(** A well-formed repo argument whose processing returns. *)
Definition returns_normally (raw : path -> option rawfile) export_items (r : str) : Prop :=
  contains_char "/"%char r = true /\ snd (process_repo raw export_items r) = Returned.

(** A segment that [replace_images] must copy unchanged: text outside any
    match, or a matched reference whose URL is absent, empty, starts with
    [data:] or is neither [http://] nor [https://]. *)
Definition kept (text : str) (sg : seg) : Prop :=
  match sg with
  | SLit _ => True
  | SMatch _ _ c =>
    match match_url text c with
    | Some ((_ :: _) as url) =>
      startswith url (s2l "data:") = true \/
      (startswith url (s2l "http://") = false /\ startswith url (s2l "https://") = false)
    | _ => True
    end
  end.

(** The URLs handed to [tracker.get_local], in order. *)
Fixpoint rewritable_urls (text : str) (segs : list seg) : list str :=
  match segs with
  | [] => []
  | SLit _ :: segs' => rewritable_urls text segs'
  | SMatch _ _ c :: segs' =>
    match rewritable_url text c with
    | Some u => u :: rewritable_urls text segs'
    | None => rewritable_urls text segs'
    end
  end.

Definition frame_text : str := s2l "see ![a](data:x) and ![b](y.png)".

(** Inputs for the further properties. *)
Definition no_http_text : str := s2l "![logo](img/logo.png) and <img src=data:abc>".
Definition gh_asset_url : str := s2l "https://github.com/user-attachments/assets/abc".
Definition sample_file : path := map s2l ["export"; "o_r"; "assets"; "issues"; "1"; "001_abc.png"]%string.
Definition st_with_file : St := mkSt [(sample_file, PNG_SIG)] sample_tracker (mkStats 0 0 0) [] [].
(** A server answering every request with a three-byte body. *)
Definition env_up : Env := mkEnv (fun _ _ => Some (s2l "img")) (fun _ => None).
Definition fix_body : str := s2l "Fixes #2, closes o/r#1 and resolves other/repo#3".

(** ** Missing-attachment rows and download_attachments.py *)

(** The dict [make_missing_cb(kind, number)] appends for [(url, rel_path)];
    its ["md_path"] entry, which download_attachments.py never reads, is
    left out. *)
Definition missing_row (repo kind : str) (number : nat) (url rel_path : str) : list (str * str) :=
  [(s2l "repo", repo); (s2l "repo_slug", slugify_repo repo); (s2l "kind", kind);
   (s2l "number", str_of_nat number); (s2l "url", url);
   (s2l "local_path", replace_all (s2l "../") [] rel_path)].

(** [row[k]]; [None] is the [KeyError]. *)
Definition row_get (k : str) (row : list (str * str)) : option str :=
  option_map snd (List.find (fun e => str_eqb (fst e) k) row).

(** The segments pathlib keeps when it parses [s]: empty and [.] segments
    are dropped, [..] is kept. *)
Definition path_parts (s : str) : list str :=
  List.filter (fun x => negb (str_eqb x [] || str_eqb x (s2l "."))) (split_slash s).

(** [base / s]: an absolute [s] replaces [base]; its root is kept as a
    ["/"] segment. *)
Definition path_div (base : path) (s : str) : path :=
  if startswith s (s2l "/") then s2l "/" :: path_parts s else base ++ path_parts s.

(** [target = out_root / row["repo_slug"] / row["local_path"]]. *)
Definition attachment_target (out_root : path) (row : list (str * str)) : option path :=
  match row_get (s2l "repo_slug") row, row_get (s2l "local_path") row with
  | Some slug, Some rel => Some (path_div (path_div out_root slug) rel)
  | _, _ => None
  end.

(** The directories of the tracker that [process_repo] and
    [write_issue_md]/[write_pr_md] build for item [num]:
    [assets_root / str(num)] with [assets_root = out_root / slug / "assets" / kind_dir],
    and [md_path.parent = out_root / slug / kind_dir]. *)
Definition item_assets_dir (out_root : path) (repo kind_dir : str) (num : nat) : path :=
  path_div (path_div out_root (slugify_repo repo) ++ [s2l "assets"; kind_dir]) (str_of_nat num).
Definition item_md_dir (out_root : path) (repo kind_dir : str) : path :=
  path_div out_root (slugify_repo repo) ++ [kind_dir].

(** A relative path without [..] segment: [base / s] then names the file
    [base ++ path_parts s] itself. *)
Definition plain_rel (s : str) : bool :=
  negb (startswith s (s2l "/")) && forallb (fun x => negb (str_eqb x (s2l ".."))) (path_parts s).

Definition row_plain (row : list (str * str)) : bool :=
  match row_get (s2l "repo_slug") row, row_get (s2l "local_path") row with
  | Some slug, Some rel => plain_rel slug && plain_rel rel
  | _, _ => true
  end.

(** A path segment that [Path.resolve()] keeps as it is. *)
Definition good_seg (x : str) : bool :=
  negb (str_eqb x []) && negb (str_eqb x (s2l ".")) && negb (str_eqb x (s2l ".."))
  && negb (contains_char "/"%char x).

(** The name suffixes of the files cleanup_img_ext.py may touch: the
    [.img] files, the [.md] files, and the suffixes [detect_ext] returns. *)
Definition cleanup_suffixes : list str := map s2l [".img"; ".md"; ".png"; ".jpg"; ".gif"; ".webp"]%string.

(** ** find_related_prs and format_related_links *)

(** [PR_CONTEXT_PATTERN]:
    [(?i)(?:\bpr\b|\bpull\s+request\b|\bpull\b|\bmerge\b)\s*#(?P<num>\d+)];
    group 1 = num. *)
Definition PR_CONTEXT_PATTERN : rx :=
  rseq [ RAlt (rseq [RBound; rlit_ci (s2l "pr"); RBound])
              (RAlt (rseq [RBound; rlit_ci (s2l "pull"); rplus (RClass is_space_py);
                           rlit_ci (s2l "request"); RBound])
                    (RAlt (rseq [RBound; rlit_ci (s2l "pull"); RBound])
                          (rseq [RBound; rlit_ci (s2l "merge"); RBound])));
         RStar true (RClass is_space_py);
         rchar "#"%char;
         RGroup 1 (rplus (RClass is_digit_py)) ].

(** [re.compile(PR_URL_PATTERN_TEMPLATE.format(owner=re.escape(owner),
    repo=re.escape(repo)), re.IGNORECASE)]: the escaped owner and repo
    match literally; group 1 = num. *)
Definition pr_url_pattern (owner repo : str) : rx :=
  rseq [ rlit_ci (s2l "http"); ropt (rchar_ci "s"%char); rlit_ci (s2l "://github.com/");
         rlit_ci owner; rchar_ci "/"%char; rlit_ci repo; rlit_ci (s2l "/pull/");
         RGroup 1 (rplus (RClass is_digit_py)) ].

Definition pr_num := 1.

(** The body of both inner loops: [num = int(m.group("num"))], added when
    it is in [pr_numbers]. *)
Definition pr_step (text : str) (pr_numbers : list nat) (acc : list nat) (sg : seg) : list nat :=
  match sg with
  | SLit _ => acc
  | SMatch _ _ c =>
    let num := py_int (default [] (group text c pr_num)) in
    if bool_decide (num ∈ pr_numbers) then acc ++ [num] else acc
  end.

(** One iteration of the loop over [texts]. *)
Definition pr_text_step (pr_numbers : list nat) (owner repo : str) (acc : list nat) (text : str) : list nat :=
  match text with
  | [] => acc
  | _ =>
    let acc := foldl (pr_step text pr_numbers) acc (finditer (pr_url_pattern owner repo) text) in
    foldl (pr_step text pr_numbers) acc (finditer PR_CONTEXT_PATTERN text)
  end.

(** [find_related_prs(texts, pr_numbers, owner, repo)]: the set [related]
    and then [sorted(related)]. *)
Definition find_related_prs (texts : list str) (pr_numbers : list nat) (owner repo : str) : list nat :=
  let related := foldl (pr_text_step pr_numbers owner repo) [] texts in
  merge_sort (≤) (remove_dups related).

(** [sep.join(l)] *)
Fixpoint py_join (sep : str) (l : list str) : str :=
  match l with
  | [] => []
  | [x] => x
  | x :: l' => x ++ sep ++ py_join sep l'
  end.

Definition newline : ascii := ascii_of_nat 10.

(** [f"- [{label} #{num}]({base_url}/{num})"] *)
Definition related_line (base_url label : str) (num : nat) : str :=
  s2l "- [" ++ label ++ s2l " #" ++ str_of_nat num ++ s2l "](" ++ base_url ++ s2l "/"
  ++ str_of_nat num ++ s2l ")".

(** [format_related_links(numbers, base_url, label)] *)
Definition format_related_links (numbers : list nat) (base_url label : str) : str :=
  match numbers with
  | [] => s2l "_None_"
  | _ => py_join [newline] (map (related_line base_url label) numbers)
  end.

(** ** get_auth_token *)

(** [s.strip()] *)
Definition py_strip (s : str) : str := rev (lstrip is_space_py (rev (lstrip is_space_py s))).

(** [get_auth_token()]: [getenv] is [os.environ.get]; [gh_out] is the
    stdout of [gh auth token], [None] when [subprocess.run] raises (no
    [gh], or a non-zero exit with [check=True]). *)
Definition get_auth_token (getenv : str -> option str) (gh_out : option str) : option str :=
  match py_or (getenv (s2l "GH_TOKEN")) (getenv (s2l "GITHUB_TOKEN")) with
  | Some ((_ :: _) as token) => Some (py_strip token)
  | _ =>
    match gh_out with
    | None => None
    | Some out => match py_strip out with [] => None | token => Some token end
    end
  end.

(** ** The comment author of write_issue_md and write_pr_md *)

(** Python truthiness of a JSON value. *)
Definition py_truthy (j : json) : bool :=
  match j with
  | JArr l => negb (bool_decide (l = []))
  | JObj l => negb (bool_decide (l = []))
  | JStr s => negb (bool_decide (s = []))
  | JNum z => negb (Z.eqb z 0)
  | JBool b => b
  | JNull => false
  end.

(** [j.get(k, default)]; [None] is the [AttributeError] of a value that is
    not a dict. [json.load] keeps the last of repeated keys. *)
Definition py_dict_get (j : json) (k : str) (dflt : json) : option json :=
  match j with
  | JObj fs => Some (match List.find (fun e => str_eqb (fst e) k) (rev fs) with
                     | Some (_, v) => v
                     | None => dflt
                     end)
  | _ => None
  end.

(** [(c.get("user", {}) or {}).get("login") or c.get("author", {}).get("login")
    or c.get("author") or "unknown"]; [None] is a raised [AttributeError]. *)
Definition comment_author (c : json) : option json :=
  match py_dict_get c (s2l "user") (JObj []) with
  | None => None
  | Some u =>
    let u := if py_truthy u then u else JObj [] in
    match py_dict_get u (s2l "login") JNull with
    | None => None
    | Some l1 =>
      if py_truthy l1 then Some l1 else
      match py_dict_get c (s2l "author") (JObj []) with
      | None => None
      | Some a =>
        match py_dict_get a (s2l "login") JNull with
        | None => None
        | Some l2 =>
          if py_truthy l2 then Some l2 else
          match py_dict_get c (s2l "author") JNull with
          | None => None
          | Some a2 => if py_truthy a2 then Some a2 else Some (JStr (s2l "unknown"))
          end
        end
      end
    end
  end.

(** ** The download loop of download_attachments.py *)


Section Download.
(** [req.get(url)]: [None] when it raises, else [(resp.ok, resp.body())]. *)
Variable req_get : str -> option (bool * str).

(** One iteration over [row]: the files and the counters [ok] and [fail];
    [None] is an exception that leaves [main] (a [KeyError], or [mkdir]
    failing). *)
Definition download_row (out_root : path) (st : fsys * nat * nat) (row : list (str * str))
  : option (fsys * nat * nat) :=
  let '(fs, ok, fail) := st in
  match row_get (s2l "url") row with
  | None => None
  | Some url =>
    match attachment_target out_root row with
    | None => None
    | Some target =>
      if mkdir_blocked fs (removelast target) then None else
      match req_get url with
      | None => Some (fs, ok, S fail)
      | Some (false, _) => Some (fs, ok, S fail)
      | Some (true, []) => Some (fs, ok, S fail)
      | Some (true, body) =>
        (* [write_bytes] on a directory raises, and the [except] counts it *)
        if dir_exists fs target then Some (fs, ok, S fail)
        else Some (fs_write fs target body, S ok, fail)
      end
    end
  end.

(** [for row in rows: ...] from [ok = 0], [fail = 0]. *)
Fixpoint download_loop (out_root : path) (st : fsys * nat * nat) (rows : list (list (str * str)))
  : option (fsys * nat * nat) :=
  match rows with
  | [] => Some st
  | row :: rows' =>
    match download_row out_root st row with
    | None => None
    | Some st' => download_loop out_root st' rows'
    end
  end.
End Download.

(** Sample rows for the download loop: the first URL downloads, the
    second gets a response that is not ok. *)
Definition dl_rows : list (list (str * str)) :=
  [missing_row (s2l "o/r") (s2l "issue") 1 sample_url (s2l "../assets/issues/1/001_abc.img");
   missing_row (s2l "o/r") (s2l "issue") 2 gh_asset_url (s2l "../assets/issues/2/001_x.img")].
Definition dl_get (url : str) : option (bool * str) :=
  if str_eqb url sample_url then Some (true, s2l "img") else Some (false, []).

Definition dl_notes : fsys := [([s2l "export"; s2l "notes.txt"], s2l "hi")].

(** * Properties *)

(** ** Effects of download_image: only the files change (plus the
    observation log). *)

Lemma set_fs_set_fs fs fs' s : set_fs fs (set_fs fs' s) = set_fs fs s.
Proof. by destruct s. Qed.

Lemma set_fs_self s : set_fs (st_fs s) s = s.
Proof. by destruct s. Qed.

Lemma fs_only_ret {A} (a : A) : fs_only (ret a).
Proof. intros s. exists (st_fs s). by rewrite set_fs_self. Qed.

Lemma fs_only_raise {A} e : fs_only (@raise A e).
Proof. intros s. exists (st_fs s). by rewrite set_fs_self. Qed.

Lemma fs_only_get : fs_only get.
Proof. intros s. exists (st_fs s). by rewrite set_fs_self. Qed.

Lemma fs_only_of_option {A} (o : option A) : fs_only (of_option o).
Proof. destruct o; [apply fs_only_ret | apply fs_only_raise]. Qed.

Lemma fs_only_write p data : fs_only (modify (fun s => set_fs (fs_write (st_fs s) p data) s)).
Proof. intros s. by eexists. Qed.

Lemma fs_only_bind {A B} (m : M A) (k : A -> M B) :
  fs_only m -> (forall a, fs_only (k a)) -> fs_only (bind m k).
Proof.
  intros Hm Hk s. unfold bind. destruct (Hm s) as [fs1 H1].
  destruct (m s) as [[e|a] s1] eqn:E; simpl in *; subst.
  - by eexists.
  - destruct (Hk a (set_fs fs1 s)) as [fs2 H2]. rewrite H2, set_fs_set_fs. by eexists.
Qed.

Create HintDb fsonly.
#[local] Hint Resolve fs_only_ret fs_only_raise fs_only_get fs_only_of_option
  fs_only_write fs_only_bind : fsonly.

Lemma fs_only_candidate_urls url : fs_only (candidate_urls url).
Proof.
  unfold candidate_urls. apply fs_only_bind; [auto with fsonly|intros p].
  repeat case_match; auto with fsonly.
Qed.

Lemma fs_only_is_user_attachment url : fs_only (is_user_attachment url).
Proof. unfold is_user_attachment. auto with fsonly. Qed.

Lemma fs_only_download_with_gh env url p : fs_only (download_with_gh env url p).
Proof.
  unfold download_with_gh. apply fs_only_bind; [auto with fsonly|intros s0].
  repeat case_match; auto with fsonly.
Qed.

Lemma fs_only_try_candidates env tok p cands : fs_only (try_candidates env tok p cands).
Proof.
  induction cands as [|c cands IH]; simpl; [auto with fsonly|].
  case_match; [|exact IH].
  apply fs_only_bind; [auto with fsonly|intros s0]. case_match; auto with fsonly.
Qed.

#[local] Hint Resolve fs_only_candidate_urls fs_only_is_user_attachment
  fs_only_download_with_gh fs_only_try_candidates : fsonly.

Lemma download_image_frame env url p tok s :
  exists fs', snd (download_image env url p tok s) = set_fs fs' (log_download url s).
Proof.
  unfold download_image, bind, modify at 1. simpl.
  assert (H : fs_only (s0 <-- get ;;
     if path_exists (st_fs s0) p then ret true else
     cands <-- candidate_urls url ;;
     ok <-- try_candidates env tok p cands ;;
     if ok then ret true else
     ua <-- is_user_attachment url ;;
     if ua then download_with_gh env url p else ret false)).
  { apply fs_only_bind; [auto with fsonly|intros s0].
    case_match; [auto with fsonly|].
    apply fs_only_bind; [auto with fsonly|intros cands].
    apply fs_only_bind; [auto with fsonly|intros ok].
    case_match; [auto with fsonly|].
    apply fs_only_bind; [auto with fsonly|intros ua]. case_match; auto with fsonly. }
  exact (H (log_download url s)).
Qed.

(** ** get_local: cache hits and misses *)

Lemma get_local_hit env u s rel :
  url_to_rel (st_tracker s) !! u = Some rel -> get_local env u s = (inr rel, s).
Proof. intros H. unfold get_local, bind, get, ret. simpl. by rewrite H. Qed.

(** The effect of a call that misses the cache. *)
Lemma get_local_miss env u s :
  url_to_rel (st_tracker s) !! u = None ->
  let r := get_local env u s in
  attempted (stats_of r) = S (attempted (st_stats s)) /\
  (log_of r = st_download_log s \/ log_of r = st_download_log s ++ [u]) /\
  match fst r with
  | inl _ =>
    map_of r = url_to_rel (st_tracker s) /\
    downloaded (stats_of r) = downloaded (st_stats s) /\ failed (stats_of r) = failed (st_stats s)
  | inr rel =>
    map_of r = <[u := rel]> (url_to_rel (st_tracker s)) /\
    log_of r = st_download_log s ++ [u] /\
    ((downloaded (stats_of r) = S (downloaded (st_stats s)) /\
      failed (stats_of r) = failed (st_stats s) /\
      st_missing_calls (snd r) = st_missing_calls s) \/
     (downloaded (stats_of r) = downloaded (st_stats s) /\
      failed (stats_of r) = S (failed (st_stats s)) /\
      st_missing_calls (snd r) =
        st_missing_calls s ++ (if has_missing_cb (st_tracker s) then [(u, rel)] else [])))
  end.
Proof.
  intros Hnone. unfold get_local, bind, get, modify, ret, of_option, raise.
  simpl. rewrite Hnone. simpl.
  destruct (filename_from_url u (S (counter (st_tracker s)))) as [fn|] eqn:Hfn; simpl;
    [|unfold stats_of, map_of, log_of; simpl; auto].
  set (s1 := set_stats _ _).
  set (abs := assets_dir (st_tracker s) ++ [fn]).
  destruct (download_image_frame env u abs (token (st_tracker s)) s1) as [fs' Hfr].
  destruct (download_image env u abs (token (st_tracker s)) s1) as [[e|ok] s2] eqn:Hd;
    simpl in Hfr; subst s2; simpl.
  - unfold stats_of, map_of, log_of; simpl. auto.
  - destruct ok; simpl.
    + destruct (str_eqb _ _); simpl;
        [destruct (detect_ext_from_file _ _); simpl; [destruct (dir_exists _ _); simpl|]|];
        unfold stats_of, map_of, log_of; simpl; repeat split; auto.
    + destruct (has_missing_cb (st_tracker s)); simpl;
        unfold stats_of, map_of, log_of; simpl; repeat split; auto 10.
    right. rewrite app_nil_r. auto.
Qed.

Lemma ceq_true a b : ceq a b = true <-> a = b.
Proof. unfold ceq. destruct (ascii_dec a b); split; congruence. Qed.

Lemma str_eqb_true a b : str_eqb a b = true <-> a = b.
Proof.
  revert b; induction a as [|x a IH]; intros [|y b]; simpl; try (split; congruence).
  rewrite andb_true_iff, ceq_true, IH. split; [intros [-> ->]; done | intros [=]; auto].
Qed.

Lemma str_eqb_refl a : str_eqb a a = true.
Proof. by apply str_eqb_true. Qed.

Lemma get_local_log env v s :
  log_of (get_local env v s) = st_download_log s \/
  log_of (get_local env v s) = st_download_log s ++ [v].
Proof.
  destruct (url_to_rel (st_tracker s) !! v) as [rel|] eqn:E.
  - rewrite (get_local_hit env v s rel E). by left.
  - pose proof (get_local_miss env v s E) as (_ & H & _). exact H.
Qed.

Lemma get_local_map_other env v u s :
  v <> u -> map_of (get_local env v s) !! u = url_to_rel (st_tracker s) !! u.
Proof.
  intros Hne. destruct (url_to_rel (st_tracker s) !! v) as [rel|] eqn:E.
  - by rewrite (get_local_hit env v s rel E).
  - pose proof (get_local_miss env v s E) as (_ & _ & H).
    destruct (fst (get_local env v s)) as [e|rel].
    + by destruct H as [-> _].
    + destruct H as [-> _]. by rewrite lookup_insert_ne.
Qed.

Lemma get_local_keeps env v u p s :
  url_to_rel (st_tracker s) !! u = Some p ->
  map_of (get_local env v s) !! u = Some p.
Proof.
  intros Hu. destruct (decide (v = u)) as [->|Hne].
  - by rewrite (get_local_hit env u s p Hu).
  - by rewrite get_local_map_other.
Qed.

Lemma count_url_app u l l' : count_url u (l ++ l') = count_url u l + count_url u l'.
Proof. unfold count_url. by rewrite List.filter_app, length_app. Qed.

Lemma get_locals_cons env v vs s :
  get_locals env (v :: vs) s =
  match get_local env v s with
  | (inl e, s1) => (inl e, s1)
  | (inr r, s1) =>
    match get_locals env vs s1 with
    | (inl e, s2) => (inl e, s2)
    | (inr rs, s2) => (inr (r :: rs), s2)
    end
  end.
Proof.
  simpl. unfold bind, ret.
  destruct (get_local env v s) as [[e|r] s1]; [done|].
  by destruct (get_locals env vs s1) as [[e|rs] s2].
Qed.

Lemma str_eqb_ne a b : a <> b -> str_eqb a b = false.
Proof. intros H. destruct (str_eqb a b) eqn:E; [apply str_eqb_true in E; congruence|done]. Qed.

Lemma get_locals_cached env u p vs s :
  url_to_rel (st_tracker s) !! u = Some p ->
  snd (get_locals env vs s) =
    snd (get_locals env (List.filter (fun v => negb (str_eqb v u)) vs) s) /\
  count_url u (log_of (get_locals env vs s)) = count_url u (st_download_log s) /\
  (forall rs s', get_locals env vs s = (inr rs, s') ->
     forall i, vs !! i = Some u -> rs !! i = Some p).
Proof.
  revert s; induction vs as [|v vs IH]; intros s Hu.
  { simpl. split; [done|]. split; [done|]. intros rs s' [= <- _] i Hi. done. }
  rewrite get_locals_cons. cbn [List.filter].
  destruct (decide (v = u)) as [->|Hne].
  - rewrite str_eqb_refl. cbn [negb].
    rewrite (get_local_hit env u s p Hu).
    destruct (IH s Hu) as (IH1 & IH2 & IH3).
    unfold log_of in *.
    destruct (get_locals env vs s) as [[e|rs] s'] eqn:E; simpl in *.
    + split; [done|]. split; [done|]. intros ? ? [=].
    + split; [done|]. split; [done|].
      intros rs' s'' [= <- <-] [|i] Hi; simpl in *; [done|]. eauto.
  - rewrite (str_eqb_ne v u Hne). cbn [negb]. rewrite get_locals_cons.
    pose proof (get_local_keeps env v u p s Hu) as Hk.
    pose proof (get_local_log env v s) as Hl.
    assert (Hc : forall l, l = st_download_log s \/ l = st_download_log s ++ [v] ->
                  count_url u l = count_url u (st_download_log s)).
    { intros l [-> | ->]; [done|]. rewrite count_url_app. unfold count_url at 2. simpl.
      rewrite (str_eqb_ne u v) by congruence. simpl. lia. }
    unfold map_of, log_of in *.
    destruct (get_local env v s) as [[e|r] s1] eqn:E; simpl in *.
    + split; [done|]. split; [by apply Hc|intros ? ? [=]].
    + destruct (IH s1 Hk) as (IH1 & IH2 & IH3). unfold log_of in *.
      destruct (get_locals env vs s1) as [[e|rs] s2] eqn:E2;
      destruct (get_locals env (List.filter (fun v0 => negb (str_eqb v0 u)) vs) s1) as [[e'|rs'] s2'] eqn:E3;
        simpl in *; subst; (split; [done|]); (split; [rewrite IH2; by apply Hc|]).
      all: try (intros ? ? [=]; fail).
      all: intros rs0 s0 [= <- <-] [|i] Hi; simpl in *; [congruence|eauto].
Qed.

(** C1: once [get_local u] has returned a path [p] on a tracker, the entry
    [u |-> p] stays in the cache, every later call with [u] returns [p] and
    leaves the whole state (files, counters, stats, missing records)
    unchanged, so a run of later calls ends in the same state as the run
    with the calls on [u] removed; across all these calls [download_image]
    is called for [u] exactly once if [u] was not cached before the first
    call, and never again afterwards. *)
Theorem get_local_idempotent env u s0 p s1 vs :
  get_local env u s0 = (inr p, s1) ->
  url_to_rel (st_tracker s1) !! u = Some p /\
  get_local env u s1 = (inr p, s1) /\
  snd (get_locals env vs s1) =
    snd (get_locals env (List.filter (fun v => negb (str_eqb v u)) vs) s1) /\
  (forall rs s2, get_locals env vs s1 = (inr rs, s2) ->
     forall i, vs !! i = Some u -> rs !! i = Some p) /\
  count_url u (log_of (get_locals env vs s1)) =
    count_url u (st_download_log s0) +
    (match url_to_rel (st_tracker s0) !! u with Some _ => 0 | None => 1 end).
Proof.
  intros H.
  assert (Hs1 : url_to_rel (st_tracker s1) !! u = Some p /\
                count_url u (st_download_log s1) =
                count_url u (st_download_log s0) +
                (match url_to_rel (st_tracker s0) !! u with Some _ => 0 | None => 1 end)).
  { destruct (url_to_rel (st_tracker s0) !! u) as [q|] eqn:E.
    - rewrite (get_local_hit env u s0 q E) in H. injection H as <- <-. rewrite E. split; [done|lia].
    - pose proof (get_local_miss env u s0 E) as (_ & _ & Hm).
      unfold map_of, log_of in Hm. rewrite H in Hm. simpl in Hm.
      destruct Hm as (-> & -> & _). rewrite lookup_insert_eq. split; [done|].
      rewrite count_url_app. unfold count_url. simpl. by rewrite str_eqb_refl. }
  destruct Hs1 as [Hc Hcount].
  destruct (get_locals_cached env u p vs s1 Hc) as (H1 & H2 & H3).
  split; [done|]. split; [by apply get_local_hit|]. split; [done|]. split; [done|].
  by rewrite H2.
Qed.

Lemma get_local_idempotent_witness :
  let r := get_local env_offline sample_url sample_st in
  r = (inr (s2l "../assets/issues/1/001_abc.img"), snd r) /\
  (url_to_rel (st_tracker (snd r)) !! sample_url = Some (s2l "../assets/issues/1/001_abc.img") /\
   get_local env_offline sample_url (snd r) = (inr (s2l "../assets/issues/1/001_abc.img"), snd r) /\
   snd (get_locals env_offline [sample_url; sample_url] (snd r)) =
     snd (get_locals env_offline (List.filter (fun v => negb (str_eqb v sample_url))
                                   [sample_url; sample_url]) (snd r)) /\
   (forall rs s2, get_locals env_offline [sample_url; sample_url] (snd r) = (inr rs, s2) ->
      forall i, [sample_url; sample_url] !! i = Some sample_url ->
      rs !! i = Some (s2l "../assets/issues/1/001_abc.img")) /\
   count_url sample_url (log_of (get_locals env_offline [sample_url; sample_url] (snd r))) =
     count_url sample_url (st_download_log sample_st) +
     (match url_to_rel (st_tracker sample_st) !! sample_url with Some _ => 0 | None => 1 end)).
Proof.
  intros r. split; [vm_compute; reflexivity|].
  apply (get_local_idempotent env_offline sample_url sample_st). vm_compute. reflexivity.
Defined.

(** C10: a call of [get_local] that returns keeps
    [attempted = downloaded + failed] and never decreases a counter; a
    cache hit leaves the stats unchanged, and a miss adds one to
    [attempted] and one to exactly one of [downloaded] and [failed]. *)
Theorem get_local_stats env u s rel s' :
  get_local env u s = (inr rel, s') ->
  attempted (st_stats s) = downloaded (st_stats s) + failed (st_stats s) ->
  attempted (st_stats s') = downloaded (st_stats s') + failed (st_stats s') /\
  attempted (st_stats s) <= attempted (st_stats s') /\
  downloaded (st_stats s) <= downloaded (st_stats s') /\
  failed (st_stats s) <= failed (st_stats s') /\
  (is_Some (url_to_rel (st_tracker s) !! u) -> st_stats s' = st_stats s) /\
  (url_to_rel (st_tracker s) !! u = None ->
   attempted (st_stats s') = S (attempted (st_stats s)) /\
   ((downloaded (st_stats s') = S (downloaded (st_stats s)) /\ failed (st_stats s') = failed (st_stats s)) \/
    (downloaded (st_stats s') = downloaded (st_stats s) /\ failed (st_stats s') = S (failed (st_stats s))))).
Proof.
  intros H Hinv.
  destruct (url_to_rel (st_tracker s) !! u) as [q|] eqn:E.
  - rewrite (get_local_hit env u s q E) in H. injection H as <- <-.
    repeat split; try lia; intros; try done; congruence.
  - pose proof (get_local_miss env u s E) as (Ha & _ & Hm).
    unfold stats_of, map_of, log_of in *. rewrite H in Ha, Hm. simpl in *.
    destruct Hm as (_ & _ & [(Hd & Hf & _) | (Hd & Hf & _)]);
      rewrite Ha, Hd, Hf; repeat split; try lia; try (intros [? ?]; done); auto.
Qed.

Lemma get_local_stats_witness :
  let r := get_local env_offline sample_url sample_st in
  r = (inr (s2l "../assets/issues/1/001_abc.img"), snd r) /\
  attempted (st_stats sample_st) = downloaded (st_stats sample_st) + failed (st_stats sample_st) /\
  (attempted (st_stats (snd r)) = downloaded (st_stats (snd r)) + failed (st_stats (snd r)) /\
   attempted (st_stats sample_st) <= attempted (st_stats (snd r)) /\
   downloaded (st_stats sample_st) <= downloaded (st_stats (snd r)) /\
   failed (st_stats sample_st) <= failed (st_stats (snd r)) /\
   (is_Some (url_to_rel (st_tracker sample_st) !! sample_url) -> st_stats (snd r) = st_stats sample_st) /\
   (url_to_rel (st_tracker sample_st) !! sample_url = None ->
    attempted (st_stats (snd r)) = S (attempted (st_stats sample_st)) /\
    ((downloaded (st_stats (snd r)) = S (downloaded (st_stats sample_st)) /\
      failed (st_stats (snd r)) = failed (st_stats sample_st)) \/
     (downloaded (st_stats (snd r)) = downloaded (st_stats sample_st) /\
      failed (st_stats (snd r)) = S (failed (st_stats sample_st)))))).
Proof.
  intros r. split; [vm_compute; reflexivity|]. split; [reflexivity|].
  apply (get_local_stats env_offline sample_url sample_st (s2l "../assets/issues/1/001_abc.img")).
  - vm_compute. reflexivity.
  - reflexivity.
Defined.

(** C3 (evaluation at the failing input): [urlopen] answers 200 with an
    empty body.  [download_image] writes the empty file and returns
    [True], so [get_local] counts a download, keeps the placeholder
    extension, and makes no [missing_cb] call; only the [gh] fallback
    treats an empty result as a failure. *)
Theorem get_local_empty_body :
  let r := get_local env_empty_body sample_url sample_st in
  fst r = inr (s2l "../assets/issues/1/001_abc.img") /\
  downloaded (st_stats (snd r)) = 1 /\ failed (st_stats (snd r)) = 0 /\
  st_missing_calls (snd r) = [] /\
  st_fs (snd r) = [(map s2l ["export"; "o_r"; "assets"; "issues"; "1"; "001_abc.img"]%string, [])].
Proof. vm_compute. repeat split. Qed.

(** ** Magic-byte sniffing *)

Lemma startswith_prefix s p : startswith s p = true <-> p `prefix_of` s.
Proof.
  revert s; induction p as [|y p IH]; intros [|x s]; simpl.
  - split; [intros _; apply prefix_nil | done].
  - split; [intros _; apply prefix_nil | done].
  - split; [done | intros H; by apply prefix_nil_not in H].
  - rewrite andb_true_iff, ceq_true, IH. split.
    + intros [-> ?]. by apply prefix_cons.
    + intros H. split; [symmetry; eapply prefix_cons_inv_1; eauto | eapply prefix_cons_inv_2; eauto].
Qed.

Lemma prefix_take_iff n (p s : str) : length p <= n -> p `prefix_of` take n s <-> p `prefix_of` s.
Proof.
  intros Hn. split.
  - intros H. etrans; [exact H | apply prefix_take].
  - intros [k ->]. rewrite take_app_ge by done. by apply prefix_app_r.
Qed.

Lemma slice_take_0_4 data : slice (take 12 data) 0 4 = take 4 data.
Proof. unfold slice. rewrite drop_0, take_take. reflexivity. Qed.

Lemma slice_take_8_12 data : slice (take 12 data) 8 12 = take 4 (drop 8 data).
Proof. unfold slice. rewrite !take_drop_commute, take_take. reflexivity. Qed.

Lemma startswith_take12 data p : length p <= 12 -> startswith (take 12 data) p = true <-> p `prefix_of` data.
Proof. intros. by rewrite startswith_prefix, prefix_take_iff. Qed.

Lemma webp_test_iff data :
  (12 <=? length (take 12 data)) && str_eqb (slice (take 12 data) 0 4) (s2l "RIFF")
    && str_eqb (slice (take 12 data) 8 12) (s2l "WEBP") = true <-> webp_magic data.
Proof.
  unfold webp_magic.
  rewrite !andb_true_iff, Nat.leb_le, !str_eqb_true, slice_take_0_4, slice_take_8_12, length_take.
  split; [tauto|]. intros [H1 H2]. split; [split|]; auto.
  apply (f_equal length) in H2. rewrite length_take, length_drop in H2. change (length (s2l "WEBP")) with 4 in H2. lia.
Qed.

Lemma first_byte (c : ascii) (p d : str) : (c :: p) `prefix_of` d -> d !! 0 = Some c.
Proof. intros H. by apply (prefix_lookup_Some (c :: p) d 0 c). Qed.

Lemma sniff_export_spec data :
  (sniff_export (take 12 data) = Some (s2l ".png") <-> png_magic data) /\
  (sniff_export (take 12 data) = Some (s2l ".jpg") <-> jpeg_magic data) /\
  (sniff_export (take 12 data) = Some (s2l ".gif") <-> gif_magic data) /\
  (sniff_export (take 12 data) = Some (s2l ".webp") <-> webp_magic data) /\
  (sniff_export (take 12 data) = None <->
     ~ png_magic data /\ ~ jpeg_magic data /\ ~ gif_magic data /\ ~ webp_magic data).
Proof.
  assert (P1 : startswith (take 12 data) PNG_SIG = true <-> png_magic data)
    by (apply startswith_take12; cbv; lia).
  assert (P2 : startswith (take 12 data) JPEG_SIG = true <-> jpeg_magic data)
    by (apply startswith_take12; cbv; lia).
  assert (P3 : startswith (take 12 data) (s2l "GIF87a") || startswith (take 12 data) (s2l "GIF89a") = true
               <-> gif_magic data)
    by (rewrite orb_true_iff, !startswith_take12 by (cbv; lia); reflexivity).
  pose proof (webp_test_iff data) as P4.
  assert (X1 : png_magic data -> data !! 0 = Some (ascii_of_nat 0x89)) by apply first_byte.
  assert (X2 : jpeg_magic data -> data !! 0 = Some (ascii_of_nat 0xFF)) by apply first_byte.
  assert (X3 : gif_magic data -> data !! 0 = Some "G"%char) by (intros [H|H]; exact (first_byte _ _ _ H)).
  assert (X4 : webp_magic data -> data !! 0 = Some "R"%char).
  { intros [H _]. apply (first_byte "R"%char (s2l "IFF")). change ("R"%char :: s2l "IFF") with (s2l "RIFF"). rewrite <- H. apply prefix_take. }
  unfold sniff_export.
  destruct (startswith (take 12 data) PNG_SIG) eqn:B1;
    [|destruct (startswith (take 12 data) JPEG_SIG) eqn:B2;
    [|destruct (_ || _) eqn:B3;
    [|destruct (_ && _ && _) eqn:B4]]].
  all: first [assert (png_magic data) by (apply P1; reflexivity)
             | assert (~ png_magic data) by (rewrite <- P1; discriminate)].
  all: try first [assert (jpeg_magic data) by (apply P2; reflexivity)
                 | assert (~ jpeg_magic data) by (rewrite <- P2; discriminate)].
  all: try first [assert (gif_magic data) by (apply P3; reflexivity)
                 | assert (~ gif_magic data) by (rewrite <- P3; discriminate)].
  all: try first [assert (webp_magic data) by (apply P4; reflexivity)
                 | assert (~ webp_magic data) by (rewrite <- P4; discriminate)].
  all: clear P1 P2 P3 P4; cbv [s2l list_ascii_of_string].
  all: (split; [|split; [|split; [|split]]]); split; intros; try discriminate; try tauto.
  all: exfalso.
  all: repeat match goal with H : ?P, X : ?P -> _ |- _ => specialize (X H) end.
  all: match goal with
       | X : ?l !! 0 = Some _, Y : ?l !! 0 = Some _ |- _ => rewrite X in Y; vm_compute in Y; discriminate
       end.
Qed.

(** C5: for every file whose bytes are [data], the sniffers of both scripts
    agree and return the PNG, JPEG, GIF or WEBP extension exactly when [data]
    carries the corresponding magic bytes, and the unknown result ([None]) for
    every other content, empty and truncated content included; the result
    depends on nothing but the first 12 bytes. *)
Theorem sniffer_magic fs p data :
  fs_read fs p = Some data ->
  (detect_ext_from_file fs p = Some (s2l ".png") <-> png_magic data) /\
  (detect_ext_from_file fs p = Some (s2l ".jpg") <-> jpeg_magic data) /\
  (detect_ext_from_file fs p = Some (s2l ".gif") <-> gif_magic data) /\
  (detect_ext_from_file fs p = Some (s2l ".webp") <-> webp_magic data) /\
  (detect_ext_from_file fs p = None <->
     ~ png_magic data /\ ~ jpeg_magic data /\ ~ gif_magic data /\ ~ webp_magic data) /\
  detect_ext fs p = detect_ext_from_file fs p /\
  (forall fs' p' data', fs_read fs' p' = Some data' -> take 12 data' = take 12 data ->
     detect_ext_from_file fs' p' = detect_ext_from_file fs p).
Proof.
  intros Hr.
  assert (E : forall fs' p' d, fs_read fs' p' = Some d ->
              detect_ext_from_file fs' p' = sniff_export (take 12 d))
    by (intros fs' p' d H; unfold detect_ext_from_file; by rewrite H).
  assert (Ec : detect_ext fs p = detect_ext_from_file fs p)
    by (unfold detect_ext, detect_ext_from_file; by destruct (fs_read fs p)).
  rewrite Ec, (E fs p data Hr).
  destruct (sniff_export_spec data) as (? & ? & ? & ? & ?).
  do 6 (split; [done|]).
  intros fs' p' data' Hr' Ht. by rewrite (E fs' p' data' Hr'), Ht.
Qed.

Lemma sniffer_magic_witness :
  fs_read [([s2l "a.img"], bstr [0x89; 0x50; 0x4E; 0x47; 0x0D; 0x0A; 0x1A; 0x0A; 0])] [s2l "a.img"]
    = Some (bstr [0x89; 0x50; 0x4E; 0x47; 0x0D; 0x0A; 0x1A; 0x0A; 0]) /\
  detect_ext_from_file [([s2l "a.img"], bstr [0x89; 0x50; 0x4E; 0x47; 0x0D; 0x0A; 0x1A; 0x0A; 0])] [s2l "a.img"]
    = Some (s2l ".png").
Proof.
  assert (H : fs_read [([s2l "a.img"], bstr [0x89; 0x50; 0x4E; 0x47; 0x0D; 0x0A; 0x1A; 0x0A; 0])] [s2l "a.img"]
    = Some (bstr [0x89; 0x50; 0x4E; 0x47; 0x0D; 0x0A; 0x1A; 0x0A; 0])) by reflexivity.
  split; [exact H|].
  apply (proj1 (sniffer_magic _ _ _ H)).
  unfold png_magic. exists [ascii_of_nat 0]. reflexivity.
Defined.

(** ** Closing keywords *)

(** C6: the singular keyword [Fix] is not recognised while the singular
    [Close] and [Resolve] and the plural [Fixes] are: on the body [Fix #1]
    with known issue 1, [find_related_issues] returns the empty list. *)
Theorem find_related_issues_fix_keyword :
  find_related_issues (s2l "Fix #1") [1] (s2l "o") (s2l "r") = [] /\
  find_related_issues (s2l "Close #1") [1] (s2l "o") (s2l "r") = [1] /\
  find_related_issues (s2l "Resolve #1") [1] (s2l "o") (s2l "r") = [1] /\
  find_related_issues (s2l "Fixes #1") [1] (s2l "o") (s2l "r") = [1].
Proof. split; [|split; [|split]]; vm_compute; reflexivity. Qed.

(** ** Synthesized file names *)

Lemma digits_value_uint d acc : digits_value_acc acc (uint_chars d) = Nat.of_uint_acc d acc.
Proof.
  revert acc; induction d; intros acc; simpl; try reflexivity;
    rewrite IHd; f_equal; rewrite Nat.tail_mul_spec; lia.
Qed.

Lemma py_int_str_of_nat i : py_int (str_of_nat i) = i.
Proof. unfold py_int, str_of_nat. rewrite digits_value_uint. apply DecimalNat.Unsigned.of_to. Qed.

Lemma py_int_zeros k s : py_int (repeat "0"%char k ++ s) = py_int s.
Proof. unfold py_int. induction k; simpl; auto. Qed.

Lemma uint_chars_digits d : Forall (fun c => is_ascii_digit c = true) (uint_chars d).
Proof. induction d; simpl; constructor; auto. Qed.

Lemma format_03d_digits i : Forall (fun c => is_ascii_digit c = true) (format_03d i).
Proof.
  unfold format_03d. apply Forall_app. split; [|apply uint_chars_digits].
  induction (3 - _); simpl; constructor; auto.
Qed.

Lemma str_of_nat_small i : i <= 999 -> length (str_of_nat i) <= 3.
Proof.
  intros Hi.
  assert (H : forallb (fun n => length (str_of_nat n) <=? 3) (seq 0 1000) = true) by (vm_compute; reflexivity).
  rewrite forallb_forall in H. apply Nat.leb_le, H, in_seq. lia.
Qed.

Lemma str_of_nat_canonical i :
  str_of_nat i <> [] /\ (str_of_nat i = ["0"%char] \/ hd_error (str_of_nat i) <> Some "0"%char).
Proof.
  unfold str_of_nat.
  assert (E : Nat.to_uint i = Decimal.unorm (Nat.to_uint i))
    by (rewrite <- DecimalNat.Unsigned.to_of, DecimalNat.Unsigned.of_to; reflexivity).
  rewrite E. generalize (Nat.to_uint i) as d. intros d.
  assert (Hnz : match Decimal.nzhead d with Decimal.D0 _ => False | _ => True end)
    by (induction d; simpl; auto).
  unfold Decimal.unorm. destruct (Decimal.nzhead d); simpl;
    first [contradiction | split; [discriminate | first [left; reflexivity | right; discriminate]]].
Qed.

Lemma format_03d_length i : 3 <= length (format_03d i) /\ (i <= 999 -> length (format_03d i) = 3).
Proof.
  unfold format_03d. rewrite length_app, repeat_length. split; [lia|].
  intros Hi. pose proof (str_of_nat_small i Hi). lia.
Qed.

Lemma collapse_unsafe_safe b s : Forall (fun c => safe_char c = true) (collapse_unsafe b s).
Proof.
  revert b; induction s as [|c s IH]; intros b; simpl; [constructor|].
  destruct (safe_char c) eqn:E; [constructor; auto|].
  destruct b; [apply IH|constructor; [reflexivity|apply IH]].
Qed.

Lemma lstrip_Forall (P : ascii -> Prop) q s : Forall P s -> Forall P (lstrip q s).
Proof. induction s as [|c s IH]; simpl; [done|]. intros H. inversion H; subst. destruct (q c); auto. Qed.

Lemma Forall_rev' (P : ascii -> Prop) s : Forall P s -> Forall P (rev s).
Proof. induction 1; simpl; [constructor|]. apply Forall_app. split; [done|by constructor]. Qed.

Lemma sanitize_name_safe s :
  sanitize_name s <> [] /\ Forall (fun c => safe_char c = true) (sanitize_name s).
Proof.
  unfold sanitize_name.
  pose proof (Forall_rev' _ _ (lstrip_Forall _ (fun c => ceq c "_"%char) _
               (Forall_rev' _ _ (lstrip_Forall _ (fun c => ceq c "_"%char) _ (collapse_unsafe_safe false s))))) as H.
  unfold strip_underscore. destruct (rev _) as [|c l] eqn:E.
  - split; [discriminate|]. repeat constructor.
  - split; [discriminate|exact H].
Qed.

Lemma length_lower s : length (lower s) = length s.
Proof. apply length_map. Qed.

(** C8, counterexample: the index is padded to a minimum width of three,
    not cut to three digits; for index 1000 the name starts with four digits,
    so no three characters followed by an underscore begin it. *)
Lemma filename_from_url_index_1000 :
  filename_from_url (s2l "https://example.com/a.png") 1000 = Some (s2l "1000_a.png") /\
  ~ exists d rest, length d = 3 /\ s2l "1000_a.png" = d ++ "_"%char :: rest.
Proof.
  split; [vm_compute; reflexivity|].
  intros (d & rest & Hl & He).
  destruct d as [|a [|b [|c [|x d]]]]; simpl in Hl; try lia.
  cbv [s2l list_ascii_of_string app] in He. congruence.
Qed.

(** C8 (amended): for every URL that [urlsplit] accepts and every index i,
    the file name starts with the decimal digits of i (no leading zero
    unless i = 0) left-padded with zeros to a width of three: a run of
    decimal digits denoting i, of length at least three and exactly three
    when i <= 999; then an underscore, then the
    sanitized stem of the path's basename ([image] for an empty basename) cut
    to 40 characters (1 to 40 safe characters), then the extension of the
    basename lower-cased when it has 1 to 10 characters and [.img]
    otherwise. *)
Theorem filename_from_url_shape url i parsed :
  urlsplit url = Some parsed ->
  let base := match basename (sr_path parsed) with [] => s2l "image" | _ => basename (sr_path parsed) end in
  let stem := fst (splitext base) in
  let e := snd (splitext base) in
  exists pad name ext,
    filename_from_url url i = Some (pad ++ "_"%char :: name ++ ext) /\
    Forall (fun c => is_ascii_digit c = true) pad /\ py_int pad = i /\
    3 <= length pad /\ (i <= 999 -> length pad = 3) /\
    name = take 40 (sanitize_name stem) /\ 1 <= length name <= 40 /\
    Forall (fun c => safe_char c = true) name /\
    ext = (if (1 <=? length e) && (length e <=? 10) then lower e else s2l ".img") /\
    exists digits,
      pad = repeat "0"%char (3 - length digits) ++ digits /\
      digits <> [] /\ Forall (fun c => is_ascii_digit c = true) digits /\ py_int digits = i /\
      (digits = ["0"%char] \/ hd_error digits <> Some "0"%char).
Proof.
  intros Hs. cbv zeta. unfold filename_from_url. rewrite Hs.
  destruct (splitext _) as [nm ex]. simpl fst; simpl snd.
  destruct (sanitize_name_safe nm) as [Hne Hsafe].
  destruct (format_03d_length i) as [Hl3 Hl999].
  eexists (format_03d i), (take 40 (sanitize_name nm)), _.
  split; [reflexivity|].
  split; [apply format_03d_digits|].
  split; [unfold format_03d; rewrite py_int_zeros; apply py_int_str_of_nat|].
  split; [done|]. split; [done|]. split; [done|].
  split.
  { rewrite length_take. destruct (sanitize_name nm); [done|cbn [length]; lia]. }
  split; [by apply Forall_take|].
  split.
  { rewrite length_lower.
    destruct (Nat.eqb_spec (length ex) 0), (Nat.ltb_spec 10 (length ex)),
      (Nat.leb_spec 1 (length ex)), (Nat.leb_spec (length ex) 10); simpl; first [lia | reflexivity]. }
  exists (str_of_nat i). destruct (str_of_nat_canonical i) as [Hne0 Hc].
  split; [reflexivity|]. split; [exact Hne0|]. split; [apply uint_chars_digits|].
  split; [apply py_int_str_of_nat|exact Hc].
Qed.

Lemma filename_from_url_shape_witness :
  urlsplit (s2l "https://example.com/x/Photo.PNG") =
    Some (mkSplit (s2l "https") (s2l "example.com") (s2l "/x/Photo.PNG") [] []) /\
  exists pad name ext,
    filename_from_url (s2l "https://example.com/x/Photo.PNG") 7 = Some (pad ++ "_"%char :: name ++ ext) /\
    length pad = 3 /\ name = s2l "Photo" /\ ext = s2l ".png".
Proof.
  assert (H : urlsplit (s2l "https://example.com/x/Photo.PNG") =
    Some (mkSplit (s2l "https") (s2l "example.com") (s2l "/x/Photo.PNG") [] [])) by (vm_compute; reflexivity).
  split; [exact H|].
  destruct (filename_from_url_shape (s2l "https://example.com/x/Photo.PNG") 7 _ H)
    as (pad & name & ext & Hf & _ & _ & _ & H999 & Hn & _ & _ & He & _).
  exists pad, name, ext. split; [exact Hf|]. split; [apply H999; lia|].
  split; [rewrite Hn | rewrite He]; vm_compute; reflexivity.
Defined.

(** ** Errors per repository *)
Lemma main_loop_cons_ok raw export_items r rs :
  returns_normally raw export_items r ->
  main_loop raw export_items (r :: rs) =
    (fst (process_repo raw export_items r) ++ fst (main_loop raw export_items rs),
     snd (main_loop raw export_items rs)).
Proof.
  intros [Hs Hr]. simpl. rewrite Hs. simpl.
  destruct (process_repo raw export_items r) as [ev o]. simpl in Hr. subst o.
  by destruct (main_loop raw export_items rs).
Qed.

(** C2, counterexample: the separator check is made in the loop, just
    before each repo; with arguments [o/r bad], repo o/r is processed (its
    missing raw files reported) before [bad] stops the run with exit code 1. *)
Lemma main_loop_invalid_repo :
  main_loop raw_empty export_ok [s2l "o/r"; s2l "bad"] =
    ([EError (s2l "o/r"); EInvalidRepo (s2l "bad")], Exit 1).
Proof. vm_compute. reflexivity. Qed.

(** C2 (amended): a repo whose raw issues.json or prs.json is missing or
    parses to a non-array gets one error report and [process_repo] returns;
    the run goes on with the next repo.  The first argument without a '/'
    stops the run with exit code 1, after the reports of all the repos before
    it; when every repo returns, the run exits with 0. *)
Theorem main_loop_per_repo raw export_items :
  (forall repo, contains_char "/"%char repo = true -> inputs_missing_or_not_array raw repo ->
     process_repo raw export_items repo = ([EError repo], Returned)) /\
  (forall pre bad post,
     Forall (returns_normally raw export_items) pre -> contains_char "/"%char bad = false ->
     main_loop raw export_items (pre ++ bad :: post) =
       (events_of raw export_items pre ++ [EInvalidRepo bad], Exit 1)) /\
  (forall repos, Forall (returns_normally raw export_items) repos ->
     main_loop raw export_items repos = (events_of raw export_items repos, Exit 0)).
Proof.
  split; [|split].
  - intros repo _ H. unfold process_repo.
    destruct H as [H|[H|(ji & jp & Hi & Hp & Hl)]].
    + by rewrite H.
    + rewrite H. by destruct (raw [slugify_repo repo; s2l "issues.json"]).
    + rewrite Hi, Hp. simpl.
      destruct ji; destruct jp; simpl in Hl; destruct Hl; try discriminate; reflexivity.
  - intros pre bad post Hpre Hbad. induction Hpre as [|r pre Hr Hpre IH].
    + simpl. by rewrite Hbad.
    + change ((r :: pre) ++ bad :: post) with (r :: (pre ++ bad :: post)).
      rewrite (main_loop_cons_ok _ _ _ _ Hr), IH. simpl. unfold events_of. simpl.
      by rewrite app_assoc.
  - intros repos H. induction H as [|r repos Hr H IH]; [reflexivity|].
    rewrite (main_loop_cons_ok _ _ _ _ Hr), IH. reflexivity.
Qed.

Lemma main_loop_per_repo_witness :
  main_loop raw_empty export_ok ([s2l "o/r"] ++ s2l "bad" :: [s2l "x/y"]) =
    ([EError (s2l "o/r"); EInvalidRepo (s2l "bad")], Exit 1).
Proof.
  assert (H1 : process_repo raw_empty export_ok (s2l "o/r") = ([EError (s2l "o/r")], Returned)).
  { apply (proj1 (main_loop_per_repo raw_empty export_ok)); [reflexivity|]. left. reflexivity. }
  rewrite (proj1 (proj2 (main_loop_per_repo raw_empty export_ok))).
  - unfold events_of. cbn [map]. rewrite H1. reflexivity.
  - constructor; [|constructor]. split; [reflexivity|]. by rewrite H1.
  - reflexivity.
Defined.

(** ** Extension cleanup *)

(** C9, counterexample: a tree with no .img file is not left unchanged;
    a stale .img reference in a Markdown file is rewritten to the .png file
    found next to it. *)
Lemma cleanup_main_stale_ref :
  rglob_files stale_fs [s2l "export"] (s2l ".img") = [] /\
  fs_read stale_fs stale_md_path = Some stale_md_text /\
  fs_read (cleanup_main remove_dups [s2l "export"] stale_fs) stale_md_path =
    Some (s2l "<img src=" ++ [dquote] ++ s2l "../assets/issues/1/001_abc.png" ++ [dquote] ++ s2l ">").
Proof. split; [|split]; vm_compute; reflexivity. Qed.

Lemma fs_exists_in (fs : fsys) (p : path) : In p (map fst fs) -> fs_exists fs p = true.
Proof.
  unfold fs_exists, fs_read. induction fs as [|[q d] fs IH]; simpl; [done|].
  unfold path_eqb at 1. case_bool_decide; simpl; [done|].
  intros [->|Hin]; [done|]. by apply IH.
Qed.

Lemma map_fst_overwrite (fs : fsys) (md : path) (d : str) :
  map fst (map (fun e => if path_eqb (fst e) md then (md, d) else e) fs) = map fst fs.
Proof.
  induction fs as [|[q x] fs IH]; simpl; [done|].
  unfold path_eqb at 1. case_bool_decide; simpl; by rewrite IH; subst.
Qed.

Lemma fs_read_overwrite_other (fs : fsys) (md : path) (d : str) (p : path) :
  p <> md -> fs_read (map (fun e => if path_eqb (fst e) md then (md, d) else e) fs) p = fs_read fs p.
Proof.
  intros Hp. unfold fs_read. induction fs as [|[q x] fs IH]; simpl; [done|].
  destruct (path_eqb q md) eqn:Eq; simpl.
  - unfold path_eqb in Eq. apply bool_decide_eq_true in Eq. subst q.
    unfold path_eqb. rewrite bool_decide_false by congruence. exact IH.
  - destruct (path_eqb q p); [done|exact IH].
Qed.

Lemma fs_write_paths (fs : fsys) (md : path) (d : str) : fs_exists fs md = true -> map fst (fs_write fs md d) = map fst fs.
Proof. intros H. unfold fs_write. rewrite H. apply map_fst_overwrite. Qed.

Lemma fs_write_other (fs : fsys) (md : path) (d : str) (p : path) :
  fs_exists fs md = true -> p <> md -> fs_read (fs_write fs md d) p = fs_read fs p.
Proof. intros H Hp. unfold fs_write. rewrite H. by apply fs_read_overwrite_other. Qed.

Section NoRewrites.
Variable set_order : list str -> list str.
Hypothesis set_order_nil : set_order [] = [].

(** A Markdown file without [.img] references is left as it is. *)
Lemma update_mds_step_noref (mds : list path) (md : path) (cur : fsys) :
  findall_refs (default [] (fs_read cur md)) = [] ->
  update_mds set_order [] (md :: mds) cur = update_mds set_order [] mds cur.
Proof.
  intros H. simpl. rewrite H, set_order_nil. simpl. by rewrite str_eqb_refl.
Qed.

(** Any step of [update_mds] on an existing file keeps the paths and
    every other file. *)
Lemma update_mds_step_frame (mds : list path) (md : path) (cur : fsys) :
  In md (map fst cur) ->
  exists cur', update_mds set_order [] (md :: mds) cur = update_mds set_order [] mds cur' /\
    map fst cur' = map fst cur /\ (forall p, p <> md -> fs_read cur' p = fs_read cur p) /\
    (findall_refs (default [] (fs_read cur md)) = [] -> cur' = cur).
Proof.
  intros Hin. simpl.
  match goal with |- context [if str_eqb ?u ?t then cur else fs_write cur md ?u] =>
    destruct (str_eqb u t) eqn:E end.
  - exists cur. split; [reflexivity|]. split; [done|]. split; [done|]. done.
  - apply fs_exists_in in Hin.
    eexists; split; [reflexivity|]. split; [by apply fs_write_paths|].
    split; [intros; by apply fs_write_other|].
    intros H. rewrite H, set_order_nil in E. simpl in E. by rewrite str_eqb_refl in E.
Qed.

Lemma update_mds_frame (mds : list path) (cur : fsys) :
  Forall (fun md => In md (map fst cur)) mds ->
  map fst (update_mds set_order [] mds cur) = map fst cur /\
  (forall p, ~ In p mds -> fs_read (update_mds set_order [] mds cur) p = fs_read cur p) /\
  (forall md, findall_refs (default [] (fs_read cur md)) = [] ->
     fs_read (update_mds set_order [] mds cur) md = fs_read cur md).
Proof.
  revert cur; induction mds as [|md mds IH]; intros cur Hall; [done|].
  inversion Hall as [|? ? Hmd Hrest]; subst.
  destruct (update_mds_step_frame mds md cur Hmd) as (cur' & -> & Hpaths & Hother & Hsame).
  assert (Hrest' : Forall (fun md => In md (map fst cur')) mds) by (by rewrite Hpaths).
  destruct (IH cur' Hrest') as (IH1 & IH2 & IH3).
  split; [by rewrite IH1|]. split.
  - intros p Hp. rewrite IH2 by (intros ?; apply Hp; by right).
    apply Hother. intros ->. apply Hp. by left.
  - intros m Hm. destruct (decide (m = md)) as [->|Hne].
    + rewrite (Hsame Hm) in *. by apply IH3.
    + rewrite IH3; [by apply Hother|]. by rewrite Hother.
Qed.

Lemma find_none_existsb {A} (f : A -> bool) (l : list A) : existsb f l = false -> List.find f l = None.
Proof. induction l as [|x l IH]; simpl; [done|]. destruct (f x); [discriminate|exact IH]. Qed.

Lemma fix_ref_unresolved (fs : fsys) (md : path) (u r : str) :
  ref_resolves fs md r = false -> fix_ref fs md u r = u.
Proof.
  unfold ref_resolves, fix_ref, prefix_fallback. cbv zeta. intros H.
  apply orb_false_iff in H as [H1 H2].
  rewrite (find_none_existsb _ _ H1), (find_none_existsb _ _ H2). reflexivity.
Qed.

Lemma foldl_fix_ref_unresolved (fs : fsys) (md : path) (u : str) (rs : list str) :
  (forall r, In r rs -> ref_resolves fs md r = false) -> foldl (fix_ref fs md) u rs = u.
Proof.
  induction rs as [|r rs IH]; intros H; simpl; [done|].
  rewrite fix_ref_unresolved by (apply H; by left). apply IH. intros r' Hr. apply H. by right.
Qed.

Lemma fs_exists_paths (fs : fsys) (p : path) : fs_exists fs p = existsb (fun q => path_eqb q p) (map fst fs).
Proof.
  unfold fs_exists, fs_read. induction fs as [|[q x] fs IH]; simpl; [done|].
  destruct (path_eqb q p); [done|exact IH].
Qed.

Lemma dir_exists_paths (fs : fsys) (d : path) : dir_exists fs d = existsb (is_under d) (map fst fs).
Proof. unfold dir_exists. induction fs as [|[q x] fs IH]; simpl; [done|]. by rewrite IH. Qed.

Lemma ref_resolves_paths (fs fs' : fsys) (md : path) (r : str) :
  map fst fs = map fst fs' -> ref_resolves fs md r = ref_resolves fs' md r.
Proof.
  intros H. unfold ref_resolves, path_exists. rewrite H.
  f_equal. induction ext_candidates as [|e l IH]; simpl; [done|]. rewrite IH. f_equal. by rewrite !fs_exists_paths, !dir_exists_paths, H.
Qed.

Section Unresolved.
Hypothesis set_order_sub : forall l x, In x (set_order l) -> In x l.

(** A Markdown file none of whose [.img] references resolves is left as it is. *)
Lemma update_mds_step_unresolved (mds : list path) (md : path) (cur : fsys) :
  (forall r, In r (findall_refs (default [] (fs_read cur md))) -> ref_resolves cur md r = false) ->
  update_mds set_order [] (md :: mds) cur = update_mds set_order [] mds cur.
Proof.
  intros H. cbn [update_mds]. unfold apply_rewrites. cbn [foldl].
  rewrite foldl_fix_ref_unresolved by (intros r Hr; by apply H, set_order_sub).
  by rewrite str_eqb_refl.
Qed.

Lemma update_mds_keep_unresolved (mds : list path) (cur : fsys) (md : path) :
  Forall (fun m => In m (map fst cur)) mds ->
  (forall r, In r (findall_refs (default [] (fs_read cur md))) -> ref_resolves cur md r = false) ->
  fs_read (update_mds set_order [] mds cur) md = fs_read cur md.
Proof.
  revert cur; induction mds as [|m mds IH]; intros cur Hall Hmd; [done|].
  inversion Hall as [|? ? Hm Hrest]; subst.
  destruct (decide (m = md)) as [->|Hne].
  - rewrite update_mds_step_unresolved by exact Hmd. by apply IH.
  - destruct (update_mds_step_frame mds m cur Hm) as (cur' & -> & Hpaths & Hother & _).
    rewrite IH.
    + by apply Hother.
    + by rewrite Hpaths.
    + intros r. rewrite Hother by congruence. rewrite (ref_resolves_paths cur' cur) by exact Hpaths.
      apply Hmd.
Qed.

Lemma update_mds_noop_unresolved (mds : list path) (cur : fsys) :
  Forall (fun md => forall r, In r (findall_refs (default [] (fs_read cur md))) -> ref_resolves cur md r = false) mds ->
  update_mds set_order [] mds cur = cur.
Proof.
  induction 1 as [|md mds H _ IH]; [done|]. by rewrite update_mds_step_unresolved.
Qed.
End Unresolved.

Lemma update_mds_noop (mds : list path) (cur : fsys) :
  Forall (fun md => findall_refs (default [] (fs_read cur md)) = []) mds ->
  update_mds set_order [] mds cur = cur.
Proof.
  induction 1 as [|md mds H _ IH]; [done|]. by rewrite update_mds_step_noref.
Qed.
End NoRewrites.

Lemma rglob_files_in (fs : fsys) (root : path) (sfx : str) (p : path) : In p (rglob_files fs root sfx) -> In p (map fst fs).
Proof. unfold rglob_files. rewrite !List.filter_In. tauto. Qed.

(** C9 (amended): on a tree with no .img file, the cleanup renames and
    creates no file, leaves every file other than the Markdown files under the
    root unchanged, leaves every Markdown file without a match of the .img
    reference pattern unchanged, and is a no-op when no Markdown file has
    such a match. More generally, a Markdown file none of whose .img
    references resolves (no sibling with a candidate extension, no file of
    the numeric-prefix fallback) is left unchanged, and the run is a no-op
    when this holds for every Markdown file under the root.  ([set_order]
    is the iteration order of a Python set: it yields elements of the set
    only, and none for the empty set.) *)
Theorem cleanup_main_no_img set_order root fs :
  set_order [] = [] ->
  rglob_files fs root (s2l ".img") = [] ->
  map fst (cleanup_main set_order root fs) = map fst fs /\
  (forall p, ~ In p (rglob_files fs root (s2l ".md")) ->
     fs_read (cleanup_main set_order root fs) p = fs_read fs p) /\
  (forall md, findall_refs (default [] (fs_read fs md)) = [] ->
     fs_read (cleanup_main set_order root fs) md = fs_read fs md) /\
  ((forall md, In md (rglob_files fs root (s2l ".md")) -> findall_refs (default [] (fs_read fs md)) = []) ->
     cleanup_main set_order root fs = fs) /\
  ((forall l x, In x (set_order l) -> In x l) ->
   (forall md, (forall r, In r (findall_refs (default [] (fs_read fs md))) -> ref_resolves fs md r = false) ->
      fs_read (cleanup_main set_order root fs) md = fs_read fs md) /\
   ((forall md, In md (rglob_files fs root (s2l ".md")) ->
       forall r, In r (findall_refs (default [] (fs_read fs md))) -> ref_resolves fs md r = false) ->
      cleanup_main set_order root fs = fs)).
Proof.
  intros Hset Himg. unfold cleanup_main. rewrite Himg.
  destruct (negb (path_exists fs root)); [done|]. simpl.
  assert (Hin : Forall (fun md => In md (map fst fs)) (rglob_files fs root (s2l ".md")))
    by (apply Forall_forall; intros p Hp; eapply rglob_files_in, list_elem_of_In, Hp).
  destruct (update_mds_frame set_order Hset _ _ Hin) as (H1 & H2 & H3).
  split; [done|]. split; [done|]. split; [done|].
  split.
  { intros Hall. apply update_mds_noop; [done|].
    apply Forall_forall. intros md Hmd. apply Hall, list_elem_of_In, Hmd. }
  intros Hsub. split.
  - intros md Hmd. by apply update_mds_keep_unresolved.
  - intros Hall. apply update_mds_noop_unresolved; [done|].
    apply Forall_forall. intros md Hmd. apply Hall, list_elem_of_In, Hmd.
Qed.

Lemma cleanup_main_no_img_witness :
  cleanup_main remove_dups [s2l "export"] (cleanup_main remove_dups [s2l "export"] stale_fs)
    = cleanup_main remove_dups [s2l "export"] stale_fs /\
  cleanup_main remove_dups [s2l "export"] [(stale_md_path, stale_md_text)] = [(stale_md_path, stale_md_text)].
Proof.
  split.
  2:{ destruct (cleanup_main_no_img remove_dups [s2l "export"] [(stale_md_path, stale_md_text)])
        as (_ & _ & _ & _ & H).
      - reflexivity.
      - vm_compute. reflexivity.
      - apply H.
        + intros l x Hx. apply list_elem_of_In, elem_of_remove_dups, list_elem_of_In, Hx.
        + intros md Hmd r Hr. vm_compute in Hmd. destruct Hmd as [<-|[]].
          vm_compute in Hr. destruct Hr as [<-|[]]. vm_compute. reflexivity. }
  destruct (cleanup_main_no_img remove_dups [s2l "export"] (cleanup_main remove_dups [s2l "export"] stale_fs))
    as (_ & _ & _ & H & _).
  - reflexivity.
  - vm_compute. reflexivity.
  - apply H. intros md Hmd. vm_compute in Hmd. destruct Hmd as [<-|[]]. vm_compute. reflexivity.
Defined.

(** ** Comment order *)

Lemma ts_le_trans a b c : ts_le a b -> ts_le b c -> ts_le a c.
Proof. destruct a, b, c; simpl; auto; lia. Qed.

Lemma ts_ltb_le a b : ts_ltb a b = true -> ts_le a b.
Proof. destruct a, b; simpl; auto; [lia|discriminate]. Qed.

Lemma ts_eqb_eq a b : ts_eqb a b = true <-> a = b.
Proof.
  destruct a, b; simpl; split; intros H; try discriminate; try done.
  - f_equal. lia.
  - injection H as ->. lia.
Qed.

Lemma ts_ltb_irrefl a : ts_ltb a a = false.
Proof. destruct a; simpl; [lia|done]. Qed.

Lemma key_le_ts a b : key_le a b -> ts_le a.1.1 b.1.1.
Proof.
  destruct a as [[ta ia] ca], b as [[tb ib] cb]; simpl.
  intros [H|[H _]]; [by apply ts_ltb_le|]. apply ts_eqb_eq in H. subst. destruct tb; simpl; auto; lia.
Qed.

Lemma key_le_total : Total key_le.
Proof.
  intros [[ta ia] ca] [[tb ib] cb]; simpl.
  destruct ta as [x|], tb as [y|]; simpl; auto.
  - destruct (Z.lt_trichotomy x y) as [H|[<-|H]].
    + left; left; by apply Z.ltb_lt.
    + destruct (Nat.le_ge_cases ia ib); [left|right]; right; (split; [apply Z.eqb_refl|done]).
    + right; left; by apply Z.ltb_lt.
  - destruct (Nat.le_ge_cases ia ib); [left|right]; right; split; auto.
Qed.

Lemma key_le_trans : Transitive key_le.
Proof.
  intros [[ta ia] ca] [[tb ib] cb] [[tc ic] cc]; simpl.
  destruct ta as [x|], tb as [y|], tc as [z|]; simpl; rewrite ?Z.ltb_lt, ?Z.eqb_eq;
    intuition (try discriminate; try lia).
Qed.

Lemma Sorted_map_Forall {A B} (R : relation A) (R' : relation B) (P : A -> Prop) (f : A -> B) l :
  (forall x y, P x -> P y -> R x y -> R' (f x) (f y)) ->
  Forall P l -> Sorted R l -> Sorted R' (map f l).
Proof.
  intros HR HP HS. induction HS as [|x l HS IH Hd]; simpl; constructor.
  - apply IH. by inversion HP.
  - inversion HP as [|? ? Px Pl]; subst. destruct Hd as [|y l' Hxy]; simpl; constructor.
    inversion Pl; subst. by apply HR.
Qed.

Lemma StronglySorted_impl_Forall {A} (R R' : relation A) (P : A -> Prop) l :
  (forall x y, P x -> P y -> R x y -> R' x y) ->
  Forall P l -> StronglySorted R l -> StronglySorted R' l.
Proof.
  intros HR HP HS. induction HS as [|x l HS IH Hx]; constructor.
  - apply IH. by inversion HP.
  - inversion HP as [|? ? Px Pl]; subst. rewrite Forall_forall in Hx, Pl |- *.
    intros y Hy. apply HR; auto.
Qed.

Lemma StronglySorted_filter {A} (R : relation A) (p : A -> bool) l :
  StronglySorted R l -> StronglySorted R (List.filter p l).
Proof.
  induction 1 as [|x l _ IH Hx]; simpl; [constructor|].
  destruct (p x); [|done]. constructor; [done|].
  rewrite Forall_forall in Hx |- *. intros y Hy. apply Hx.
  apply list_elem_of_In in Hy. apply list_elem_of_In. apply List.filter_In in Hy. tauto.
Qed.

Lemma Permutation_filter' {A} (p : A -> bool) l l' :
  l ≡ₚ l' -> List.filter p l ≡ₚ List.filter p l'.
Proof.
  induction 1; simpl.
  - done.
  - destruct (p x); [by constructor|done].
  - destruct (p x), (p y); try constructor; done.
  - etrans; eauto.
Qed.

Lemma filter_map' {A B} (p : B -> bool) (f : A -> B) l :
  List.filter p (map f l) = map f (List.filter (fun x => p (f x)) l).
Proof. induction l as [|x l IH]; simpl; [done|]. destruct (p (f x)); simpl; by rewrite IH. Qed.

Lemma StronglySorted_lookup {A} (R : relation A) l i j a b :
  StronglySorted R l -> i < j -> l !! i = Some a -> l !! j = Some b -> R a b.
Proof.
  intros HS. revert i j. induction HS as [|x l HS IH Hx]; intros i j Hij Hi Hj; [done|].
  destruct i as [|i], j as [|j]; simpl in Hi, Hj; try lia.
  - injection Hi as <-. rewrite Forall_forall in Hx. apply Hx. by eapply list_elem_of_lookup_2.
  - apply (IH i j); [lia|done|done].
Qed.

Lemma StronglySorted_map_Forall {A B} (R : relation A) (R' : relation B) (P : A -> Prop) (f : A -> B) l :
  (forall x y, P x -> P y -> R x y -> R' (f x) (f y)) ->
  Forall P l -> StronglySorted R l -> StronglySorted R' (map f l).
Proof.
  intros HR HP HS. induction HS as [|x l HS IH Hx]; simpl; constructor.
  - apply IH. by inversion HP.
  - inversion HP as [|? ? Px Pl]; subst. rewrite Forall_forall in Hx. rewrite Forall_forall in Pl. rewrite Forall_forall.
    intros y Hy. apply list_elem_of_In, in_map_iff in Hy as (z & <- & Hz).
    apply list_elem_of_In in Hz. apply HR; auto.
Qed.

Lemma index_from_lookup {A} n (l : list A) i x :
  (i, x) ∈ index_from n l -> n <= i /\ l !! (i - n) = Some x.
Proof.
  revert n; induction l as [|y l IH]; intros n H; simpl in H.
  - by apply elem_of_nil in H.
  - apply elem_of_cons in H as [H|H].
    + injection H as -> ->. rewrite Nat.sub_diag. split; [lia|done].
    + destruct (IH _ H) as [Hle Hl]. split; [lia|].
      replace (i - n) with (S (i - S n)) by lia. done.
Qed.

Lemma index_from_sorted {A} n (l : list A) :
  StronglySorted (fun a b => a.1 < b.1) (index_from n l).
Proof.
  revert n; induction l as [|y l IH]; intros n; simpl; constructor; [apply IH|].
  apply Forall_forall. intros [i x] Hx. apply index_from_lookup in Hx. simpl. lia.
Qed.

Lemma map_snd_index_from {A} n (l : list A) : map snd (index_from n l) = l.
Proof. revert n; induction l; intros n; simpl; [done|]. by rewrite IHl. Qed.

(** C4: [sort_comments] returns a permutation of its input in which the
    parsed timestamps never decrease (an unparseable or missing timestamp,
    [Inf], counts as +infinity, so every such comment comes after all the
    others), and for every timestamp value the comments carrying it keep
    their input order. *)
Theorem sort_comments_stable fromiso cs :
  let out := sort_comments fromiso cs in
  out ≡ₚ cs /\
  (forall i j a b, i < j -> out !! i = Some a -> out !! j = Some b ->
     ts_le (comment_ts fromiso a) (comment_ts fromiso b)) /\
  (forall i j a b, i < j -> out !! i = Some a -> out !! j = Some b ->
     comment_ts fromiso a = Inf -> comment_ts fromiso b = Inf) /\
  (forall t, List.filter (fun c => ts_eqb (comment_ts fromiso c) t) out =
             List.filter (fun c => ts_eqb (comment_ts fromiso c) t) cs).
Proof.
  intros out.
  set (key := comment_ts fromiso).
  set (tag := fun '(idx, c) => (comment_ts fromiso c, idx, c) : ts * nat * Comment).
  set (thd := fun e : ts * nat * Comment => e.2).
  set (I := map tag (index_from 0 cs)).
  set (S := merge_sort key_le I).
  assert (HT : Total key_le) by exact key_le_total.
  assert (HTr : Transitive key_le) by exact key_le_trans.
  assert (Hout : out = map thd S) by (apply map_ext; by intros [[? ?] ?]).
  assert (Hcs : cs = map thd I).
  { subst I. rewrite map_map. rewrite <- (map_snd_index_from 0 cs) at 1. apply map_ext. by intros [? ?]. }
  assert (HP : S ≡ₚ I) by apply merge_sort_Permutation.
  assert (HSS : StronglySorted key_le S) by (apply Sorted_StronglySorted, Sorted_merge_sort; apply _).
  assert (HwfI : Forall (fun e => e.1.1 = key e.2) I).
  { apply Forall_forall. intros e He. apply list_elem_of_In, in_map_iff in He as ([? ?] & <- & _). done. }
  assert (HwfS : Forall (fun e => e.1.1 = key e.2) S) by (by rewrite HP).
  assert (HsortI : StronglySorted (fun a b => a.1.2 < b.1.2) I).
  { apply (StronglySorted_map_Forall (fun a b => a.1 < b.1) _ (fun _ => True)); [|by apply Forall_true|apply index_from_sorted].
    by intros [? ?] [? ?]. }
  assert (Huniq : forall x y, x ∈ I -> y ∈ I -> x.1.2 = y.1.2 -> x = y).
  { intros x y Hx Hy Hxy.
    apply list_elem_of_In, in_map_iff in Hx as ([i c] & <- & Hx).
    apply list_elem_of_In, in_map_iff in Hy as ([j d] & <- & Hy).
    simpl in Hxy. subst j. apply list_elem_of_In, index_from_lookup in Hx, Hy.
    destruct Hx as [_ Hx], Hy as [_ Hy]. rewrite Hx in Hy. by injection Hy as ->. }
  assert (Hord : StronglySorted (fun a b => ts_le (key a) (key b)) out).
  { rewrite Hout. refine (StronglySorted_map_Forall key_le _ _ thd S _ HwfS HSS).
    intros x y Hx Hy Hxy. apply key_le_ts in Hxy. subst thd; simpl. by rewrite <- Hx, <- Hy. }
  split; [|split; [|split]].
  - rewrite Hout, Hcs at 1. by apply Permutation_map.
  - intros i j a b Hij Ha Hb. exact (StronglySorted_lookup _ _ _ _ _ _ Hord Hij Ha Hb).
  - intros i j a b Hij Ha Hb Hinf.
    pose proof (StronglySorted_lookup _ _ _ _ _ _ Hord Hij Ha Hb) as H.
    change (ts_le (key a) (key b)) in H. rewrite Hinf in H.
    revert H. by destruct (key b).
  - intros t. rewrite Hout.
    transitivity (List.filter (fun c => ts_eqb (comment_ts fromiso c) t) (map thd I)); [|by rewrite <- Hcs].
    rewrite !filter_map'. f_equal.
    set (q := fun x : ts * nat * Comment => ts_eqb (comment_ts fromiso (thd x)) t).
    apply (StronglySorted_unique_strong (fun a b => a.1.2 <= b.1.2)).
    + intros x y Hx Hy Hxy Hyx.
      apply list_elem_of_In, List.filter_In in Hx as [Hx _]. apply list_elem_of_In in Hx.
      apply list_elem_of_In, List.filter_In in Hy as [Hy _]. apply list_elem_of_In in Hy.
      rewrite HP in Hx. apply Huniq; [done|done|lia].
    + apply (StronglySorted_impl_Forall key_le _ (fun e => e.1.1 = t)).
      * intros [[ta ia] ca] [[tb ib] cb]; simpl. intros -> -> [H|[_ H]]; [|done].
        by rewrite ts_ltb_irrefl in H.
      * apply Forall_forall. intros x Hx.
        apply list_elem_of_In, List.filter_In in Hx as [Hx Hq]. apply list_elem_of_In in Hx.
        rewrite Forall_forall in HwfS. rewrite (HwfS x Hx). by apply ts_eqb_eq.
      * by apply StronglySorted_filter.
    + apply (StronglySorted_impl_Forall (fun a b => a.1.2 < b.1.2) _ (fun _ => True)).
      * intros; lia.
      * by apply Forall_true.
      * by apply StronglySorted_filter.
    + by apply Permutation_filter'.
Qed.

Lemma sort_comments_stable_witness :
  sort_comments sample_fromiso sample_comments =
    [mkComment None (Some (s2l "3")) None; mkComment (Some (s2l "5")) None None;
     mkComment None (Some (s2l "soon")) None] /\
  ts_le (comment_ts sample_fromiso (mkComment None (Some (s2l "3")) None))
        (comment_ts sample_fromiso (mkComment None (Some (s2l "soon")) None)).
Proof.
  assert (H : sort_comments sample_fromiso sample_comments =
    [mkComment None (Some (s2l "3")) None; mkComment (Some (s2l "5")) None None;
     mkComment None (Some (s2l "soon")) None]) by (vm_compute; reflexivity).
  split; [exact H|].
  apply (proj1 (proj2 (sort_comments_stable sample_fromiso sample_comments)) 0 2);
    [lia | by rewrite H | by rewrite H].
Defined.

Lemma mt_bound inp fuel r i c k res :
  i <= length inp ->
  (forall j c' res, j <= length inp -> k j c' = Some res -> res.1 <= length inp) ->
  mt inp fuel r i c k = Some res -> res.1 <= length inp.
Proof.
  revert r i c k res. induction fuel as [|f IH]; intros r i c k res Hi Hk H; [done|].
  destruct r as [p|a b|a b|[] a|n a|n| |]; simpl in H.
  - destruct (inp !! i) as [ch|] eqn:E; [|done]. destruct (p ch); [|done].
    apply (Hk (S i) c); [|done]. apply lookup_lt_Some in E. lia.
  - refine (IH a i c _ res Hi _ H). intros j c' res' Hj H'. exact (IH b j c' k res' Hj Hk H').
  - destruct (mt inp f a i c k) as [res'|] eqn:E.
    + injection H as ->. exact (IH a i c k res Hi Hk E).
    + exact (IH b i c k res Hi Hk H).
  - destruct (mt inp f a i c _) as [res'|] eqn:E.
    + injection H as ->. refine (IH a i c _ res Hi _ E).
      intros j c' res' Hj H'. destruct (j =? i); [done|]. exact (IH _ j c' k res' Hj Hk H').
    + exact (Hk i c res Hi H).
  - destruct (k i c) as [res'|] eqn:E.
    + injection H as ->. exact (Hk i c res Hi E).
    + refine (IH a i c _ res Hi _ H).
      intros j c' res' Hj H'. destruct (j =? i); [done|]. exact (IH _ j c' k res' Hj Hk H').
  - refine (IH a i c _ res Hi _ H). intros j c' res' Hj H'. exact (Hk _ _ res' Hj H').
  - destruct (cap_get c n) as [[s e]|]; [|done].
    destruct (str_eqb _ _) eqn:E; [|done].
    apply str_eqb_true in E. apply (Hk (i + length (slice inp s e)) c res); [|exact H].
    apply (f_equal length) in E. set (L := length (slice inp s e)) in *.
    unfold slice in E. rewrite length_take, length_drop in E. lia.
  - destruct (word_boundary inp i); [|done]. exact (Hk i c res Hi H).
  - exact (Hk i c res Hi H).
Qed.

Lemma match_at_bound inp r i j c :
  i <= length inp -> match_at inp r i = Some (j, c) -> j <= length inp.
Proof.
  intros Hi H. unfold match_at in H.
  apply (mt_bound inp (rx_size r * (length inp + 2) + 10) r i [] (fun j c => Some (j, c)) (j, c) Hi); [|exact H].
  intros j' c' res Hj' Hk. by injection Hk as <-.
Qed.

Lemma scan_from_cover inp fuel r i :
  i <= length inp -> length inp - i < fuel ->
  concat (map (seg_text inp) (scan_from inp fuel r i)) = drop i inp.
Proof.
  revert i. induction fuel as [|f IH]; intros i Hi Hf; [lia|]. simpl.
  destruct (length inp <=? i) eqn:Hl.
  - apply Nat.leb_le in Hl. simpl. symmetry. apply drop_ge. done.
  - apply Nat.leb_gt in Hl.
    assert (Hstep : concat (map (seg_text inp) (SLit i :: scan_from inp f r (S i))) = drop i inp).
    { simpl. rewrite IH by lia. unfold slice. rewrite Nat.sub_succ_l, Nat.sub_diag by lia.
      rewrite <- (take_drop 1 (drop i inp)) at 2. by rewrite drop_drop, Nat.add_1_r. }
    destruct (match_at inp r i) as [[j c]|] eqn:E; [|exact Hstep].
    destruct (i <? j) eqn:Hij; [|exact Hstep].
    apply Nat.ltb_lt in Hij. pose proof (match_at_bound inp r i j c ltac:(lia) E) as Hj.
    simpl. rewrite IH by lia. unfold slice.
    rewrite <- (take_drop (j - i) (drop i inp)) at 2. rewrite drop_drop. do 2 f_equal. lia.
Qed.

Lemma scan_cover inp r : concat (map (seg_text inp) (scan inp r)) = inp.
Proof. unfold scan. rewrite scan_from_cover by lia. apply drop_0. Qed.



Lemma repl_none env text i j c s :
  rewritable_url text c = None -> repl env text (SMatch i j c) s = (inr (slice text i j), s).
Proof.
  unfold rewritable_url, repl. destruct (match_url text c) as [[|u0 u']|]; [done| |done].
  destruct (startswith _ (s2l "data:")); [done|].
  by destruct (negb _ && negb _).
Qed.

Lemma repl_some env text i j c url s :
  rewritable_url text c = Some url ->
  repl env text (SMatch i j c) s =
  (local <-- get_local env url ;; ret (replace_first url local (slice text i j))) s.
Proof.
  unfold rewritable_url, repl. destruct (match_url text c) as [[|u0 u']|]; [done| |done].
  destruct (startswith _ (s2l "data:")); [done|].
  destruct (negb _ && negb _); [done|]. by intros [= <-].
Qed.

Lemma kept_match text i j c : kept text (SMatch i j c) -> rewritable_url text c = None.
Proof.
  unfold kept, rewritable_url. destruct (match_url text c) as [[|u0 u']|]; [done| |done].
  intros [H|[H1 H2]]; [by rewrite H|]. rewrite H1, H2.
  by destruct (startswith _ (s2l "data:")).
Qed.

Lemma rewritable_url_http text c url :
  rewritable_url text c = Some url ->
  startswith url (s2l "data:") = false /\
  (startswith url (s2l "http://") = true \/ startswith url (s2l "https://") = true).
Proof.
  unfold rewritable_url. destruct (match_url text c) as [[|u0 u']|]; [done| |done].
  destruct (startswith _ (s2l "data:")) eqn:Hd; [done|].
  destruct (startswith _ (s2l "http://")) eqn:H1, (startswith _ (s2l "https://")) eqn:H2;
    simpl; intros [= <-]; auto.
Qed.

Lemma rewritable_urls_http text segs u :
  In u (rewritable_urls text segs) ->
  startswith u (s2l "data:") = false /\
  (startswith u (s2l "http://") = true \/ startswith u (s2l "https://") = true).
Proof.
  induction segs as [|[i|i j c] segs IH]; simpl; [done| exact IH|].
  destruct (rewritable_url text c) as [v|] eqn:R; [|exact IH].
  intros [->|H]; [exact (rewritable_url_http text c u R)|exact (IH H)].
Qed.

Lemma sub_segs_cons env text sg segs s :
  sub_segs env text (sg :: segs) s =
  match repl env text sg s with
  | (inl e, s1) => (inl e, s1)
  | (inr a, s1) =>
    match sub_segs env text segs s1 with
    | (inl e, s2) => (inl e, s2)
    | (inr b, s2) => (inr (a ++ b), s2)
    end
  end.
Proof.
  simpl. unfold bind, ret.
  destruct (repl env text sg s) as [[e|a] s1]; [done|].
  by destruct (sub_segs env text segs s1) as [[e|b] s2].
Qed.

Lemma sub_segs_frame env text segs s :
  snd (sub_segs env text segs s) = snd (get_locals env (rewritable_urls text segs) s) /\
  (forall out, fst (sub_segs env text segs s) = inr out ->
     exists pieces, Forall2 (fun sg p => kept text sg -> p = seg_text text sg) segs pieces /\
                    out = concat pieces).
Proof.
  revert s. induction segs as [|sg segs IH]; intros s.
  { split; [done|]. intros out [= <-]. by exists []. }
  rewrite sub_segs_cons.
  assert (Hcopy : forall a, repl env text sg s = (inr a, s) -> a = seg_text text sg ->
            rewritable_urls text (sg :: segs) = rewritable_urls text segs ->
            snd (match repl env text sg s with
                 | (inl e, s1) => (inl e, s1)
                 | (inr a, s1) =>
                   match sub_segs env text segs s1 with
                   | (inl e, s2) => (inl e, s2)
                   | (inr b, s2) => (inr (a ++ b), s2)
                   end
                 end) = snd (get_locals env (rewritable_urls text (sg :: segs)) s) /\
            (forall out, fst (match repl env text sg s with
                 | (inl e, s1) => (inl e, s1)
                 | (inr a, s1) =>
                   match sub_segs env text segs s1 with
                   | (inl e, s2) => (inl e, s2)
                   | (inr b, s2) => (inr (a ++ b), s2)
                   end
                 end) = inr out ->
             exists pieces, Forall2 (fun sg p => kept text sg -> p = seg_text text sg) (sg :: segs) pieces /\
                            out = concat pieces)).
  { intros a Hr Ha Hu. rewrite Hr, Hu. destruct (IH s) as [IH1 IH2].
    destruct (sub_segs env text segs s) as [[e|b] s2]; simpl in *; split; try done.
    intros out [= <-]. destruct (IH2 b eq_refl) as (ps & HF & ->).
    exists (a :: ps). split; [constructor; [intros _; exact Ha|exact HF]|done]. }
  destruct sg as [i|i j c].
  - by apply (Hcopy (slice text i (S i))).
  - destruct (rewritable_url text c) as [url|] eqn:Ru.
    + rewrite (repl_some env text i j c url s Ru).
      cbn [rewritable_urls]. rewrite Ru, get_locals_cons. unfold bind, ret.
      destruct (get_local env url s) as [[e|l] s1]; [done|].
      destruct (IH s1) as [IH1 IH2].
      destruct (sub_segs env text segs s1) as [[e|b] s2], (get_locals env (rewritable_urls text segs) s1) as [[e'|rs] s2'];
        simpl in *; split; try done; intros out [= <-].
      * destruct (IH2 b eq_refl) as (ps & HF & ->).
        exists (replace_first url l (slice text i j) :: ps). split; [|done].
        constructor; [|exact HF]. intros Hk. rewrite (kept_match text i j c Hk) in Ru. discriminate.
      * destruct (IH2 b eq_refl) as (ps & HF & ->).
        exists (replace_first url l (slice text i j) :: ps). split; [|done].
        constructor; [|exact HF]. intros Hk. rewrite (kept_match text i j c Hk) in Ru. discriminate.
    + apply (Hcopy (slice text i j)); [exact (repl_none env text i j c s Ru)|done|].
      cbn [rewritable_urls]. by rewrite Ru.
Qed.

Lemma get_locals_other env us u s :
  ~ In u us ->
  count_url u (log_of (get_locals env us s)) = count_url u (st_download_log s) /\
  map_of (get_locals env us s) !! u = url_to_rel (st_tracker s) !! u.
Proof.
  revert s. induction us as [|v vs IH]; intros s Hn; [done|].
  assert (Hv : v <> u) by (intros ->; apply Hn; left; done).
  assert (Hvs : ~ In u vs) by (intros H; apply Hn; right; exact H).
  assert (Hl : count_url u (log_of (get_local env v s)) = count_url u (st_download_log s)).
  { destruct (get_local_log env v s) as [->| ->]; [done|].
    rewrite count_url_app. unfold count_url at 2. simpl. rewrite str_eqb_ne by congruence.
    simpl. lia. }
  pose proof (get_local_map_other env v u s Hv) as Hm.
  rewrite get_locals_cons. unfold log_of, map_of in *.
  destruct (get_local env v s) as [[e|r] s1]; simpl in *; [done|].
  destruct (IH s1 Hvs) as [IHl IHm]. unfold log_of, map_of in *.
  destruct (get_locals env vs s1) as [[e|rs] s2]; simpl in *; split; congruence.
Qed.

Lemma replace_images_sub env text : replace_images env text = sub_segs env text (scan text IMG_PATTERN).
Proof. by destruct text. Qed.

(** C7: [replace_images] splits the text into the segments of [IMG_PATTERN]'s
    scan, which tile the text; a segment outside every match, or a match
    whose URL starts with [data:] or with neither [http://] nor [https://],
    is copied to the output unchanged; the tracker state afterwards is the
    one of calling [get_local] on the http(s) URLs only, so such a URL gets
    no download-log entry and its tracker entry is unchanged. *)
Theorem replace_images_frame env text s :
  concat (map (seg_text text) (scan text IMG_PATTERN)) = text /\
  snd (replace_images env text s) =
    snd (get_locals env (rewritable_urls text (scan text IMG_PATTERN)) s) /\
  (forall out, fst (replace_images env text s) = inr out ->
     exists pieces,
       Forall2 (fun sg p => kept text sg -> p = seg_text text sg) (scan text IMG_PATTERN) pieces /\
       out = concat pieces) /\
  (forall u, startswith u (s2l "data:") = true \/
             (startswith u (s2l "http://") = false /\ startswith u (s2l "https://") = false) ->
     count_url u (log_of (replace_images env text s)) = count_url u (st_download_log s) /\
     map_of (replace_images env text s) !! u = url_to_rel (st_tracker s) !! u).
Proof.
  rewrite replace_images_sub.
  destruct (sub_segs_frame env text (scan text IMG_PATTERN) s) as [H1 H2].
  split; [apply scan_cover|]. split; [exact H1|]. split; [exact H2|].
  intros u Hu. unfold log_of, map_of. rewrite H1.
  apply get_locals_other. intros Hin.
  destruct (rewritable_urls_http _ _ _ Hin) as [Hd Hh].
  destruct Hu as [Hu|[Hu1 Hu2]]; [congruence|]. destruct Hh; congruence.
Qed.


Lemma replace_images_frame_witness :
  fst (replace_images env_offline frame_text sample_st) = inr frame_text /\
  (exists pieces,
     Forall2 (fun sg p => kept frame_text sg -> p = seg_text frame_text sg)
             (scan frame_text IMG_PATTERN) pieces /\ frame_text = concat pieces) /\
  count_url (s2l "data:x") (log_of (replace_images env_offline frame_text sample_st)) =
    count_url (s2l "data:x") (st_download_log sample_st).
Proof.
  destruct (replace_images_frame env_offline frame_text sample_st) as (_ & _ & H3 & H4).
  split; [vm_compute; reflexivity|]. split.
  - apply H3. vm_compute. reflexivity.
  - apply H4. left. vm_compute. reflexivity.
Defined.

(** * Further properties of the code *)

Lemma collapse_unsafe_id b s : Forall (fun c => safe_char c = true) s -> collapse_unsafe b s = s.
Proof.
  revert b; induction s as [|c s IH]; intros b H; [done|]. inversion H; subst. simpl.
  match goal with H : safe_char c = true |- _ => rewrite H end. by rewrite IH.
Qed.

Lemma lstrip_suffix q s : exists k, lstrip q s = drop k s.
Proof.
  induction s as [|c s IH]; simpl; [by exists 0|].
  destruct (q c); [destruct IH as [k Hk]; exists (S k); done|by exists 0].
Qed.

Lemma lstrip_head q s : match lstrip q s with [] => True | c :: _ => q c = false end.
Proof. induction s as [|c s IH]; simpl; [done|]. destruct (q c) eqn:E; [exact IH|exact E]. Qed.

Lemma lstrip_id q s : match s with [] => True | c :: _ => q c = false end -> lstrip q s = s.
Proof. destruct s as [|c s]; simpl; [done|]. by intros ->. Qed.

Lemma rev_drop_rev {A} (u : list A) k : rev (drop k (rev u)) = take (length u - k) u.
Proof.
  change (drop k (rev u)) with (skipn k (rev u)). rewrite List.skipn_rev, rev_involutive. done.
Qed.

Lemma strip_underscore_shape s :
  let r := strip_underscore s in
  strip_underscore r = r /\
  match r with [] => True | c :: _ => ceq c "_"%char = false end /\
  match rev r with [] => True | c :: _ => ceq c "_"%char = false end.
Proof.
  intros r. assert (Er : r = rev (lstrip (fun c => ceq c "_"%char) (rev (lstrip (fun c => ceq c "_"%char) s)))) by reflexivity.
  clearbody r. subst r. set (us := fun c => ceq c "_"%char).
  set (u := lstrip us s). set (v := lstrip us (rev u)).
  assert (Hv : match v with [] => True | c :: _ => us c = false end) by apply lstrip_head.
  assert (Hu : match u with [] => True | c :: _ => us c = false end) by apply lstrip_head.
  destruct (lstrip_suffix us (rev u)) as [k Hk]. fold v in Hk.
  assert (Hr : rev v = take (length u - k) u) by (rewrite Hk; apply rev_drop_rev).
  assert (Hhead : match rev v with [] => True | c :: _ => us c = false end).
  { rewrite Hr. destruct u as [|c u']; [done|]. by destruct (length (c :: u') - k). }
  split; [|split; [exact Hhead|by rewrite rev_involutive]].
  unfold strip_underscore. fold us.
  rewrite (lstrip_id us (rev v) Hhead), rev_involutive, (lstrip_id us v Hv). done.
Qed.

(** X1: [sanitize_name] is idempotent, and its result never starts or ends
    with an underscore. *)
Theorem sanitize_name_idempotent s :
  sanitize_name (sanitize_name s) = sanitize_name s /\
  hd_error (sanitize_name s) <> Some "_"%char /\
  hd_error (rev (sanitize_name s)) <> Some "_"%char.
Proof.
  pose proof (sanitize_name_safe s) as [_ HF].
  pose proof (strip_underscore_shape (collapse_unsafe false s)) as (Hid & Hh & Hl).
  unfold sanitize_name in *.
  destruct (strip_underscore (collapse_unsafe false s)) as [|c r] eqn:E.
  - vm_compute. repeat split; discriminate.
  - rewrite (collapse_unsafe_id false _ HF), Hid. split; [done|]. simpl in Hh.
    split; [simpl; intros [= ->]; vm_compute in Hh; discriminate|].
    destruct (rev (c :: r)) as [|d r']; simpl; [discriminate|]. intros [= ->]. vm_compute in Hl. discriminate.
Qed.

Lemma candidate_urls_state url s : snd (candidate_urls url s) = s.
Proof.
  unfold candidate_urls, bind, of_option. destruct (urlsplit url) as [parsed|]; [|done].
  simpl. destruct (_ && _); [destruct (negb _)|]; done.
Qed.

Lemma is_user_attachment_state url s : snd (is_user_attachment url s) = s.
Proof. unfold is_user_attachment, bind, of_option. by destruct (urlsplit url). Qed.

(** X2: [_candidate_urls] leaves the state alone and returns either the URL
    alone or the URL followed by the same URL with [?download=1] or
    [&download=1] appended; the second form only for a URL that
    [_is_user_attachment] accepts. *)
Theorem candidate_urls_shape url s cands s' :
  candidate_urls url s = (inr cands, s') ->
  s' = s /\
  (cands = [url] \/
   exists sep, (sep = s2l "?" \/ sep = s2l "&") /\
     cands = [url; url ++ sep ++ s2l "download=1"] /\
     is_user_attachment url s = (inr true, s)).
Proof.
  unfold candidate_urls, is_user_attachment, bind, of_option.
  destruct (urlsplit url) as [parsed|]; [|discriminate]. simpl.
  destruct (str_eqb _ _ && startswith _ _) eqn:E.
  - destruct (negb _); intros [= <- <-]; split; auto.
    right. eexists. split; [|split; [reflexivity|reflexivity]].
    destruct (sr_query parsed); auto.
  - intros [= <- <-]. auto.
Qed.

Lemma fs_read_write_same (fs : fsys) (p : path) (d : str) : fs_read (fs_write fs p d) p = Some d.
Proof.
  unfold fs_write. destruct (fs_exists fs p) eqn:E.
  - unfold fs_exists, fs_read in *. induction fs as [|[q x] fs IH]; simpl in *; [done|].
    unfold path_eqb in E |- *. destruct (decide (q = p)) as [->|Hne].
    + assert (Hpp : bool_decide (p = p) = true) by (apply bool_decide_true; done).
      rewrite Hpp. simpl. rewrite Hpp. done.
    + assert (Hqp : bool_decide (q = p) = false) by (apply bool_decide_false; done).
      rewrite Hqp in E |- *. simpl in *. rewrite Hqp. exact (IH E).
  - unfold fs_exists, fs_read in *. induction fs as [|[q x] fs IH]; simpl in *.
    + unfold path_eqb. by rewrite bool_decide_true.
    + unfold path_eqb in E |- *. destruct (decide (q = p)) as [->|Hne].
      * rewrite bool_decide_true in E by done. done.
      * rewrite !bool_decide_false in E |- * by done. simpl in *. exact (IH E).
Qed.

Lemma fs_exists_write (fs : fsys) (p : path) (d : str) : fs_exists (fs_write fs p d) p = true.
Proof. unfold fs_exists. rewrite (fs_read_write_same fs p d). reflexivity. Qed.

Lemma try_candidates_true env tok p cands s s' :
  try_candidates env tok p cands s = (inr true, s') -> fs_exists (st_fs s') p = true.
Proof.
  revert s; induction cands as [|c cands IH]; intros s; simpl; [discriminate|].
  destruct (net env c tok) as [body|]; [|apply IH].
  unfold bind at 1, get. cbn.
  destruct (mkdir_blocked _ _ || dir_exists _ _); [apply IH|].
  unfold bind, modify, ret. intros [= <-]. apply fs_exists_write.
Qed.

Lemma download_with_gh_true env url p s s' :
  download_with_gh env url p s = (inr true, s') -> fs_exists (st_fs s') p = true.
Proof.
  unfold download_with_gh. unfold bind at 1, get. cbn.
  destruct (mkdir_blocked _ _); [discriminate|].
  destruct (urlsplit url) as [parsed|]; [|discriminate].
  destruct (gh_api env _) as [out|]; [|discriminate].
  unfold bind, modify, ret. intros [= _ <-]. apply fs_exists_write.
Qed.

(** X3: [download_image] on a path that already exists (a file or a
    directory) returns [True] at once: no request is made and no file is
    written. *)
Theorem download_image_existing env url p tok s :
  path_exists (st_fs s) p = true ->
  download_image env url p tok s = (inr true, log_download url s).
Proof. intros H. unfold download_image, bind, modify, get, ret. simpl. by rewrite H. Qed.

(** X4: whenever [download_image] returns [True], either a regular file
    exists at the target path afterwards, or the path was an existing
    directory and the files are unchanged. *)
Theorem download_image_true_exists env url p tok s s' :
  download_image env url p tok s = (inr true, s') ->
  fs_exists (st_fs s') p = true \/ (dir_exists (st_fs s) p = true /\ st_fs s' = st_fs s).
Proof.
  unfold download_image, bind at 1, modify at 1. simpl.
  unfold bind at 1, get at 1. simpl.
  destruct (path_exists (st_fs s) p) eqn:E.
  { unfold ret. intros [= <-]. unfold path_exists in E. cbn.
    destruct (fs_exists (st_fs s) p); [by left|]. by right. }
  intros Hd; left; revert Hd.
  unfold bind at 1.
  pose proof (candidate_urls_state url (log_download url s)) as Hc.
  destruct (candidate_urls url (log_download url s)) as [[e|cands] s2]; [discriminate|].
  simpl in Hc. subst s2. unfold bind at 1.
  destruct (try_candidates env tok p cands (log_download url s)) as [[e|ok] s3] eqn:Et; [discriminate|].
  destruct ok.
  { unfold ret. intros [= <-]. exact (try_candidates_true _ _ _ _ _ _ Et). }
  unfold bind.
  pose proof (is_user_attachment_state url s3) as Hu.
  destruct (is_user_attachment url s3) as [[e|ua] s4]; [discriminate|].
  simpl in Hu. subst s4. destruct ua; [apply download_with_gh_true|discriminate].
Qed.

Lemma find_sub_none p text k : find_sub p text = None -> startswith (drop k text) p = false.
Proof.
  revert k; induction text as [|x t IH]; intros k.
  - change (find_sub p []) with (if startswith [] p then Some 0 else None).
    destruct (startswith [] p) eqn:E; [discriminate|]. intros _. by rewrite drop_nil.
  - change (find_sub p (x :: t)) with
      (if startswith (x :: t) p then Some 0 else option_map S (find_sub p t)).
    destruct (startswith (x :: t) p) eqn:E; [discriminate|].
    destruct (find_sub p t) eqn:E2; [discriminate|]. intros _.
    destruct k; [exact E|]. simpl. by apply IH.
Qed.

Lemma startswith_take n l p : startswith (take n l) p = true -> startswith l p = true.
Proof.
  rewrite !startswith_prefix. intros H. transitivity (take n l); [exact H|apply prefix_take].
Qed.

Lemma group_slice text c n u : group text c n = Some u -> exists a b, u = slice text a b.
Proof. unfold group. destruct (cap_get c n) as [[a b]|]; [|done]. intros [= <-]. eauto. Qed.

Lemma match_url_slice text c u : match_url text c = Some u -> exists a b, u = slice text a b.
Proof.
  unfold match_url, py_or.
  destruct (group text c md_url) as [[|x l]|] eqn:E1; [| |].
  2: { intros [= <-]. exact (group_slice _ _ _ _ E1). }
  all: destruct (group text c html_url) as [[|y l']|] eqn:E2;
       [| intros [= <-]; exact (group_slice _ _ _ _ E2) |];
       apply group_slice.
Qed.

Lemma rewritable_url_no_http text c :
  find_sub (s2l "http://") text = None -> find_sub (s2l "https://") text = None ->
  rewritable_url text c = None.
Proof.
  intros H1 H2. unfold rewritable_url.
  destruct (match_url text c) as [[|u0 u']|] eqn:E; [done| |done].
  destruct (match_url_slice _ _ _ E) as (a & b & Hu).
  assert (F : forall p, find_sub p text = None -> startswith (u0 :: u') p = false).
  { intros p Hp. rewrite Hu. unfold slice.
    destruct (startswith (take (b - a) (drop a text)) p) eqn:S; [|done].
    apply startswith_take in S. by rewrite (find_sub_none p text a Hp) in S. }
  rewrite (F _ H1), (F _ H2). by destruct (startswith _ (s2l "data:")).
Qed.

Lemma sub_segs_no_url env text segs s :
  (forall i j c, In (SMatch i j c) segs -> rewritable_url text c = None) ->
  sub_segs env text segs s = (inr (concat (map (seg_text text) segs)), s).
Proof.
  induction segs as [|sg segs IH]; intros H; [done|].
  rewrite sub_segs_cons.
  assert (Hr : repl env text sg s = (inr (seg_text text sg), s)).
  { destruct sg as [i|i j c]; [done|]. apply repl_none. apply (H i j c). by left. }
  rewrite Hr, IH; [done|]. intros i j c Hin. apply (H i j c). by right.
Qed.

(** X5: a text in which neither [http://] nor [https://] occurs comes back
    from [replace_images] unchanged, and the tracker, the stats and the
    files are untouched. *)
Theorem replace_images_no_http env text s :
  find_sub (s2l "http://") text = None -> find_sub (s2l "https://") text = None ->
  replace_images env text s = (inr text, s).
Proof.
  intros H1 H2. rewrite replace_images_sub, sub_segs_no_url.
  - by rewrite scan_cover.
  - intros i j c _. by apply rewritable_url_no_http.
Qed.

Lemma replace_images_no_http_witness :
  find_sub (s2l "http://") no_http_text = None /\ find_sub (s2l "https://") no_http_text = None /\
  replace_images env_offline no_http_text sample_st = (inr no_http_text, sample_st).
Proof.
  split; [vm_compute; reflexivity|]. split; [vm_compute; reflexivity|].
  apply replace_images_no_http; vm_compute; reflexivity.
Defined.

Lemma ts_le_cases a b : ts_le a b -> ts_ltb a b = true \/ ts_eqb a b = true.
Proof.
  destruct a as [x|], b as [y|]; simpl; try tauto.
  intros H. destruct (Z.lt_ge_cases x y) as [H'|H']; [left|right]; [by apply Z.ltb_lt|apply Z.eqb_eq; lia].
Qed.

Lemma key_le_antisym_idx x y : key_le x y -> key_le y x -> x.1.2 = y.1.2.
Proof.
  destruct x as [[ta ia] ca], y as [[tb ib] cb]; simpl.
  destruct ta as [a|], tb as [b|]; simpl; rewrite ?Z.ltb_lt, ?Z.eqb_eq; intuition (try discriminate; try lia).
Qed.

Lemma index_from_sorted_R {A} (R : relation A) n l :
  StronglySorted R l -> StronglySorted (fun a b => a.1 < b.1 /\ R a.2 b.2) (index_from n l).
Proof.
  intros HS. revert n. induction HS as [|x l HS IH Hx]; intros n; simpl; constructor; [apply IH|].
  apply Forall_forall. intros [i y] Hy. apply index_from_lookup in Hy as [Hle Hy]. simpl.
  split; [lia|]. rewrite Forall_forall in Hx. apply Hx. by eapply list_elem_of_lookup_2.
Qed.

Lemma sort_comments_sorted fromiso cs :
  StronglySorted (fun a b => ts_le (comment_ts fromiso a) (comment_ts fromiso b)) (sort_comments fromiso cs).
Proof.
  set (key := comment_ts fromiso).
  set (tag := fun '(idx, c) => (comment_ts fromiso c, idx, c) : ts * nat * Comment).
  set (I := map tag (index_from 0 cs)).
  assert (HT : Total key_le) by exact key_le_total.
  assert (HTr : Transitive key_le) by exact key_le_trans.
  assert (Hout : sort_comments fromiso cs = map snd (merge_sort key_le I)) by (apply map_ext; by intros [[? ?] ?]).
  assert (HwfI : Forall (fun e => e.1.1 = key e.2) I).
  { apply Forall_forall. intros e He. apply list_elem_of_In, in_map_iff in He as ([? ?] & <- & _). done. }
  assert (HwfS : Forall (fun e => e.1.1 = key e.2) (merge_sort key_le I)) by (by rewrite merge_sort_Permutation).
  rewrite Hout. refine (StronglySorted_map_Forall key_le _ _ snd _ _ HwfS _).
  - intros x y Hx Hy Hxy. apply key_le_ts in Hxy. simpl. by rewrite <- Hx, <- Hy.
  - assert (Hs : Sorted key_le (merge_sort key_le I)) by (apply Sorted_merge_sort; apply _).
    by apply Sorted_StronglySorted.
Qed.

(** X6: sorting already sorted comments changes nothing: [sort_comments] is
    idempotent. *)
Theorem sort_comments_idempotent fromiso cs :
  sort_comments fromiso (sort_comments fromiso cs) = sort_comments fromiso cs.
Proof.
  pose proof (sort_comments_sorted fromiso cs) as Hord.
  set (out := sort_comments fromiso cs) in *. clearbody out.
  set (tag := fun '(idx, c) => (comment_ts fromiso c, idx, c) : ts * nat * Comment).
  set (I := map tag (index_from 0 out)).
  assert (HT : Total key_le) by exact key_le_total.
  assert (HTr : Transitive key_le) by exact key_le_trans.
  assert (Hout : sort_comments fromiso out = map snd (merge_sort key_le I)) by (apply map_ext; by intros [[? ?] ?]).
  assert (HI : StronglySorted key_le I).
  { refine (StronglySorted_map_Forall _ key_le (fun _ => True) tag _ _ (Forall_true _ _ (fun _ => Logic.I)) (index_from_sorted_R _ 0 out Hord)).
    intros [i a] [j b] _ _ [Hij Hab]. simpl in *.
    destruct (ts_le_cases _ _ Hab) as [H|H]; [left; exact H|right; split; [exact H|lia]]. }
  assert (Huniq : forall x y, x ∈ I -> y ∈ I -> x.1.2 = y.1.2 -> x = y).
  { intros x y Hx Hy Hxy.
    apply list_elem_of_In, in_map_iff in Hx as ([i c] & <- & Hx).
    apply list_elem_of_In, in_map_iff in Hy as ([j d] & <- & Hy).
    simpl in Hxy. subst j. apply list_elem_of_In, index_from_lookup in Hx, Hy.
    destruct Hx as [_ Hx], Hy as [_ Hy]. rewrite Hx in Hy. by injection Hy as ->. }
  assert (Hms : merge_sort key_le I = I).
  { apply (StronglySorted_unique_strong key_le).
    - intros x y Hx Hy Hxy Hyx. rewrite merge_sort_Permutation in Hx.
      apply Huniq; [done|done|]. by apply key_le_antisym_idx.
    - assert (Hs : Sorted key_le (merge_sort key_le I)) by (apply Sorted_merge_sort; apply _).
      by apply Sorted_StronglySorted.
    - exact HI.
    - apply merge_sort_Permutation. }
  rewrite Hout, Hms. subst I. rewrite map_map.
  rewrite <- (map_snd_index_from 0 out) at 2. apply map_ext. by intros [? ?].
Qed.

Lemma StronglySorted_le_lt (l : list nat) : StronglySorted le l -> NoDup l -> StronglySorted lt l.
Proof.
  induction 1 as [|x l HS IH Hx]; intros Hnd; constructor.
  - apply IH. by inversion Hnd.
  - inversion Hnd as [|? ? Hnin Hnd']; subst. rewrite Forall_forall in Hx |- *.
    intros y Hy. assert (x <> y) by (intros ->; contradiction). specialize (Hx y Hy). lia.
Qed.

Lemma sorted_set_spec (l : list nat) :
  StronglySorted lt (merge_sort (≤) (remove_dups l)) /\
  (forall n, n ∈ merge_sort (≤) (remove_dups l) <-> n ∈ l).
Proof.
  split.
  - apply StronglySorted_le_lt.
    + apply Sorted_StronglySorted; [apply _|]. apply Sorted_merge_sort. apply _.
    + rewrite merge_sort_Permutation. apply NoDup_remove_dups.
  - intros n. rewrite merge_sort_Permutation. apply elem_of_remove_dups.
Qed.

Lemma foldl_related_step_in text nums owner repo acc segs n :
  n ∈ foldl (related_step text nums owner repo) acc segs -> n ∈ acc \/ n ∈ nums.
Proof.
  revert acc; induction segs as [|sg segs IH]; intros acc; simpl; [auto|].
  intros H. destruct (IH _ H) as [H'|H']; [|auto].
  destruct sg as [i|i j c]; simpl in H'; [auto|].
  destruct (match group text c fix_owner, group text c fix_repo with
            | Some (_ :: _), Some (_ :: _) => _ | _, _ => false end); [auto|].
  case_bool_decide; [|auto].
  apply elem_of_app in H' as [H'|H']; [auto|]. apply list_elem_of_singleton in H' as ->. auto.
Qed.

(** X7: [find_related_issues] returns a strictly increasing list (sorted, no
    repetition) of numbers taken from [issue_numbers]. *)
Theorem find_related_issues_sorted_subset pr_body issue_numbers owner repo :
  let r := find_related_issues pr_body issue_numbers owner repo in
  StronglySorted lt r /\ (forall n, n ∈ r -> n ∈ issue_numbers).
Proof.
  unfold find_related_issues. destruct pr_body as [|x b]; [split; [constructor|intros n Hn; by apply elem_of_nil in Hn]|].
  cbv zeta. destruct (sorted_set_spec (foldl (related_step (x :: b) issue_numbers owner repo) []
                                            (finditer ISSUE_FIX_PATTERN (x :: b)))) as [HS Hin].
  split; [exact HS|]. intros n Hn. apply Hin in Hn.
  apply foldl_related_step_in in Hn as [Hn|Hn]; [by apply elem_of_nil in Hn|exact Hn].
Qed.

Lemma candidate_urls_shape_witness :
  candidate_urls gh_asset_url sample_st =
    (inr [gh_asset_url; gh_asset_url ++ s2l "?download=1"], sample_st) /\
  (sample_st = sample_st /\
   ([gh_asset_url; gh_asset_url ++ s2l "?download=1"] = [gh_asset_url] \/
    exists sep, (sep = s2l "?" \/ sep = s2l "&") /\
      [gh_asset_url; gh_asset_url ++ s2l "?download=1"] = [gh_asset_url; gh_asset_url ++ sep ++ s2l "download=1"] /\
      is_user_attachment gh_asset_url sample_st = (inr true, sample_st))).
Proof.
  split; [vm_compute; reflexivity|].
  apply candidate_urls_shape. vm_compute. reflexivity.
Defined.

Lemma download_image_existing_witness :
  path_exists (st_fs st_with_file) sample_file = true /\
  download_image env_offline sample_url sample_file None st_with_file =
    (inr true, log_download sample_url st_with_file).
Proof. split; [reflexivity|]. apply download_image_existing. reflexivity. Defined.

Lemma download_image_true_exists_witness :
  download_image env_up sample_url sample_file None sample_st =
    (inr true, snd (download_image env_up sample_url sample_file None sample_st)) /\
  (fs_exists (st_fs (snd (download_image env_up sample_url sample_file None sample_st))) sample_file = true \/
   (dir_exists (st_fs sample_st) sample_file = true /\
    st_fs (snd (download_image env_up sample_url sample_file None sample_st)) = st_fs sample_st)).
Proof.
  split; [vm_compute; reflexivity|].
  apply (download_image_true_exists env_up sample_url sample_file None sample_st). vm_compute. reflexivity.
Defined.

Lemma find_related_issues_sorted_subset_witness :
  find_related_issues fix_body [1; 2; 3] (s2l "o") (s2l "r") = [1; 2] /\
  (StronglySorted lt (find_related_issues fix_body [1; 2; 3] (s2l "o") (s2l "r")) /\
   (forall n, n ∈ find_related_issues fix_body [1; 2; 3] (s2l "o") (s2l "r") -> n ∈ [1; 2; 3])).
Proof. split; [vm_compute; reflexivity|]. apply find_related_issues_sorted_subset. Defined.

(** ** Relative paths: [os.path.relpath] and [Path.resolve] *)

Lemma contains_char_false c s : contains_char c s = false -> ~ In c s.
Proof.
  intros H Hin. unfold contains_char in H.
  assert (existsb (ceq c) s = true) by (apply existsb_exists; exists c; split; [done|by apply ceq_true]).
  congruence.
Qed.

Lemma contains_char_true c s : contains_char c s = true -> In c s.
Proof.
  unfold contains_char. intros H. apply existsb_exists in H as (x & Hx & E).
  apply ceq_true in E. by subst.
Qed.

Lemma good_seg_spec x :
  good_seg x = true ->
  x <> [] /\ x <> s2l "." /\ x <> s2l ".." /\ ~ In "/"%char x.
Proof.
  unfold good_seg. rewrite !andb_true_iff, !negb_true_iff.
  intros [[[H1 H2] H3] H4].
  repeat split; try (intros ->; rewrite str_eqb_refl in *; discriminate).
  by apply contains_char_false.
Qed.

Lemma common_prefix_len_spec (a b : path) :
  take (common_prefix_len a b) a = take (common_prefix_len a b) b /\
  common_prefix_len a b <= length a /\ common_prefix_len a b <= length b.
Proof.
  revert b; induction a as [|x a IH]; intros [|y b]; simpl; try (split; [done|lia]).
  destruct (str_eqb x y) eqn:E; simpl; [|split; [done|lia]].
  apply str_eqb_true in E as ->. destruct (IH b) as (H1 & H2 & H3).
  split; [by rewrite H1|lia].
Qed.

Lemma common_prefix_len_app (o a b : path) :
  common_prefix_len (o ++ a) (o ++ b) = length o + common_prefix_len a b.
Proof. induction o as [|x o IH]; simpl; [done|]. by rewrite str_eqb_refl, IH. Qed.

Lemma split_slash_acc_app cur x s :
  ~ In "/"%char x -> split_slash_acc cur (x ++ s) = split_slash_acc (rev x ++ cur) s.
Proof.
  revert cur; induction x as [|c x IH]; intros cur Hx; simpl; [done|].
  destruct (ceq c "/"%char) eqn:E.
  - apply ceq_true in E. subst. exfalso. apply Hx. by left.
  - rewrite IH by (intros H; apply Hx; by right). by rewrite <- app_assoc.
Qed.

Lemma split_slash_acc_slash cur s :
  split_slash_acc cur ("/"%char :: s) = rev cur :: split_slash_acc [] s.
Proof. reflexivity. Qed.

Lemma split_slash_noslash x : ~ In "/"%char x -> split_slash x = [x].
Proof.
  intros Hx. unfold split_slash. rewrite <- (app_nil_r x) at 1.
  rewrite split_slash_acc_app by done. simpl. by rewrite app_nil_r, rev_involutive.
Qed.

Lemma split_join (l : list str) :
  Forall (fun x => ~ In "/"%char x) l -> l <> [] -> split_slash (join_slash l) = l.
Proof.
  induction l as [|x l IH]; [congruence|]. intros Hall _.
  inversion Hall as [|? ? Hx Hl]; subst. destruct l as [|y l].
  - by apply split_slash_noslash.
  - cbn [join_slash]. change (s2l "/") with ["/"%char]. simpl app at 2.
    unfold split_slash. rewrite split_slash_acc_app by done.
    rewrite split_slash_acc_slash, app_nil_r, rev_involutive.
    f_equal. apply IH; [done|discriminate].
Qed.

Lemma normalize_dotdots m acc rest :
  normalize_acc acc (repeat (s2l "..") m ++ rest) = normalize_acc (drop m acc) rest.
Proof.
  revert acc; induction m as [|m IH]; intros acc; [by rewrite drop_0|].
  simpl. rewrite IH. destruct acc; simpl; [by rewrite drop_nil|done].
Qed.

Lemma normalize_good acc rest :
  Forall (fun x => good_seg x = true) rest -> normalize_acc acc rest = rev acc ++ rest.
Proof.
  revert acc; induction rest as [|x rest IH]; intros acc Hall; [simpl; by rewrite app_nil_r|].
  cbn [normalize_acc].
  inversion Hall as [|? ? Hx Hr]; subst.
  unfold good_seg in Hx. rewrite !andb_true_iff, !negb_true_iff in Hx.
  destruct Hx as [[[H1 H2] H3] _]. rewrite H1, H2, H3. cbn [negb orb].
  rewrite IH by done. simpl. by rewrite <- app_assoc.
Qed.

Lemma repeat_noslash n : Forall (fun x => ~ In "/"%char x) (repeat (s2l "..") n).
Proof.
  apply Forall_forall. intros x Hx. apply list_elem_of_In, repeat_spec in Hx as ->.
  simpl. intros [H|[H|[]]]; discriminate.
Qed.

Lemma join_slash_not_abs (x : str) (l : list str) :
  x <> [] -> ~ In "/"%char x -> startswith (join_slash (x :: l)) (s2l "/") = false.
Proof.
  intros Hne Hs. destruct x as [|c x]; [done|].
  assert (Hc : c <> "/"%char) by (intros ->; apply Hs; by left).
  change (s2l "/") with ["/"%char].
  destruct l; cbn [join_slash app startswith]; unfold ceq;
    destruct (ascii_dec c "/"); [contradiction| |contradiction|]; reflexivity.
Qed.

(** [Path(start / relpath(p, start)).resolve()] is [p] when the segments
    of [p] past the common prefix are ordinary names. *)
Lemma resolve_in_relpath (p start : path) :
  Forall (fun x => good_seg x = true) (drop (common_prefix_len start p) p) ->
  resolve_in start (relpath p start) = p.
Proof.
  intros Hp. unfold resolve_in, relpath.
  destruct (common_prefix_len_spec start p) as (Ht & Hi1 & Hi2).
  set (i := common_prefix_len start p) in *.
  destruct (repeat (s2l "..") (length start - i) ++ drop i p) as [|x rel] eqn:E.
  - apply app_eq_nil in E as [E1 E2].
    apply (f_equal length) in E1, E2. rewrite repeat_length in E1. rewrite length_drop in E2.
    simpl in E1, E2.
    replace (split_slash (s2l ".")) with [s2l "."] by reflexivity. simpl.
    rewrite rev_involutive.
    rewrite <- (take_ge start i), <- (take_ge p i) by lia. done.
  - assert (Hx : x <> [] /\ ~ In "/"%char x).
    { destruct (length start - i) as [|k]; cbn [repeat app] in E.
      - rewrite E in Hp. inversion Hp as [|? ? Hg]; subst. apply good_seg_spec in Hg. tauto.
      - injection E as <- _. split; [discriminate|]. intros [H|[H|[]]]; discriminate. }
    rewrite join_slash_not_abs by tauto. cbv iota.
    rewrite <- E. rewrite split_join.
    + rewrite normalize_dotdots, normalize_good by done.
      rewrite rev_drop_rev. replace (length start - (length start - i)) with i by lia.
      by rewrite Ht, take_drop.
    + apply Forall_app. split; [apply repeat_noslash|].
      eapply Forall_impl; [exact Hp|]. intros y Hy. apply good_seg_spec in Hy. tauto.
    + rewrite E. discriminate.
Qed.

(** X8: [os.path.relpath] as used by the export, read back the way the
    cleanup resolves links ([(md.parent / rel).resolve()]), gives back the
    original path whenever its segments are ordinary names. *)
Theorem relpath_resolve_roundtrip (p start : path) :
  Forall (fun x => good_seg x = true) p -> resolve_in start (relpath p start) = p.
Proof. intros Hp. apply resolve_in_relpath. by apply Forall_drop. Qed.

Lemma relpath_resolve_roundtrip_witness :
  Forall (fun x => good_seg x = true) sample_file /\
  resolve_in (md_dir sample_tracker) (relpath sample_file (md_dir sample_tracker)) = sample_file.
Proof.
  assert (H : Forall (fun x => good_seg x = true) sample_file) by (repeat constructor).
  split; [exact H|]. exact (relpath_resolve_roundtrip _ _ H).
Defined.

(** ** Missing attachments: where download_attachments.py writes *)

Lemma In_drop_sub {A} (x : A) n (l : list A) : In x (drop n l) -> In x l.
Proof. rewrite <- (take_drop n l) at 2. intros H. apply in_or_app. by right. Qed.

Lemma lower_char_slash c : lower_char c = "/"%char -> c = "/"%char.
Proof.
  destruct c as [[] [] [] [] [] [] [] []]; vm_compute;
    first [reflexivity | intros H; discriminate H].
Qed.

Lemma lower_noslash e : ~ In "/"%char e -> ~ In "/"%char (lower e).
Proof.
  unfold lower. intros He Hin. apply in_map_iff in Hin as (c & Hc & Hin).
  apply lower_char_slash in Hc. subst. contradiction.
Qed.

Lemma find_char_some c s j : find_char c s = Some j -> j < length s /\ ~ In c (take j s).
Proof.
  revert j; induction s as [|x s IH]; intros j; simpl; [discriminate|].
  destruct (ceq x c) eqn:E.
  - intros [= <-]. split; [lia|]. simpl. tauto.
  - destruct (find_char c s) as [n|] eqn:E2; simpl; [|discriminate].
    intros [= <-]. destruct (IH n eq_refl) as [H1 H2]. split; [lia|].
    simpl. intros [->|H]; [|by apply H2].
    assert (ceq c c = true) by (by apply ceq_true). congruence.
Qed.

Lemma find_char_none c s : find_char c s = None -> ~ In c s.
Proof.
  induction s as [|x s IH]; simpl; [tauto|].
  destruct (ceq x c) eqn:E; [discriminate|].
  destruct (find_char c s); simpl; [discriminate|]. intros _ [->|H]; [|by apply IH].
  assert (ceq c c = true) by (by apply ceq_true). congruence.
Qed.

Lemma basename_noslash p : ~ In "/"%char (basename p).
Proof.
  unfold basename, rfind_char.
  destruct (find_char "/"%char (rev p)) as [j|] eqn:E.
  - apply find_char_some in E as [Hj Hn]. rewrite length_rev in Hj.
    replace (S (length p - 1 - j)) with (length p - j) by lia.
    intros Hin. apply Hn. change (take j (rev p)) with (firstn j (rev p)).
    rewrite firstn_rev, <- in_rev. exact Hin.
  - apply find_char_none in E. intros Hin. apply E. rewrite <- in_rev. exact Hin.
Qed.

Lemma splitext_snd_sub p c : In c (snd (splitext p)) -> In c p.
Proof.
  unfold splitext. destruct (rfind_char _ _) as [d|]; [|simpl; tauto].
  destruct (existsb _ _); simpl; [apply In_drop_sub|tauto].
Qed.

Lemma digits_noslash x : Forall (fun c => is_ascii_digit c = true) x -> ~ In "/"%char x.
Proof. intros H Hin. rewrite Forall_forall in H. specialize (H _ (proj2 (list_elem_of_In _ _) Hin)). discriminate. Qed.

Lemma safe_noslash x : Forall (fun c => safe_char c = true) x -> ~ In "/"%char x.
Proof. intros H Hin. rewrite Forall_forall in H. specialize (H _ (proj2 (list_elem_of_In _ _) Hin)). discriminate. Qed.

Lemma good_seg_digit_head d x :
  is_ascii_digit d = true -> ~ In "/"%char (d :: x) -> good_seg (d :: x) = true.
Proof.
  intros Hd Hx. unfold good_seg.
  assert (Hdot : ceq d "."%char = false).
  { destruct (ceq d "."%char) eqn:E; [|done]. apply ceq_true in E. subst. discriminate. }
  assert (E1 : str_eqb (d :: x) [] = false) by reflexivity.
  assert (E2 : str_eqb (d :: x) (s2l ".") = false) by (simpl; by rewrite Hdot).
  assert (E3 : str_eqb (d :: x) (s2l "..") = false) by (simpl; by rewrite Hdot).
  assert (E4 : contains_char "/"%char (d :: x) = false).
  { destruct (contains_char "/"%char (d :: x)) eqn:E; [|done].
    apply contains_char_true in E. contradiction. }
  by rewrite E1, E2, E3, E4.
Qed.

Lemma str_of_nat_good n : good_seg (str_of_nat n) = true.
Proof.
  pose proof (uint_chars_digits (Nat.to_uint n)) as Hd. fold (str_of_nat n) in Hd.
  destruct (str_of_nat n) as [|d x] eqn:E.
  - exfalso. pose proof (py_int_str_of_nat n) as Hp. rewrite E in Hp. simpl in Hp. subst n. discriminate.
  - inversion Hd; subst. apply good_seg_digit_head; [done|]. by apply digits_noslash.
Qed.

(** Every file name [filename_from_url] produces is one ordinary path
    segment starting with a digit. *)
Lemma filename_from_url_good url k f :
  filename_from_url url k = Some f -> good_seg f = true.
Proof.
  unfold filename_from_url. destruct (urlsplit url) as [parsed|]; [|discriminate].
  set (base := match basename (sr_path parsed) with [] => s2l "image" | _ => basename (sr_path parsed) end).
  assert (Hb : ~ In "/"%char base).
  { subst base. destruct (basename (sr_path parsed)) eqn:E.
    - simpl. intros H. repeat destruct H as [H|H]; try discriminate; done.
    - rewrite <- E. apply basename_noslash. }
  destruct (splitext base) as [nm ex] eqn:Esp. intros [= <-].
  pose proof (format_03d_digits k) as Hd. destruct (format_03d_length k) as [Hl _].
  destruct (format_03d k) as [|d ds] eqn:Ef; [simpl in Hl; lia|].
  inversion Hd; subst.
  apply good_seg_digit_head; [done|].
  assert (Hex : ~ In "/"%char ex).
  { intros H. apply Hb. apply (splitext_snd_sub base). by rewrite Esp. }
  destruct (sanitize_name_safe nm) as [_ Hsafe].
  rewrite app_comm_cons. intros Hin. apply in_app_or in Hin as [Hin|Hin].
  - revert Hin. by apply digits_noslash.
  - simpl in Hin. destruct Hin as [Hin|Hin]; [discriminate|].
    apply in_app_or in Hin as [Hin|Hin].
    + revert Hin. apply safe_noslash. by apply Forall_take.
    + revert Hin. destruct (_ || _); [simpl; intros H; repeat destruct H as [H|H]; try discriminate; done|].
      by apply lower_noslash.
Qed.

Lemma replace_all_aux_char fuel c0 c1 s :
  length s < fuel ->
  replace_all_aux fuel [c0] [c1] s = map (fun c => if ceq c c0 then c1 else c) s.
Proof.
  revert fuel; induction s as [|x s IH]; intros [|fuel] Hf; simpl in *; try lia; [done|].
  assert (Hs : startswith s [] = true) by (by destruct s).
  rewrite Hs, ?andb_true_r. destruct (ceq x c0); simpl; rewrite ?drop_0; f_equal; apply IH; lia.
Qed.

Lemma slugify_repo_map repo :
  slugify_repo repo = map (fun c => if ceq c "/"%char then "_"%char else c) repo.
Proof. unfold slugify_repo, replace_all. cbn [s2l list_ascii_of_string]. apply replace_all_aux_char. lia. Qed.

Lemma slugify_repo_good repo : contains_char "/"%char repo = true -> good_seg (slugify_repo repo) = true.
Proof.
  intros H. apply contains_char_true in H. rewrite slugify_repo_map.
  assert (Hu : In "_"%char (map (fun c => if ceq c "/"%char then "_"%char else c) repo)).
  { apply in_map_iff. exists "/"%char. split; [|done]. by rewrite (proj2 (ceq_true _ _) eq_refl). }
  assert (Hn : ~ In "/"%char (map (fun c => if ceq c "/"%char then "_"%char else c) repo)).
  { intros Hin. apply in_map_iff in Hin as (c & Hc & _).
    destruct (ceq c "/"%char) eqn:E; [discriminate|]. subst. discriminate. }
  revert Hu Hn. generalize (map (fun c => if ceq c "/"%char then "_"%char else c) repo) as x.
  intros x Hu Hn. unfold good_seg.
  destruct (str_eqb x []) eqn:E1; [apply str_eqb_true in E1; subst; destruct Hu|].
  destruct (str_eqb x (s2l ".")) eqn:E2;
    [apply str_eqb_true in E2; subst; simpl in Hu; destruct Hu as [Hu|[]]; discriminate|].
  destruct (str_eqb x (s2l "..")) eqn:E3;
    [apply str_eqb_true in E3; subst; simpl in Hu; destruct Hu as [Hu|[Hu|[]]]; discriminate|].
  destruct (contains_char "/"%char x) eqn:E4; [apply contains_char_true in E4; contradiction|done].
Qed.

Lemma join_slash_head x l : exists t, join_slash (x :: l) = x ++ t.
Proof. destruct l; simpl; [exists []; by rewrite app_nil_r|eauto]. Qed.

Lemma filter_good (l : list str) :
  Forall (fun x => good_seg x = true) l ->
  List.filter (fun x => negb (str_eqb x [] || str_eqb x (s2l "."))) l = l.
Proof.
  induction 1 as [|x l Hx _ IH]; [done|]. cbn [List.filter].
  unfold good_seg in Hx. rewrite !andb_true_iff, !negb_true_iff in Hx.
  destruct Hx as [[[H1 H2] _] _]. rewrite H1, H2. cbn [orb negb]. f_equal. exact IH.
Qed.

Lemma path_div_join base (l : list str) :
  Forall (fun x => good_seg x = true) l -> l <> [] -> path_div base (join_slash l) = base ++ l.
Proof.
  intros Hall Hne. unfold path_div.
  destruct l as [|x l]; [congruence|].
  inversion Hall as [|? ? Hx _]; subst.
  destruct (good_seg_spec x Hx) as (Hx1 & _ & _ & Hx4).
  destruct (join_slash_head x l) as [t Ht].
  assert (Hs : startswith (join_slash (x :: l)) (s2l "/") = false).
  { rewrite Ht. destruct x as [|c x]; [congruence|]. simpl.
    destruct (ceq c "/"%char) eqn:E; [|done]. apply ceq_true in E. subst. exfalso. apply Hx4. by left. }
  rewrite Hs. unfold path_parts. rewrite split_join; [by rewrite filter_good|..|congruence].
  eapply Forall_impl; [exact Hall|]. intros y Hy. apply good_seg_spec in Hy. tauto.
Qed.

Lemma path_div_good base x : good_seg x = true -> path_div base x = base ++ [x].
Proof. intros H. apply (path_div_join base [x]); [by constructor|congruence]. Qed.

Lemma startswith_dds s : startswith s (s2l "../") = true -> exists t, s = "."%char :: "."%char :: "/"%char :: t.
Proof.
  destruct s as [|y [|a [|b t]]]; simpl; rewrite ?andb_false_r; try discriminate.
  rewrite !andb_true_iff, !ceq_true. intros (-> & -> & -> & _). eauto.
Qed.

Lemma replace_dds_none fuel new s :
  (forall k, startswith (drop k s) (s2l "../") = false) ->
  replace_all_aux fuel (s2l "../") new s = s.
Proof.
  revert fuel; induction s as [|x s IH]; intros [|fuel] H; [done..|].
  cbn [replace_all_aux]. pose proof (H 0) as H0. change (drop 0 (x :: s)) with (x :: s) in H0.
  rewrite H0. f_equal. apply IH. intros k. exact (H (S k)).
Qed.

Lemma no_dds_cons y s :
  startswith (y :: s) (s2l "../") = false ->
  (forall k, startswith (drop k s) (s2l "../") = false) ->
  forall k, startswith (drop k (y :: s)) (s2l "../") = false.
Proof. intros H0 H [|k]; [exact H0|exact (H k)]. Qed.

Lemma no_dds_noslash s : ~ In "/"%char s -> forall k, startswith (drop k s) (s2l "../") = false.
Proof.
  induction s as [|y s IH]; intros Hs.
  - intros k. by rewrite drop_nil.
  - apply no_dds_cons; [|apply IH; intros H; apply Hs; by right].
    destruct (startswith _ _) eqn:E; [|done].
    apply startswith_dds in E as (t & Et). injection Et as -> ->.
    exfalso. apply Hs. right. right. by left.
Qed.

Lemma no_dds_seg x rest :
  ~ In "/"%char x -> last x <> Some "."%char ->
  (forall k, startswith (drop k rest) (s2l "../") = false) ->
  (exists r', rest = "/"%char :: r') ->
  forall k, startswith (drop k (x ++ rest)) (s2l "../") = false.
Proof.
  intros Hx Hl Hr [r' ->]. induction x as [|y x IH]; [exact Hr|].
  simpl app. apply no_dds_cons.
  - destruct (startswith _ _) eqn:E; [|done].
    apply startswith_dds in E as (t & Et). injection Et as -> Et.
    destruct x as [|z [|w x]]; simpl in Et.
    + discriminate.
    + injection Et as -> _. exfalso. by apply Hl.
    + injection Et as _ -> _. exfalso. apply Hx. right. right. by left.
  - apply IH; [intros H; apply Hx; by right|].
    destruct x as [|z x]; [done|]. rewrite last_cons in Hl.
    destruct (last (z :: x)) eqn:E; [done|]. by apply last_None in E.
Qed.

Lemma no_dds_join (l : list str) :
  Forall (fun x => ~ In "/"%char x) l ->
  Forall (fun x => last x <> Some "."%char) (removelast l) ->
  forall k, startswith (drop k (join_slash l)) (s2l "../") = false.
Proof.
  induction l as [|x l IH]; intros Hs Hl.
  - intros k. change (join_slash []) with (@nil ascii). by rewrite drop_nil.
  - inversion Hs as [|? ? Hx Hs']; subst. destruct l as [|y l].
    + by apply no_dds_noslash.
    + cbn [join_slash]. change (s2l "/" ++ join_slash (y :: l)) with ("/"%char :: join_slash (y :: l)).
      simpl in Hl. inversion Hl as [|? ? Hlx Hl']; subst.
      apply no_dds_seg; [done|done| |eauto].
      apply no_dds_cons; [reflexivity|]. apply IH; done.
Qed.

Lemma replace_all_dds_prefix s :
  (forall k, startswith (drop k s) (s2l "../") = false) ->
  replace_all (s2l "../") [] (s2l "../" ++ s) = s.
Proof.
  intros H. unfold replace_all.
  change (s2l "../" ++ s) with ("."%char :: "."%char :: "/"%char :: s).
  change (s2l "../") with ["."%char; "."%char; "/"%char].
  cbn iota. cbn [length].
  change (replace_all_aux _ ?o ?n (?x :: ?t)) with
    (if startswith (x :: t) o then n ++ replace_all_aux (S (S (S (length s)))) o n (drop (length o) (x :: t))
     else x :: replace_all_aux (S (S (S (length s)))) o n t).
  assert (Hsw : startswith ("."%char :: "."%char :: "/"%char :: s) ["."%char; "."%char; "/"%char] = true)
    by (by destruct s).
  rewrite Hsw. apply replace_dds_none. exact H.
Qed.

Lemma digits_last x : Forall (fun c => is_ascii_digit c = true) x -> last x <> Some "."%char.
Proof.
  intros H E. apply last_Some_elem_of in E. rewrite Forall_forall in H.
  specialize (H _ E). discriminate.
Qed.

(** When [get_local] reports a URL to [missing_cb], the reported path is
    the relative path of the file name it chose, in the assets directory,
    from the Markdown directory. *)
Lemma get_local_reported env url s rel s' :
  get_local env url s = (inr rel, s') ->
  st_missing_calls s' <> st_missing_calls s ->
  exists f, filename_from_url url (S (counter (st_tracker s))) = Some f /\
    rel = relpath (assets_dir (st_tracker s) ++ [f]) (md_dir (st_tracker s)).
Proof.
  unfold get_local, bind, get, modify, ret, of_option, raise. simpl.
  destruct (url_to_rel (st_tracker s) !! url) eqn:Hm; simpl.
  { intros Heq. injection Heq as _ <-. done. }
  destruct (filename_from_url url (S (counter (st_tracker s)))) as [fn|] eqn:Hfn; simpl; [|discriminate].
  set (s1 := set_stats _ _).
  set (abs := assets_dir (st_tracker s) ++ [fn]).
  destruct (download_image_frame env url abs (token (st_tracker s)) s1) as [fs' Hfr].
  destruct (download_image env url abs (token (st_tracker s)) s1) as [[e|ok] s2] eqn:Hd;
    simpl in Hfr; subst s2; simpl; [discriminate|].
  destruct ok; simpl.
  - destruct (str_eqb _ _); simpl;
      [destruct (detect_ext_from_file _ _); simpl; [destruct (dir_exists _ _); simpl|]|];
      intros Heq; injection Heq as _ <-; simpl; congruence.
  - destruct (has_missing_cb (st_tracker s)); simpl; intros Heq; injection Heq as <- <-; eauto.
Qed.

(** X9: when an image download fails while an issue or PR is exported and
    the URL is reported to [missing_cb], download_attachments.py later
    writes that attachment to exactly the file the Markdown link points to:
    [out_root / repo_slug / local_path] of the reported row, and the link
    [rel] resolved from the Markdown file's directory, are both the assets
    directory of the item followed by the file name [filename_from_url]
    chose. *)
Theorem missing_attachment_target env url s rel s' out repo kind kdir num :
  contains_char "/"%char repo = true ->
  kdir = s2l "issues" \/ kdir = s2l "prs" ->
  assets_dir (st_tracker s) = item_assets_dir out repo kdir num ->
  md_dir (st_tracker s) = item_md_dir out repo kdir ->
  get_local env url s = (inr rel, s') ->
  st_missing_calls s' = st_missing_calls s ++ [(url, rel)] ->
  exists f,
    filename_from_url url (S (counter (st_tracker s))) = Some f /\
    attachment_target out (missing_row repo kind num url rel) = Some (item_assets_dir out repo kdir num ++ [f]) /\
    resolve_in (item_md_dir out repo kdir) rel = item_assets_dir out repo kdir num ++ [f].
Proof.
  intros Hrepo Hk Ha Hm Hg Hmiss.
  destruct (get_local_reported env url s rel s' Hg) as (f & Hf & Hrel).
  { rewrite Hmiss. intros E. apply (f_equal length) in E. rewrite length_app in E. simpl in E. lia. }
  exists f. split; [done|].
  pose proof (slugify_repo_good repo Hrepo) as Hslug.
  pose proof (str_of_nat_good num) as HN.
  pose proof (filename_from_url_good _ _ _ Hf) as Hfg.
  assert (Hkg : good_seg kdir = true) by (destruct Hk as [-> | ->]; reflexivity).
  assert (HA : item_assets_dir out repo kdir num = out ++ [slugify_repo repo; s2l "assets"; kdir; str_of_nat num]).
  { unfold item_assets_dir. rewrite !path_div_good by done. by rewrite <- !app_assoc. }
  assert (HM : item_md_dir out repo kdir = out ++ [slugify_repo repo; kdir]).
  { unfold item_md_dir. rewrite path_div_good by done. by rewrite <- app_assoc. }
  rewrite Ha, Hm, HA, HM in Hrel. rewrite HA, HM.
  set (slug := slugify_repo repo) in *. set (N := str_of_nat num) in *.
  assert (Hgood : Forall (fun x => good_seg x = true) [s2l "assets"; kdir; N; f])
    by (repeat constructor; done).
  assert (Hcpl : common_prefix_len (out ++ [slug; kdir]) ((out ++ [slug; s2l "assets"; kdir; N]) ++ [f])
                 = length out + 1).
  { rewrite <- app_assoc, common_prefix_len_app. cbn [app common_prefix_len]. rewrite str_eqb_refl.
    destruct Hk as [-> | ->]; reflexivity. }
  assert (Hdrop : drop (length out + 1) ((out ++ [slug; s2l "assets"; kdir; N]) ++ [f])
                  = [s2l "assets"; kdir; N; f]).
  { rewrite <- app_assoc, drop_app_add. reflexivity. }
  split.
  - assert (Hrs : row_get (s2l "repo_slug") (missing_row repo kind num url rel) = Some slug) by reflexivity.
    assert (Hlp : row_get (s2l "local_path") (missing_row repo kind num url rel)
                  = Some (replace_all (s2l "../") [] rel)) by reflexivity.
    unfold attachment_target. rewrite Hrs, Hlp.
    unfold relpath in Hrel. rewrite Hcpl, Hdrop, length_app in Hrel. cbn [length] in Hrel.
    replace (length out + 2 - (length out + 1)) with 1 in Hrel by lia.
    assert (Hrel' : rel = s2l "../" ++ join_slash [s2l "assets"; kdir; N; f]) by (rewrite Hrel; reflexivity).
    rewrite Hrel', replace_all_dds_prefix.
    + rewrite (path_div_good out slug Hslug). rewrite (path_div_join _ _ Hgood) by congruence. by rewrite <- !app_assoc.
    + apply no_dds_join.
      * eapply Forall_impl; [exact Hgood|]. intros y Hy. apply good_seg_spec in Hy. tauto.
      * cbn [removelast]. repeat constructor.
        -- cbv. congruence.
        -- destruct Hk as [-> | ->]; cbv; congruence.
        -- apply digits_last, uint_chars_digits.
  - rewrite Hrel. apply resolve_in_relpath. by rewrite Hcpl, Hdrop.
Qed.

Lemma missing_attachment_target_witness :
  get_local env_offline sample_url sample_st =
    (inr (s2l "../assets/issues/1/001_abc.img"), snd (get_local env_offline sample_url sample_st)) /\
  st_missing_calls (snd (get_local env_offline sample_url sample_st)) =
    st_missing_calls sample_st ++ [(sample_url, s2l "../assets/issues/1/001_abc.img")] /\
  exists f,
    filename_from_url sample_url (S (counter (st_tracker sample_st))) = Some f /\
    attachment_target [s2l "export"]
      (missing_row (s2l "o/r") (s2l "issue") 1 sample_url (s2l "../assets/issues/1/001_abc.img")) =
      Some (item_assets_dir [s2l "export"] (s2l "o/r") (s2l "issues") 1 ++ [f]) /\
    resolve_in (item_md_dir [s2l "export"] (s2l "o/r") (s2l "issues")) (s2l "../assets/issues/1/001_abc.img") =
      item_assets_dir [s2l "export"] (s2l "o/r") (s2l "issues") 1 ++ [f].
Proof.
  split; [vm_compute; reflexivity|]. split; [vm_compute; reflexivity|].
  apply (missing_attachment_target env_offline sample_url sample_st (s2l "../assets/issues/1/001_abc.img")
           (snd (get_local env_offline sample_url sample_st)) [s2l "export"] (s2l "o/r") (s2l "issue")
           (s2l "issues") 1);
    first [reflexivity | left; reflexivity | vm_compute; reflexivity].
Defined.

(** ** What cleanup_img_ext.py leaves alone *)

Lemma fs_read_rename_other (fs : fsys) (src dst q : path) :
  q <> src -> q <> dst -> fs_read (fs_rename fs src dst) q = fs_read fs q.
Proof.
  intros Hs Hd. unfold fs_rename. destruct (fs_read fs src) as [data|]; [|done].
  unfold fs_read. induction fs as [|[p d] fs IH]; [done|].
  cbn [List.filter fst]. unfold path_eqb in *.
  destruct (decide (p = dst)) as [->|Hpd].
  - rewrite (bool_decide_true (dst = dst)) by done. simpl. rewrite IH.
    unfold path_eqb. rewrite (bool_decide_false (dst = q)) by congruence. done.
  - rewrite bool_decide_false by done. simpl. unfold path_eqb.
    destruct (decide (p = src)) as [->|Hps].
    + rewrite (bool_decide_true (src = src)) by done. simpl.
      rewrite (bool_decide_false (dst = q)), (bool_decide_false (src = q)) by congruence. exact IH.
    + rewrite (bool_decide_false (p = src)) by done. simpl.
      destruct (bool_decide (p = q)); [done|exact IH].
Qed.

Lemma fs_read_write_other (fs : fsys) (p : path) (d : str) (q : path) :
  q <> p -> fs_read (fs_write fs p d) q = fs_read fs q.
Proof.
  intros Hq. unfold fs_write. destruct (fs_exists fs p) eqn:E; [by apply fs_read_overwrite_other|].
  unfold fs_read. induction fs as [|[r x] fs IH]; simpl.
  - unfold path_eqb. by rewrite bool_decide_false by congruence.
  - destruct (path_eqb r q); [done|]. apply IH.
    unfold fs_exists, fs_read in *. simpl in E. destruct (path_eqb r p); [discriminate|exact E].
Qed.

Lemma update_mds_other set_order rewrites (mds : list path) (fs : fsys) (q : path) :
  ~ In q mds -> fs_read (update_mds set_order rewrites mds fs) q = fs_read fs q.
Proof.
  revert fs; induction mds as [|md mds IH]; intros fs Hq; [done|].
  cbn [update_mds]. rewrite IH by (intros H; apply Hq; by right).
  match goal with |- context [if ?b then fs else fs_write fs md ?u] => destruct b end; [done|].
  apply fs_read_write_other. intros ->. apply Hq. by left.
Qed.

Lemma sniff_cleanup_ext data e : sniff_cleanup data = Some e -> In e (drop 2 cleanup_suffixes).
Proof.
  unfold sniff_cleanup.
  repeat match goal with |- context [if ?b then _ else _] => destruct b end;
    intros H; try discriminate; injection H as <-; simpl; tauto.
Qed.

Lemma detect_ext_ext fs p e : detect_ext fs p = Some e -> In e (drop 2 cleanup_suffixes).
Proof. unfold detect_ext. destruct (fs_read fs p); [apply sniff_cleanup_ext|discriminate]. Qed.

Lemma rename_imgs_other root imgs (fs : fsys) rewrites (q : path) :
  (forall img, In img imgs -> q <> img /\ forall e, In e (drop 2 cleanup_suffixes) -> q <> with_suffix img e) ->
  fs_read (fst (rename_imgs root imgs fs rewrites)) q = fs_read fs q.
Proof.
  revert fs rewrites; induction imgs as [|img imgs IH]; intros fs rewrites H; [done|].
  cbn [rename_imgs]. destruct (detect_ext fs img) as [e|] eqn:E.
  - rewrite IH by (intros i Hi; apply H; by right).
    destruct (H img (or_introl eq_refl)) as [H1 H2].
    apply fs_read_rename_other; [done|]. apply H2. by apply (detect_ext_ext fs img).
  - apply IH. intros i Hi; apply H; by right.
Qed.

Lemma path_name_with_suffix (p : path) e : p <> [] -> path_name (with_suffix p e) = name_with_suffix (path_name p) e.
Proof.
  intros Hp. destruct p as [|x p]; [congruence|].
  unfold with_suffix, path_name at 1. by rewrite last_snoc.
Qed.

Lemma endswith_app (x e : str) : endswith (x ++ e) e = true.
Proof. unfold endswith. rewrite rev_app_distr. apply startswith_prefix. by apply prefix_app_r. Qed.

Lemma endswith_name_with_suffix n e : endswith (name_with_suffix n e) e = true.
Proof. unfold name_with_suffix. destruct (name_suffix_index n); apply endswith_app. Qed.

Lemma is_under_with_suffix root (p : path) e : is_under root p = true -> is_under root (with_suffix p e) = true.
Proof.
  unfold is_under. rewrite !andb_true_iff, !Nat.ltb_lt, !bool_decide_eq_true.
  intros [Hl Ht]. destruct p as [|x p]; [simpl in Hl; lia|].
  unfold with_suffix.
  assert (Hr : removelast (x :: p) = take (length p) (x :: p)).
  { rewrite removelast_firstn_len. reflexivity. }
  rewrite Hr, length_app, length_take, take_app_le by (rewrite length_take; simpl in *; lia).
  rewrite take_take. simpl length in *.
  split; [simpl; lia|]. rewrite <- Ht at 2. f_equal. lia.
Qed.

Lemma rglob_files_spec fs root sfx p :
  In p (rglob_files fs root sfx) -> endswith (path_name p) sfx = true /\ is_under root p = true.
Proof. unfold rglob_files. rewrite !List.filter_In. tauto. Qed.

(** X10: cleanup_img_ext.py never changes, creates or deletes a file that
    lies outside the export root, nor one whose name ends in none of
    [.img], [.md], [.png], [.jpg], [.gif], [.webp]. *)
Theorem cleanup_main_untouched set_order root (fs : fsys) (q : path) :
  is_under root q = false \/
  Forall (fun e => endswith (path_name q) e = false) cleanup_suffixes ->
  fs_read (cleanup_main set_order root fs) q = fs_read fs q.
Proof.
  intros Hq. unfold cleanup_main.
  destruct (negb (path_exists fs root)); [done|].
  destruct (rename_imgs root (rglob_files fs root (s2l ".img")) fs []) as [fs1 rw] eqn:Er.
  rewrite update_mds_other.
  - change fs1 with (fst (fs1, rw)). rewrite <- Er. apply rename_imgs_other.
    intros img Hi. apply rglob_files_spec in Hi as [Hs Hu].
    assert (Himg : img <> []) by (intros ->; discriminate).
    split.
    + intros ->. destruct Hq as [Hq|Hq]; [congruence|].
      rewrite Forall_forall in Hq.
      assert (Hin : s2l ".img" ∈ cleanup_suffixes) by (apply list_elem_of_In; by left).
      specialize (Hq _ Hin). congruence.
    + intros e He ->. destruct Hq as [Hq|Hq].
      * rewrite is_under_with_suffix in Hq by done. discriminate.
      * rewrite path_name_with_suffix in Hq by done.
        rewrite Forall_forall in Hq.
        assert (Hin : e ∈ cleanup_suffixes).
        { apply list_elem_of_In. rewrite <- (take_drop 2 cleanup_suffixes). apply in_or_app. by right. }
        specialize (Hq e Hin). by rewrite endswith_name_with_suffix in Hq.
  - intros Hi. apply rglob_files_spec in Hi as [Hs Hu].
    destruct Hq as [Hq|Hq]; [congruence|].
    rewrite Forall_forall in Hq.
    assert (Hin : s2l ".md" ∈ cleanup_suffixes) by (apply list_elem_of_In; right; by left).
    specialize (Hq _ Hin). congruence.
Qed.

Lemma cleanup_main_untouched_witness :
  Forall (fun e => endswith (path_name (map s2l ["export"; "notes.txt"]%string)) e = false) cleanup_suffixes /\
  fs_read (cleanup_main remove_dups [s2l "export"] ((map s2l ["export"; "notes.txt"]%string, s2l "hi") :: stale_fs))
    (map s2l ["export"; "notes.txt"]%string) = Some (s2l "hi").
Proof.
  assert (H : Forall (fun e => endswith (path_name (map s2l ["export"; "notes.txt"]%string)) e = false) cleanup_suffixes)
    by (repeat constructor).
  split; [exact H|].
  rewrite (cleanup_main_untouched remove_dups [s2l "export"] _ _ (or_intror H)). reflexivity.
Defined.

Lemma pr_step_app text nums acc sg :
  pr_step text nums acc sg = acc ++ pr_step text nums [] sg.
Proof.
  destruct sg as [i|i j c]; simpl; [by rewrite app_nil_r|].
  case_bool_decide; [done|by rewrite app_nil_r].
Qed.

Lemma foldl_pr_step_app text nums acc segs :
  foldl (pr_step text nums) acc segs = acc ++ foldl (pr_step text nums) [] segs.
Proof.
  revert acc; induction segs as [|sg segs IH]; intros acc; simpl; [by rewrite app_nil_r|].
  rewrite IH, (IH (pr_step text nums [] sg)), pr_step_app. by rewrite app_assoc.
Qed.

Lemma foldl_pr_step_in text nums segs n :
  n ∈ foldl (pr_step text nums) [] segs -> n ∈ nums.
Proof.
  induction segs as [|sg segs IH] using rev_ind; simpl; [intros H; by apply elem_of_nil in H|].
  rewrite foldl_app. simpl. rewrite pr_step_app. intros H.
  apply elem_of_app in H as [H|H]; [by apply IH|].
  destruct sg as [i|i j c]; simpl in H; [by apply elem_of_nil in H|].
  case_bool_decide as Hin; [|by apply elem_of_nil in H].
  apply list_elem_of_singleton in H as ->. exact Hin.
Qed.

Lemma pr_text_step_app nums owner repo acc text :
  pr_text_step nums owner repo acc text = acc ++ pr_text_step nums owner repo [] text.
Proof.
  destruct text as [|x t]; simpl; [by rewrite app_nil_r|].
  rewrite (foldl_pr_step_app _ _ (foldl _ acc _)), (foldl_pr_step_app _ _ acc).
  rewrite (foldl_pr_step_app _ _ (foldl _ [] _)). by rewrite app_assoc.
Qed.

Lemma pr_text_step_in nums owner repo text n :
  n ∈ pr_text_step nums owner repo [] text -> n ∈ nums.
Proof.
  destruct text as [|x t]; simpl; [intros H; by apply elem_of_nil in H|].
  rewrite foldl_pr_step_app. intros H. apply elem_of_app in H as [H|H]; eapply foldl_pr_step_in; exact H.
Qed.

Lemma foldl_pr_text_concat nums owner repo texts :
  foldl (pr_text_step nums owner repo) [] texts = concat (map (pr_text_step nums owner repo []) texts).
Proof.
  assert (forall acc, foldl (pr_text_step nums owner repo) acc texts
                      = acc ++ concat (map (pr_text_step nums owner repo []) texts)) as H.
  { induction texts as [|t texts IH]; intros acc; simpl; [by rewrite app_nil_r|].
    rewrite IH, pr_text_step_app. by rewrite app_assoc. }
  by rewrite H.
Qed.

Lemma StronglySorted_lt_unique (l1 l2 : list nat) :
  StronglySorted lt l1 -> StronglySorted lt l2 -> (forall n, n ∈ l1 <-> n ∈ l2) -> l1 = l2.
Proof.
  intros H1. revert l2. induction H1 as [|x l1 HS1 IH Hx1]; intros l2 H2 Heq.
  - destruct l2 as [|y l2]; [done|]. exfalso. apply (elem_of_nil y), Heq. left.
  - destruct H2 as [|y l2 HS2 Hy2].
    + exfalso. apply (elem_of_nil x), Heq. left.
    + rewrite Forall_forall in Hx1, Hy2.
      assert (x = y) as <-.
      { assert (x ∈ y :: l2) as Hxin by (apply Heq; left).
        assert (y ∈ x :: l1) as Hyin by (apply Heq; left).
        apply elem_of_cons in Hxin as [->|Hxin]; [done|].
        apply elem_of_cons in Hyin as [->|Hyin]; [done|].
        specialize (Hy2 x Hxin). specialize (Hx1 y Hyin). lia. }
      f_equal. apply IH; [exact HS2|]. intros n. split; intros Hn.
      * assert (n ∈ x :: l2) as Hn' by (apply Heq; right; exact Hn).
        apply elem_of_cons in Hn' as [->|Hn']; [|exact Hn']. specialize (Hx1 x Hn). lia.
      * assert (n ∈ x :: l1) as Hn' by (apply Heq; right; exact Hn).
        apply elem_of_cons in Hn' as [->|Hn']; [|exact Hn']. specialize (Hy2 x Hn). lia.
Qed.

Lemma find_related_prs_elem texts nums owner repo n :
  n ∈ find_related_prs texts nums owner repo <->
  n ∈ concat (map (pr_text_step nums owner repo []) texts).
Proof.
  unfold find_related_prs. cbv zeta. rewrite <- foldl_pr_text_concat.
  apply sorted_set_spec.
Qed.

(** X11: [find_related_prs] returns a strictly increasing list (sorted, no
    repetition) of numbers taken from [pr_numbers]. *)
Theorem find_related_prs_sorted_subset texts pr_numbers owner repo :
  let r := find_related_prs texts pr_numbers owner repo in
  StronglySorted lt r /\ (forall n, n ∈ r -> n ∈ pr_numbers).
Proof.
  cbv zeta. split; [apply sorted_set_spec|].
  intros n Hn. apply find_related_prs_elem, list_elem_of_In, in_concat in Hn as (l & Hl & Hn).
  apply in_map_iff in Hl as (t & <- & _). eapply pr_text_step_in. apply list_elem_of_In. exact Hn.
Qed.

(** X12: a number is in the result of [find_related_prs] exactly when it is
    in the result for one of the texts alone. *)
Theorem find_related_prs_per_text texts pr_numbers owner repo n :
  n ∈ find_related_prs texts pr_numbers owner repo <->
  exists t, t ∈ texts /\ n ∈ find_related_prs [t] pr_numbers owner repo.
Proof.
  rewrite find_related_prs_elem. split.
  - intros Hn. apply list_elem_of_In, in_concat in Hn as (l & Hl & Hn).
    apply in_map_iff in Hl as (t & <- & Ht). exists t. split; [by apply list_elem_of_In|].
    apply find_related_prs_elem. simpl. rewrite app_nil_r. by apply list_elem_of_In.
  - intros (t & Ht & Hn). apply find_related_prs_elem in Hn. simpl in Hn. rewrite app_nil_r in Hn.
    apply list_elem_of_In, in_concat. exists (pr_text_step pr_numbers owner repo [] t).
    split; [apply in_map_iff; exists t; split; [done|by apply list_elem_of_In]|by apply list_elem_of_In].
Qed.

(** X13: the order of the texts does not change the result of
    [find_related_prs]. *)
Theorem find_related_prs_permutation texts texts' pr_numbers owner repo :
  texts ≡ₚ texts' ->
  find_related_prs texts pr_numbers owner repo = find_related_prs texts' pr_numbers owner repo.
Proof.
  intros Hp. apply StronglySorted_lt_unique; [apply sorted_set_spec|apply sorted_set_spec|].
  intros n. rewrite !find_related_prs_elem. by rewrite Hp.
Qed.

Lemma find_related_prs_permutation_witness :
  [s2l "pull #9"; s2l "merge #5"] ≡ₚ [s2l "merge #5"; s2l "pull #9"] /\
  find_related_prs [s2l "pull #9"; s2l "merge #5"] [5; 9] (s2l "o") (s2l "r") =
  find_related_prs [s2l "merge #5"; s2l "pull #9"] [5; 9] (s2l "o") (s2l "r").
Proof.
  assert (Hp : [s2l "pull #9"; s2l "merge #5"] ≡ₚ [s2l "merge #5"; s2l "pull #9"]) by apply Permutation_swap.
  split; [exact Hp|]. apply find_related_prs_permutation. exact Hp.
Defined.

Lemma split_char_acc_app sep cur x s :
  ~ In sep x -> split_char_acc sep cur (x ++ s) = split_char_acc sep (rev x ++ cur) s.
Proof.
  revert cur; induction x as [|c x IH]; intros cur Hx; simpl; [done|].
  destruct (ceq c sep) eqn:E.
  - apply ceq_true in E. subst. exfalso. apply Hx. by left.
  - rewrite IH by (intros H; apply Hx; by right). by rewrite <- app_assoc.
Qed.

Lemma split_char_join sep (l : list str) :
  Forall (fun x => ~ In sep x) l -> l <> [] -> split_char sep (py_join [sep] l) = l.
Proof.
  induction l as [|x l IH]; [congruence|]. intros Hall _.
  inversion Hall as [|? ? Hx Hl]; subst. unfold split_char. destruct l as [|y l].
  - cbn [py_join]. rewrite <- (app_nil_r x) at 1. rewrite split_char_acc_app by done.
    simpl. by rewrite app_nil_r, rev_involutive.
  - cbn [py_join]. rewrite split_char_acc_app by done. simpl.
    assert (ceq sep sep = true) as -> by by apply ceq_true.
    rewrite app_nil_r, rev_involutive. f_equal. apply IH; [exact Hl|congruence].
Qed.

Lemma not_in_app (c : ascii) a b : ~ In c a -> ~ In c b -> ~ In c (a ++ b).
Proof. intros Ha Hb H. apply in_app_or in H as [H|H]; contradiction. Qed.

Lemma related_line_no_newline base_url label n :
  ~ In newline base_url -> ~ In newline label -> ~ In newline (related_line base_url label n).
Proof.
  intros Hb Hl. unfold related_line.
  assert (Hd : ~ In newline (str_of_nat n)).
  { intros Hin. pose proof (uint_chars_digits (Nat.to_uint n)) as Hd. fold (str_of_nat n) in Hd.
    rewrite Forall_forall in Hd. specialize (Hd _ (proj2 (list_elem_of_In _ _) Hin)). discriminate. }
  repeat apply not_in_app; try assumption; cbv; intuition discriminate.
Qed.

(** X14: [format_related_links] gives ["_None_"] exactly for an empty list
    of numbers. *)
Theorem format_related_links_none numbers base_url label :
  format_related_links numbers base_url label = s2l "_None_" <-> numbers = [].
Proof.
  split; [|intros ->; done].
  destruct numbers as [|n ns]; [done|]. unfold format_related_links.
  destruct ns; cbn [map py_join]; unfold related_line; cbn [app]; discriminate.
Qed.

(** X15: when neither [base_url] nor [label] contains a newline, splitting
    the text of [format_related_links] at newlines gives back one link line
    per number, in order. *)
Theorem format_related_links_lines numbers base_url label :
  numbers <> [] -> ~ In newline base_url -> ~ In newline label ->
  split_char newline (format_related_links numbers base_url label) = map (related_line base_url label) numbers.
Proof.
  intros Hne Hb Hl. destruct numbers as [|n ns]; [congruence|].
  apply split_char_join; [|discriminate].
  apply Forall_forall. intros x Hx. apply list_elem_of_fmap in Hx as (m & -> & _).
  by apply related_line_no_newline.
Qed.

Lemma format_related_links_lines_witness :
  split_char newline (format_related_links [2; 10] (s2l "https://github.com/o/r/pull") (s2l "PR"))
    = [s2l "- [PR #2](https://github.com/o/r/pull/2)"; s2l "- [PR #10](https://github.com/o/r/pull/10)"] /\
  split_char newline (format_related_links [2; 10] (s2l "https://github.com/o/r/pull") (s2l "PR"))
    = map (related_line (s2l "https://github.com/o/r/pull") (s2l "PR")) [2; 10].
Proof.
  split; [vm_compute; reflexivity|].
  apply format_related_links_lines; [discriminate|cbv; intuition discriminate|cbv; intuition discriminate].
Defined.

Lemma lstrip_idem q s : lstrip q (lstrip q s) = lstrip q s.
Proof. apply lstrip_id, lstrip_head. Qed.

Lemma lstrip_nil_iff q s : lstrip q s = [] <-> Forall (fun c => q c = true) s.
Proof.
  induction s as [|c s IH]; simpl; [split; [constructor|done]|].
  destruct (q c) eqn:E.
  - rewrite IH. split; [intros H; by constructor|intros H; by inversion H].
  - split; [discriminate|intros H; inversion H; congruence].
Qed.

Lemma py_strip_idem s : py_strip (py_strip s) = py_strip s.
Proof.
  unfold py_strip.
  destruct (lstrip_suffix is_space_py (rev (lstrip is_space_py s))) as [k Hk].
  assert (Hr : lstrip is_space_py (rev (lstrip is_space_py (rev (lstrip is_space_py s))))
               = rev (lstrip is_space_py (rev (lstrip is_space_py s)))).
  { apply lstrip_id. rewrite Hk, rev_drop_rev.
    pose proof (lstrip_head is_space_py s) as Hh.
    destruct (lstrip is_space_py s) as [|c u]; [by rewrite take_nil|].
    destruct (length (c :: u) - k) as [|j]; [done|]. exact Hh. }
  rewrite Hr, rev_involutive, lstrip_idem. done.
Qed.

Lemma py_strip_nil s : py_strip s = [] <-> Forall (fun c => is_space_py c = true) s.
Proof.
  unfold py_strip. rewrite <- lstrip_nil_iff. split; [|intros ->; done].
  intros H. apply (f_equal (@rev ascii)) in H. rewrite rev_involutive in H. simpl in H.
  apply lstrip_nil_iff in H. rewrite Forall_forall in H.
  pose proof (lstrip_head is_space_py s) as Hh.
  destruct (lstrip is_space_py s) as [|c u]; [done|]. exfalso.
  assert (is_space_py c = true) by (apply H; apply list_elem_of_In; rewrite <- in_rev; left; done).
  congruence.
Qed.

(** X16: a token returned by [get_auth_token] never has leading or trailing
    whitespace: stripping it again changes nothing. *)
Theorem get_auth_token_stripped getenv gh_out t :
  get_auth_token getenv gh_out = Some t -> py_strip t = t.
Proof.
  unfold get_auth_token.
  destruct (py_or (getenv (s2l "GH_TOKEN")) (getenv (s2l "GITHUB_TOKEN"))) as [[|x tok]|].
  2: intros H; injection H as <-; apply py_strip_idem.
  all: destruct gh_out as [out|]; [|discriminate].
  all: destruct (py_strip out) as [|y u] eqn:E; [discriminate|].
  all: intros H; injection H as <-; rewrite <- E; apply py_strip_idem.
Qed.

(** X17: [get_auth_token] returns the empty token exactly when the token taken
    from [GH_TOKEN] or [GITHUB_TOKEN] is non-empty and all whitespace; an
    empty output of [gh auth token] gives [None] instead. *)
Theorem get_auth_token_empty getenv gh_out :
  get_auth_token getenv gh_out = Some [] <->
  exists tok, py_or (getenv (s2l "GH_TOKEN")) (getenv (s2l "GITHUB_TOKEN")) = Some tok /\
              tok <> [] /\ Forall (fun c => is_space_py c = true) tok.
Proof.
  unfold get_auth_token.
  destruct (py_or (getenv (s2l "GH_TOKEN")) (getenv (s2l "GITHUB_TOKEN"))) as [[|x tok]|].
  2: { split.
       - intros H. injection H as H. exists (x :: tok). split; [done|]. split; [discriminate|].
         by apply py_strip_nil.
       - intros (t & Ht & _ & Hs). injection Ht as <-. f_equal. by apply py_strip_nil. }
  all: split; [|intros (t & Ht & Hne & _); congruence].
  all: destruct gh_out as [out|]; [|discriminate].
  all: destruct (py_strip out) as [|y u]; discriminate.
Qed.

Lemma get_auth_token_stripped_witness :
  get_auth_token (fun k => if str_eqb k (s2l "GITHUB_TOKEN") then Some (s2l " tok ") else None) None
    = Some (s2l "tok") /\
  py_strip (s2l "tok") = s2l "tok".
Proof.
  split; [vm_compute; reflexivity|].
  apply (get_auth_token_stripped (fun k => if str_eqb k (s2l "GITHUB_TOKEN") then Some (s2l " tok ") else None) None).
  vm_compute. reflexivity.
Defined.

(** X18: the author expression of [write_issue_md] and [write_pr_md], when it
    does not raise, always gives a truthy value: the heading never shows an
    empty author or [None]. *)
Theorem comment_author_truthy c v :
  comment_author c = Some v -> py_truthy v = true.
Proof.
  unfold comment_author.
  destruct (py_dict_get c (s2l "user") (JObj [])) as [u|]; [|discriminate].
  destruct (py_dict_get (if py_truthy u then u else JObj []) (s2l "login") JNull) as [l1|]; [|discriminate].
  destruct (py_truthy l1) eqn:E1; [intros H; injection H as <-; exact E1|].
  destruct (py_dict_get c (s2l "author") (JObj [])) as [a|]; [|discriminate].
  destruct (py_dict_get a (s2l "login") JNull) as [l2|]; [|discriminate].
  destruct (py_truthy l2) eqn:E2; [intros H; injection H as <-; exact E2|].
  destruct (py_dict_get c (s2l "author") JNull) as [a2|]; [|discriminate].
  destruct (py_truthy a2) eqn:E3; intros H; injection H as <-; [exact E3|done].
Qed.

(** X19: a comment with no [user] (absent or null) whose [author] entry is
    present but not a dict (a plain name string, a number, null, ...) makes
    the author expression raise [AttributeError]: the fallback
    [c.get("author")] is never reached for such a value. *)
Theorem comment_author_non_dict_author fs a :
  py_dict_get (JObj fs) (s2l "user") JNull = Some JNull ->
  py_dict_get (JObj fs) (s2l "author") (JObj []) = Some a ->
  (forall l, a <> JObj l) ->
  comment_author (JObj fs) = None.
Proof.
  intros Hu Ha Hna. unfold comment_author.
  assert (Hu' : exists u, py_dict_get (JObj fs) (s2l "user") (JObj []) = Some u /\ py_truthy u = false).
  { unfold py_dict_get in Hu |- *.
    destruct (List.find (fun e => str_eqb (fst e) (s2l "user")) (rev fs)) as [[k v]|].
    - injection Hu as ->. by exists JNull.
    - by exists (JObj []). }
  destruct Hu' as (u & -> & Hf). rewrite Hf.
  change (py_dict_get (JObj []) (s2l "login") JNull) with (Some JNull). cbv iota.
  change (py_truthy JNull) with false. cbv iota. rewrite Ha.
  destruct a as [items|fields|s|z|b|]; try reflexivity. exfalso. by apply (Hna fields).
Qed.

Lemma comment_author_non_dict_author_witness :
  py_dict_get (JObj [(s2l "author", JStr (s2l "alice"))]) (s2l "user") JNull = Some JNull /\
  py_dict_get (JObj [(s2l "author", JStr (s2l "alice"))]) (s2l "author") (JObj []) = Some (JStr (s2l "alice")) /\
  comment_author (JObj [(s2l "author", JStr (s2l "alice"))]) = None.
Proof.
  split; [vm_compute; reflexivity|]. split; [vm_compute; reflexivity|].
  apply (comment_author_non_dict_author [(s2l "author", JStr (s2l "alice"))] (JStr (s2l "alice")));
    [vm_compute; reflexivity|vm_compute; reflexivity|discriminate].
Defined.

Lemma comment_author_truthy_witness :
  comment_author (JObj [(s2l "user", JObj [(s2l "login", JStr (s2l "bob"))])]) = Some (JStr (s2l "bob")) /\
  py_truthy (JStr (s2l "bob")) = true.
Proof.
  split; [vm_compute; reflexivity|].
  apply (comment_author_truthy (JObj [(s2l "user", JObj [(s2l "login", JStr (s2l "bob"))])])).
  vm_compute. reflexivity.
Defined.

Lemma download_row_spec req_get out_root fs ok fail row fs' ok' fail' :
  download_row req_get out_root (fs, ok, fail) row = Some (fs', ok', fail') ->
  ok' + fail' = S (ok + fail) /\
  (forall p, attachment_target out_root row <> Some p -> fs_read fs' p = fs_read fs p).
Proof.
  unfold download_row.
  destruct (row_get (s2l "url") row) as [url|]; [|discriminate].
  destruct (attachment_target out_root row) as [target|]; [|discriminate].
  destruct (mkdir_blocked fs (removelast target)); [discriminate|].
  destruct (req_get url) as [[[|] body]|].
  2, 3: intros H; injection H as <- <- <-; split; [lia|done].
  destruct body as [|b body].
  - intros H; injection H as <- <- <-; split; [lia|done].
  - destruct (dir_exists fs target); intros H; injection H as <- <- <-; split; [lia|done|lia|].
    intros p Hp. apply fs_read_write_other. congruence.
Qed.

Lemma download_row_key_none req_get out_root st row :
  (row_get (s2l "url") row = None \/ row_get (s2l "repo_slug") row = None \/
   row_get (s2l "local_path") row = None) ->
  download_row req_get out_root st row = None.
Proof.
  intros H. destruct st as [[fs ok] fail]. unfold download_row, attachment_target.
  destruct H as [-> | [-> | ->]]; [done| |];
    destruct (row_get (s2l "url") row); try done;
    destruct (row_get (s2l "repo_slug") row); done.
Qed.

(** X20: when the loop of download_attachments.py finishes, every row has been
    counted once, as downloaded ([ok]) or as failed ([fail]). *)
Theorem download_loop_counts req_get out_root fs rows fs' ok fail :
  download_loop req_get out_root (fs, 0, 0) rows = Some (fs', ok, fail) ->
  ok + fail = length rows.
Proof.
  assert (forall fs0 ok0 fail0, download_loop req_get out_root (fs0, ok0, fail0) rows = Some (fs', ok, fail) ->
          ok + fail = ok0 + fail0 + length rows) as Hg.
  { induction rows as [|row rows IH]; intros fs0 ok0 fail0; cbn [download_loop].
    - intros H. injection H as <- <- <-. simpl. lia.
    - destruct (download_row req_get out_root (fs0, ok0, fail0) row) as [[[fs1 ok1] fail1]|] eqn:E;
        [|cbn iota; discriminate].
      cbn iota. intros H. apply IH in H. apply download_row_spec in E as [Hc _]. simpl. lia. }
  intros H. apply Hg in H. lia.
Qed.

Lemma download_loop_untouched_targets req_get out_root st rows fs' ok fail p :
  download_loop req_get out_root st rows = Some (fs', ok, fail) ->
  (forall row, row ∈ rows -> attachment_target out_root row <> Some p) ->
  fs_read fs' p = fs_read (fst (fst st)) p.
Proof.
  revert st; induction rows as [|row rows IH]; intros [[fs0 ok0] fail0]; cbn [download_loop].
  - intros H _. by injection H as <- _ _.
  - destruct (download_row req_get out_root (fs0, ok0, fail0) row) as [[[fs1 ok1] fail1]|] eqn:E;
      [|cbn iota; discriminate].
    intros H Hp. rewrite (IH _ H) by (intros r Hr; apply Hp; by right). simpl.
    apply download_row_spec in E as [_ Hf]. apply Hf, Hp. left.
Qed.

Lemma attachment_target_plain out_root row slug rel :
  row_get (s2l "repo_slug") row = Some slug -> row_get (s2l "local_path") row = Some rel ->
  row_plain row = true ->
  attachment_target out_root row = Some (out_root ++ path_parts slug ++ path_parts rel).
Proof.
  intros Hs Hr. unfold row_plain, attachment_target. rewrite Hs, Hr.
  unfold plain_rel. intros Hp. apply andb_prop in Hp as [Hp1 Hp2].
  apply andb_prop in Hp1 as [Hp1 _]. apply andb_prop in Hp2 as [Hp2 _].
  apply negb_true_iff in Hp1, Hp2. unfold path_div. rewrite Hp1, Hp2, app_assoc. reflexivity.
Qed.

(** X21: when the rows' [repo_slug] and [local_path] are relative paths
    without [..] segment, the loop of download_attachments.py writes only
    the files [out_root / repo_slug / local_path] of its rows (the segments
    pathlib keeps); any other file keeps its content. *)
Theorem download_loop_untouched req_get out_root st rows fs' ok fail p :
  download_loop req_get out_root st rows = Some (fs', ok, fail) ->
  (forall row, row ∈ rows -> row_plain row = true) ->
  (forall row slug rel, row ∈ rows -> row_get (s2l "repo_slug") row = Some slug ->
     row_get (s2l "local_path") row = Some rel -> p <> out_root ++ path_parts slug ++ path_parts rel) ->
  fs_read fs' p = fs_read (fst (fst st)) p.
Proof.
  intros Hrun Hplain Hp. apply (download_loop_untouched_targets req_get out_root st rows fs' ok fail p Hrun).
  intros row Hrow. destruct (row_get (s2l "repo_slug") row) as [slug|] eqn:Hs;
    [|unfold attachment_target; rewrite Hs; discriminate].
  destruct (row_get (s2l "local_path") row) as [rel|] eqn:Hr;
    [|unfold attachment_target; rewrite Hs, Hr; discriminate].
  rewrite (attachment_target_plain out_root row slug rel Hs Hr (Hplain row Hrow)).
  intros [= Heq]. exact (Hp row slug rel Hrow Hs Hr (eq_sym Heq)).
Qed.

(** X22: a row without a ["url"], ["repo_slug"] or ["local_path"] key stops
    download_attachments.py with an uncaught [KeyError]. *)
Theorem download_loop_key_error req_get out_root st rows row :
  row ∈ rows ->
  (row_get (s2l "url") row = None \/ row_get (s2l "repo_slug") row = None \/
   row_get (s2l "local_path") row = None) ->
  download_loop req_get out_root st rows = None.
Proof.
  intros Hin Hk. revert st; induction rows as [|r rows IH]; intros st; [by apply elem_of_nil in Hin|].
  simpl. apply elem_of_cons in Hin as [->|Hin].
  - by rewrite download_row_key_none.
  - destruct (download_row req_get out_root st r); [by apply IH|done].
Qed.

Lemma download_loop_counts_witness :
  download_loop dl_get [s2l "export"] ([], 0, 0) dl_rows
    = Some ([(map s2l ["export"; "o_r"; "assets"; "issues"; "1"; "001_abc.img"]%string, s2l "img")], 1, 1) /\
  1 + 1 = length dl_rows.
Proof.
  split; [vm_compute; reflexivity|].
  apply (download_loop_counts dl_get [s2l "export"] [] dl_rows
           [(map s2l ["export"; "o_r"; "assets"; "issues"; "1"; "001_abc.img"]%string, s2l "img")]).
  vm_compute. reflexivity.
Defined.

Lemma download_loop_untouched_witness :
  download_loop dl_get [s2l "export"] (dl_notes, 0, 0) dl_rows
    = Some (dl_notes ++ [(map s2l ["export"; "o_r"; "assets"; "issues"; "1"; "001_abc.img"]%string, s2l "img")], 1, 1) /\
  fs_read (dl_notes ++ [(map s2l ["export"; "o_r"; "assets"; "issues"; "1"; "001_abc.img"]%string, s2l "img")])
          [s2l "export"; s2l "notes.txt"]
  = fs_read (fst (fst (dl_notes, 0, 0))) [s2l "export"; s2l "notes.txt"].
Proof.
  split; [vm_compute; reflexivity|].
  apply (download_loop_untouched dl_get [s2l "export"] (dl_notes, 0, 0) dl_rows _ 1 1).
  - vm_compute. reflexivity.
  - intros row Hrow. unfold dl_rows in Hrow.
    apply elem_of_cons in Hrow as [->|Hrow]; [vm_compute; reflexivity|].
    apply list_elem_of_singleton in Hrow as ->. vm_compute. reflexivity.
  - intros row slug rel Hrow Hs Hr. unfold dl_rows in Hrow.
    apply elem_of_cons in Hrow as [->|Hrow]; [|apply list_elem_of_singleton in Hrow as ->];
      vm_compute in Hs, Hr; injection Hs as <-; injection Hr as <-; vm_compute; discriminate.
Defined.

Lemma download_loop_key_error_witness :
  download_loop dl_get [s2l "export"] ([], 0, 0) (dl_rows ++ [[(s2l "url", sample_url)]]) = None.
Proof.
  apply (download_loop_key_error _ _ _ _ [(s2l "url", sample_url)]).
  - apply elem_of_app. right. by apply list_elem_of_singleton.
  - right. left. vm_compute. reflexivity.
Defined.

Lemma find_char_at c s j : find_char c s = Some j -> s !! j = Some c.
Proof.
  revert j; induction s as [|x s IH]; intros j; simpl; [discriminate|].
  destruct (ceq x c) eqn:E.
  - intros [= <-]. apply ceq_true in E. by subst.
  - destruct (find_char c s) as [k|] eqn:Ek; simpl; [|discriminate].
    intros [= <-]. simpl. by apply IH.
Qed.

Lemma rfind_char_at c s i : rfind_char c s = Some i -> s !! i = Some c.
Proof.
  unfold rfind_char. destruct (find_char c (rev s)) as [j|] eqn:Ej; [|discriminate].
  intros [= <-]. apply find_char_at in Ej. pose proof (lookup_lt_Some _ _ _ Ej) as Hj.
  rewrite length_rev in Hj. rewrite rev_alt in Ej. change (rev_append s []) with (reverse s) in Ej.
  rewrite reverse_lookup in Ej by lia. rewrite <- Ej. f_equal. lia.
Qed.

Lemma digits_us_prefix_inj (P1 P2 x y : str) :
  Forall (fun c => is_ascii_digit c = true) P1 -> Forall (fun c => is_ascii_digit c = true) P2 ->
  P1 ++ "_"%char :: x = P2 ++ "_"%char :: y -> P1 = P2.
Proof.
  revert P2; induction P1 as [|a P1 IH]; intros P2 H1 H2 E.
  - destruct P2 as [|b P2]; [done|]. simpl in E. injection E as <- _.
    inversion H2 as [|? ? Hb]; discriminate.
  - destruct P2 as [|b P2].
    + simpl in E. injection E as -> _. inversion H1 as [|? ? Ha]; discriminate.
    + simpl in E. injection E as <- E. inversion H1; inversion H2; subst. f_equal. by apply IH.
Qed.

Lemma py_int_format_03d n : py_int (format_03d n) = n.
Proof. unfold format_03d. by rewrite py_int_zeros, py_int_str_of_nat. Qed.

Lemma format_prefix_inj a b x y :
  format_03d a ++ "_"%char :: x = format_03d b ++ "_"%char :: y -> a = b.
Proof.
  intros E. apply digits_us_prefix_inj in E; [|apply format_03d_digits|apply format_03d_digits].
  rewrite <- (py_int_format_03d a), <- (py_int_format_03d b). by rewrite E.
Qed.

Lemma filename_prefix url k f :
  filename_from_url url k = Some f -> exists rest, f = format_03d k ++ "_"%char :: rest.
Proof.
  unfold filename_from_url. destruct (urlsplit url) as [parsed|]; [|discriminate].
  destruct (splitext _) as [nm ex]. intros [= <-]. eexists. reflexivity.
Qed.

Lemma name_with_suffix_prefix (P rest e : str) :
  Forall (fun c => is_ascii_digit c = true) P ->
  exists rest', name_with_suffix (P ++ "_"%char :: rest) e = P ++ "_"%char :: rest'.
Proof.
  intros HP. unfold name_with_suffix, name_suffix_index.
  destruct (rfind_char "."%char (P ++ "_"%char :: rest)) as [i|] eqn:Er.
  2: { exists (rest ++ e). by rewrite <- app_assoc. }
  destruct (_ && _).
  2: { exists (rest ++ e). by rewrite <- app_assoc. }
  apply rfind_char_at in Er.
  assert (Hi : length P < i).
  { destruct (decide (length P < i)) as [|Hn]; [done|exfalso].
    destruct (decide (i = length P)) as [->|Hne].
    - rewrite lookup_app_r, Nat.sub_diag in Er by lia. simpl in Er. discriminate.
    - rewrite lookup_app_l in Er by lia. rewrite Forall_lookup in HP.
      specialize (HP _ _ Er). discriminate. }
  rewrite take_app_ge by lia.
  destruct (i - length P) as [|m] eqn:Em; [lia|]. simpl.
  exists (take m rest ++ e). by rewrite <- app_assoc.
Qed.

Lemma noslash_take (x : str) i : ~ In "/"%char x -> ~ In "/"%char (take i x).
Proof. intros Hx Hin. apply Hx. rewrite <- (take_drop i x). apply in_or_app. by left. Qed.

Lemma noslash_with_suffix name e :
  ~ In "/"%char name -> ~ In "/"%char e -> ~ In "/"%char (name_with_suffix name e).
Proof.
  intros Hn He. unfold name_with_suffix.
  destruct (name_suffix_index name); apply not_in_app; try done. by apply noslash_take.
Qed.

Lemma sniff_export_noslash d e : sniff_export d = Some e -> ~ In "/"%char e.
Proof.
  unfold sniff_export.
  repeat match goal with |- context [if ?b then _ else _] => destruct b end;
    intros H; try discriminate; injection H as <-; cbv; intuition discriminate.
Qed.

Lemma filename_noslash url k f : filename_from_url url k = Some f -> ~ In "/"%char f.
Proof.
  intros H Hin. apply filename_from_url_good in H. apply good_seg_spec in H. tauto.
Qed.

Lemma with_suffix_snoc (l : path) x e : with_suffix (l ++ [x]) e = l ++ [name_with_suffix x e].
Proof.
  unfold with_suffix. destruct (l ++ [x]) as [|y p] eqn:E; [by destruct l|].
  rewrite <- E, removelast_last. unfold path_name. by rewrite last_snoc.
Qed.

Lemma detect_ext_from_file_noslash fs p e : detect_ext_from_file fs p = Some e -> ~ In "/"%char e.
Proof.
  unfold detect_ext_from_file. destruct (fs_read fs p); [apply sniff_export_noslash|discriminate].
Qed.

Lemma get_local_new_file env url s rel s' :
  url_to_rel (st_tracker s) !! url = None ->
  get_local env url s = (inr rel, s') ->
  exists f,
    rel = relpath (assets_dir (st_tracker s) ++ [f]) (md_dir (st_tracker s)) /\
    (exists rest, f = format_03d (S (counter (st_tracker s))) ++ "_"%char :: rest) /\
    ~ In "/"%char f /\
    assets_dir (st_tracker s') = assets_dir (st_tracker s) /\
    md_dir (st_tracker s') = md_dir (st_tracker s) /\
    counter (st_tracker s') = S (counter (st_tracker s)) /\
    url_to_rel (st_tracker s') = <[url := rel]> (url_to_rel (st_tracker s)).
Proof.
  intros Hm. unfold get_local, bind, get, modify, ret, of_option, raise. simpl.
  rewrite Hm. simpl.
  destruct (filename_from_url url (S (counter (st_tracker s)))) as [fn|] eqn:Hfn; simpl; [|discriminate].
  destruct (filename_prefix _ _ _ Hfn) as [rest Hrest].
  pose proof (filename_noslash _ _ _ Hfn) as Hns.
  set (s1 := set_stats _ _).
  set (abs := assets_dir (st_tracker s) ++ [fn]).
  destruct (download_image_frame env url abs (token (st_tracker s)) s1) as [fs' Hfr].
  destruct (download_image env url abs (token (st_tracker s)) s1) as [[e|ok] s2] eqn:Hd;
    simpl in Hfr; subst s2; simpl; [discriminate|].
  destruct ok; simpl.
  - destruct (str_eqb _ _); simpl; [destruct (detect_ext_from_file _ _) as [ext|] eqn:Hx; simpl|].
    + destruct (dir_exists _ _); simpl.
      { intros Heq; injection Heq as <- <-. exists fn. simpl. eauto 10. }
      intros Heq; injection Heq as <- <-. exists (name_with_suffix fn ext).
      subst abs. rewrite with_suffix_snoc. split; [done|]. split.
      { rewrite Hrest. apply name_with_suffix_prefix, format_03d_digits. }
      split; [apply noslash_with_suffix; [done|eapply detect_ext_from_file_noslash; exact Hx]|].
      simpl. done.
    + intros Heq; injection Heq as <- <-. exists fn. simpl. eauto 10.
    + intros Heq; injection Heq as <- <-. exists fn. simpl. eauto 10.
  - destruct (has_missing_cb (st_tracker s)); simpl; intros Heq; injection Heq as <- <-;
      exists fn; simpl; eauto 10.
Qed.

Lemma get_locals_new_files env us s rs s' :
  NoDup us ->
  Forall (fun u => url_to_rel (st_tracker s) !! u = None) us ->
  get_locals env us s = (inr rs, s') ->
  forall j r, rs !! j = Some r ->
  exists f,
    r = relpath (assets_dir (st_tracker s) ++ [f]) (md_dir (st_tracker s)) /\
    (exists rest, f = format_03d (S (counter (st_tracker s) + j)) ++ "_"%char :: rest) /\
    ~ In "/"%char f.
Proof.
  revert s rs s'; induction us as [|u us IH]; intros s rs s' Hnd Hnew Hg j r Hj.
  - cbn in Hg. injection Hg as <- _. by rewrite lookup_nil in Hj.
  - inversion Hnd as [|? ? Hu Hnd']; subst. inversion Hnew as [|? ? Hu0 Hnew']; subst.
    cbn [get_locals] in Hg. unfold bind at 1 in Hg.
    destruct (get_local env u s) as [[e|r0] s1] eqn:Hl; [discriminate|].
    unfold bind at 1 in Hg.
    destruct (get_locals env us s1) as [[e|rs'] s2] eqn:Hls; [discriminate|].
    unfold ret in Hg. injection Hg as <- _.
    destruct (get_local_new_file env u s r0 s1 Hu0 Hl)
      as (f0 & Hr0 & Hp0 & Hs0 & Ha & Hmd & Hc & Hmap).
    destruct j as [|j].
    + simpl in Hj. injection Hj as <-. exists f0. rewrite Nat.add_0_r. auto.
    + simpl in Hj.
      assert (Hnew1 : Forall (fun u' => url_to_rel (st_tracker s1) !! u' = None) us).
      { rewrite Forall_forall in Hnew' |- *. intros u' Hu'. rewrite Hmap.
        rewrite lookup_insert_ne; [by apply Hnew'|]. intros ->. by apply Hu, list_elem_of_In, list_elem_of_In. }
      destruct (IH s1 rs' s2 Hnd' Hnew1 Hls j r Hj) as (f & Hr & Hp & Hs).
      exists f. rewrite Ha, Hmd, Hc in *. split; [done|]. split; [|done].
      replace (S (counter (st_tracker s) + S j)) with (S (S (counter (st_tracker s)) + j)) by lia. exact Hp.
Qed.

Lemma good_prefixed k rest f :
  f = format_03d k ++ "_"%char :: rest -> ~ In "/"%char f -> good_seg f = true.
Proof.
  intros -> Hs. pose proof (format_03d_digits k) as Hd. destruct (format_03d_length k) as [Hl _].
  destruct (format_03d k) as [|d ds]; [simpl in Hl; lia|].
  inversion Hd; subst. by apply good_seg_digit_head.
Qed.

(** X23: within one tracker whose assets directory has only ordinary
    segments, [get_local] calls on pairwise different URLs that are not yet
    cached return pairwise different relative paths: no two images share a
    local file. *)
Theorem get_locals_distinct env us s rs s' :
  Forall (fun x => good_seg x = true) (assets_dir (st_tracker s)) ->
  NoDup us ->
  Forall (fun u => url_to_rel (st_tracker s) !! u = None) us ->
  get_locals env us s = (inr rs, s') ->
  NoDup rs.
Proof.
  intros Hga Hnd Hnew Hg. apply NoDup_alt. intros i j r Hi Hj.
  destruct (get_locals_new_files env us s rs s' Hnd Hnew Hg i r Hi) as (fi & Hri & (ri & Hpi) & Hsi).
  destruct (get_locals_new_files env us s rs s' Hnd Hnew Hg j r Hj) as (fj & Hrj & (rj & Hpj) & Hsj).
  pose proof (good_prefixed _ _ _ Hpi Hsi) as Hgi. pose proof (good_prefixed _ _ _ Hpj Hsj) as Hgj.
  rewrite Hri in Hrj. apply (f_equal (resolve_in (md_dir (st_tracker s)))) in Hrj.
  rewrite !resolve_in_relpath in Hrj
    by (apply Forall_drop, Forall_app; split; [exact Hga|by repeat constructor]).
  apply app_inj_tail in Hrj as [_ <-]. rewrite Hpi in Hpj.
  apply format_prefix_inj in Hpj. lia.
Qed.

Lemma get_locals_distinct_witness :
  get_locals env_offline [sample_url; gh_asset_url] sample_st =
    (inr [s2l "../assets/issues/1/001_abc.img"; s2l "../assets/issues/1/002_abc.img"],
     snd (get_locals env_offline [sample_url; gh_asset_url] sample_st)) /\
  NoDup [s2l "../assets/issues/1/001_abc.img"; s2l "../assets/issues/1/002_abc.img"].
Proof.
  assert (Hg : get_locals env_offline [sample_url; gh_asset_url] sample_st =
    (inr [s2l "../assets/issues/1/001_abc.img"; s2l "../assets/issues/1/002_abc.img"],
     snd (get_locals env_offline [sample_url; gh_asset_url] sample_st))) by (vm_compute; reflexivity).
  split; [exact Hg|].
  apply (get_locals_distinct env_offline [sample_url; gh_asset_url] sample_st _
           (snd (get_locals env_offline [sample_url; gh_asset_url] sample_st))).
  - repeat constructor.
  - apply NoDup_cons. split; [|apply NoDup_singleton].
    rewrite list_elem_of_singleton. intros H. vm_compute in H. discriminate H.
  - apply Forall_forall. intros u _. reflexivity.
  - exact Hg.
Defined.
